(** * Celestia renderer (src/celengine/render.cpp): frame assembly core

    A shallow embedding of the depth-buffer partitioning stage of
    [Renderer::draw], of the subtree culling decision of
    [Renderer::buildRenderLists], of [Renderer::testEclipse] and of the
    orbit sample cache maintained by [Renderer::renderOrbit]; and, around
    them, of the frustum culling loop and the interval passes of
    [Renderer::draw], of the view-cone test, of the orbit and render
    list entries, of the light sources, of the star vertex buffer, of
    the annotation sets and of the watchers of the renderer.

    Numbers.  The C++ code computes with [float] and [double].  Here a
    value of either type is a rational ([Q]), and comparisons are the
    boolean comparisons of [Q]; infinities and NaN are not represented.
    Where a statement depends on the value that an arithmetic operation
    produces, the operation is the exact one followed by the rounding
    of the format, [Float.round32] for [float] and [Float.round64] for
    [double] (round to nearest, ties to even, with gradual underflow;
    every operation is rounded on its own), and the decimal constants
    are the values of the format nearest to them: so in [testEclipse],
    in the depth ranges, in the bounds that the orbit paths and the
    annotations give to the partitions, in the overlap test of the
    orbit paths, in the depth of the annotations, in the adjustment of
    the near plane of non-convex objects and in the entry of a comet
    tail.  Elsewhere the operations are the exact ones and the
    constants have their decimal values, and the statements only use
    the order of the values, their [min] and [max] and their copies.
    A quotient by zero is 0 in [Q] and infinite or NaN in the source: a
    statement that depends on the value of a quotient carries the
    hypothesis that the divisor is not zero.  Results beyond the
    largest finite value of a format are not represented either. *)

From Stdlib Require Import QArith Qabs Qround Qpower Lqa ZArith Lia List.
From stdpp Require Import base option list sorting gmap.

Local Open Scope Q_scope.

(** ** Comparisons and the [min]/[max] of the C++ standard library *)

Definition Qltb (a b : Q) : bool := negb (Qle_bool b a).
Definition Qgtb (a b : Q) : bool := Qltb b a.
Definition Qgeb (a b : Q) : bool := Qle_bool b a.

(** [std::max(a, b)] is [(a < b) ? b : a]; [std::min(a, b)] is
    [(b < a) ? b : a]. *)
Definition fmax (a b : Q) : Q := if Qltb a b then b else a.
Definition fmin (a b : Q) : Q := if Qltb b a then b else a.

(** ** Single and double precision

    The values of a binary floating-point format with a significand of
    [prec] bits and least exponent [emin] are the multiples [k * 2^q] of
    a power of two with [|k| < 2^prec] and [emin - prec + 1 <= q]. *)

Module Float.

(** The integer nearest to [x]; of two nearest integers, the even
    one. *)
Definition roundHalfEven (x : Q) : Z :=
  let f := Qfloor x in
  match Qcompare (x - inject_Z f) (1 # 2) with
  | Lt => f
  | Gt => (f + 1)%Z
  | Eq => if Z.even f then f else (f + 1)%Z
  end.

(** The exponent [e] with [2^e <= x < 2^(e+1)], for [0 < x]. *)
Definition ilog2 (x : Q) : Z :=
  let e := (Z.log2 (Qnum x) - Z.log2 (Zpos (Qden x)))%Z in
  if Qle_bool (2 ^ e) x then e else (e - 1)%Z.

(** The exponent of the binade of a number that is not zero; below
    [2^emin] the numbers are subnormal and share the exponent [emin]. *)
Definition binade (emin : Z) (x : Q) : Z := Z.max (ilog2 (Qabs (Qred x))) emin.

(** Rounding to the nearest value of the format, ties to even.  The
    result is a fraction in lowest terms, so that two results that are
    equal as rationals are the same fraction. *)
Definition roundBinary (prec emin : Z) (x : Q) : Q :=
  let x := Qred x in
  if Qeq_bool x 0 then 0
  else
    let e := Z.max (ilog2 (Qabs x)) emin in
    let quantum := 2 ^ (e - prec + 1) in
    Qred (inject_Z (roundHalfEven (x / quantum)) * quantum).

(** [float] (IEEE 754 binary32) and [double] (binary64). *)
Definition round32 : Q -> Q := roundBinary 24 (-126).
Definition round64 : Q -> Q := roundBinary 53 (-1022).

#[global] Arguments roundBinary _ _ _ : simpl never.
#[global] Arguments round32 _ : simpl never.
#[global] Arguments round64 _ : simpl never.

End Float.

(** ** Depth-buffer partitioning ([Renderer::draw])

    Camera space has the -z axis pointing into the screen: the stored
    [nearZ] and [farZ] of render-list entries and of partitions are z
    coordinates, negative in front of the observer, and an object
    farther away has a smaller (more negative) z. *)

Module Depth.

(** The fields of a render-list entry read by the partitioning stage.
    The list is sorted by [operator<], which compares
    [centerZ - radius]. *)
Record RenderListEntry := mkEntry {
  centerZ : Q;
  radius : Q;
  nearZ : Q;
  farZ : Q;
  discSizeInPixels : Q
}.

Record OrbitPathListEntry := mkOrbitPath {
  o_centerZ : Q;
  o_radius : Q
}.

(** Of a depth-sorted annotation only [position.z()] is read. *)
Record Annotation := mkAnnotation {
  position_z : Q
}.

Record DepthBufferPartition := mkPartition {
  index : nat;
  p_nearZ : Q;
  p_farZ : Q
}.

(** [static const float MinNearPlaneDistance = 0.0001f;] *)
Definition MinNearPlaneDistance : Q := Eval vm_compute in Float.round32 (1 # 10000).

(** [float prevNear = -1e12f;  // ~ 1 light year], which is
    -999999995904 in single precision. *)
Definition defaultFar : Q := Eval vm_compute in Float.round32 (- (1000000000000 # 1)).

(** The loop state of the scan: the vector [depthPartitions], the
    counter [nIntervals] and [prevNear]. *)
Record ScanState := mkScan {
  depthPartitions : list DepthBufferPartition;
  nIntervals : nat;
  prevNear : Q
}.

(** [nIntervals == 0 || renderList[i].farZ >= depthPartitions[nIntervals - 1].nearZ].
    The vector is indexed at [nIntervals - 1] only when [nIntervals] is
    not zero; an index outside the vector (which the source never
    produces, see [scan_counts]) is read as "disjoint". *)
Definition startsNewInterval (st : ScanState) (e : RenderListEntry) : bool :=
  match nIntervals st with
  | O => true
  | S k =>
      match depthPartitions st !! k with
      | Some last => Qgeb (farZ e) (p_nearZ last)
      | None => true
      end
  end.

(** One iteration of the back-to-front loop over the render list. *)
Definition scanEntry (st : ScanState) (e : RenderListEntry) : ScanState :=
  if Qgtb (discSizeInPixels e) 1 then
    if startsNewInterval st e then
      (* the interval that fills the gap to the previous one *)
      let filler := mkPartition (nIntervals st) (farZ e) (prevNear st) in
      let st1 :=
        if negb (Qeq_bool (p_nearZ filler) (p_farZ filler)) then
          mkScan (depthPartitions st ++ [filler]) (S (nIntervals st)) (prevNear st)
        else st in
      let partition := mkPartition (nIntervals st1) (nearZ e) (farZ e) in
      mkScan (depthPartitions st1 ++ [partition]) (S (nIntervals st1))
             (p_nearZ partition)
    else
      (* expand the current interval so that it contains the object *)
      match depthPartitions st !! (nIntervals st - 1)%nat with
      | Some partition =>
          let partition' :=
            mkPartition (index partition)
                        (fmax (p_nearZ partition) (nearZ e))
                        (fmin (p_farZ partition) (farZ e)) in
          mkScan (<[(nIntervals st - 1)%nat := partition']> (depthPartitions st))
                 (nIntervals st) (p_nearZ partition')
      | None => st
      end
  else st.

(** [for (i = nEntries - 1; i >= 0; i--)]: the entries are visited from
    the last one to the first one. *)
Definition scan (renderList : list RenderListEntry) : ScanState :=
  let prevNear0 :=
    match last renderList with
    | Some e => farZ e * (101 # 100)
    | None => defaultFar
    end in
  fold_left scanEntry (rev renderList) (mkScan [] 0 prevNear0).

(** The closest orbit path:
    [min(-MinNearPlaneDistance, o.centerZ + o.radius)], with the sum in
    single precision. *)
Definition nearestOrbit (zNearest : Q) (orbitPathList : list OrbitPathListEntry) : Q :=
  fold_left
    (fun z o =>
       let minNearDistance :=
         fmin (- MinNearPlaneDistance) (Float.round32 (o_centerZ o + o_radius o)) in
       if Qgtb minNearDistance z then minNearDistance else z)
    orbitPathList zNearest.

(** The closest marker, [depthSortedAnnotations[0]]:
    [zNearest = -depthSortedAnnotations[0].position.z() * 0.999f]. *)
Definition nearestAnnotation (zNearest : Q) (annotations : list Annotation) : Q :=
  match annotations with
  | a :: _ =>
      if Qgtb (- position_z a) zNearest
      then Float.round32 (- position_z a * Float.round32 (999 # 1000))
      else zNearest
  | [] => zNearest
  end.

(** [zNearest] as it stands before the frontmost interval is added. *)
Definition computeZNearest (prevNear : Q) (orbitPathList : list OrbitPathListEntry)
    (annotations : list Annotation) : Q :=
  let z := nearestAnnotation (nearestOrbit prevNear orbitPathList) annotations in
  if Qeq_bool z prevNear then 0 else z.

(** The near bound of the frontmost interval. *)
Definition closestBound (zNearest : Q) (renderList : list RenderListEntry) : Q :=
  match renderList with
  | e0 :: _ =>
      let closest := fmax zNearest (nearZ e0) in
      if Qeq_bool closest 0 then nearZ e0 * (1 # 100) else closest
  | [] => zNearest
  end.

(** The last interval, from the front of the nearest object to the
    frontier. *)
Definition addFrontInterval (st : ScanState) (closest : Q) : ScanState :=
  let partition := mkPartition (nIntervals st) closest (prevNear st) in
  mkScan (depthPartitions st ++ [partition]) (S (nIntervals st)) (prevNear st).

(** [depthPartitions[0].farZ = min(depthPartitions[0].farZ, ...)] for the
    last orbit path of the sorted list, with [centerZ - radius] in
    single precision. *)
Definition includeFarthestOrbit (parts : list DepthBufferPartition)
    (orbitPathList : list OrbitPathListEntry) : list DepthBufferPartition :=
  match last orbitPathList, parts with
  | Some o, p0 :: rest =>
      mkPartition (index p0) (p_nearZ p0)
                  (fmin (p_farZ p0) (Float.round32 (o_centerZ o - o_radius o))) :: rest
  | _, _ => parts
  end.

(** The partitioning block of [draw], lines 3187 to 3310. *)
Definition partitionState (renderList : list RenderListEntry)
    (orbitPathList : list OrbitPathListEntry) (annotations : list Annotation)
    : ScanState :=
  let st := scan renderList in
  let zNearest := computeZNearest (prevNear st) orbitPathList annotations in
  let st' := addFrontInterval st (closestBound zNearest renderList) in
  mkScan (includeFarthestOrbit (depthPartitions st') orbitPathList)
         (nIntervals st') (prevNear st').

Definition partition (renderList : list RenderListEntry)
    (orbitPathList : list OrbitPathListEntry) (annotations : list Annotation)
    : list DepthBufferPartition :=
  depthPartitions (partitionState renderList orbitPathList annotations).

(** [(float) k] for an [int] k. *)
Definition intToFloat (k : nat) : Q := Float.round32 (inject_Z (Z.of_nat k)).

(** [float intervalSize = 1.0f / (float) max(1, nIntervals);] *)
Definition intervalSize (n : nat) : Q := Float.round32 (1 / intToFloat (Nat.max 1 n)).

(** [1.0f - (float) k * intervalSize], in single precision. *)
Definition depthBound (n k : nat) : Q :=
  Float.round32 (1 - Float.round32 (intToFloat k * intervalSize n)).

(** The arguments of [glDepthRange] for the interval [interval]:
    [1.0f - (float) (interval + 1) * intervalSize] and
    [1.0f - (float) interval * intervalSize]. *)
Definition depthRange (n interval : nat) : Q * Q :=
  (depthBound n (interval + 1), depthBound n interval).

(** The clip plane distances handed to the projection:
    [nearPlaneDistance = -depthPartitions[interval].nearZ] and
    [farPlaneDistance = -depthPartitions[interval].farZ]. *)
Definition nearPlaneDistance (p : DepthBufferPartition) : Q := - p_nearZ p.
Definition farPlaneDistance (p : DepthBufferPartition) : Q := - p_farZ p.

(** *** Predicates on partition sequences, and scenes *)

(** Consecutive intervals leave no gap: the far bound of an interval
    is at or beyond the near bound of the interval constructed before
    it. *)
Definition NoGap (l : list DepthBufferPartition) : Prop :=
  forall i p q, l !! i = Some p -> l !! S i = Some q -> p_farZ q <= p_nearZ p.

(** The index stored in a partition is its position in the vector. *)
Definition Indexed (l : list DepthBufferPartition) : Prop :=
  forall k p, l !! k = Some p -> index p = k.

(** The invariant of the scan: [nIntervals] counts the partitions, the
    partitions leave no gap, and [prevNear] is the near bound of the
    last partition. *)
Record ScanInv (st : ScanState) : Prop := {
  inv_count : nIntervals st = length (depthPartitions st);
  inv_nogap : NoGap (depthPartitions st);
  inv_prev : forall p, last (depthPartitions st) = Some p -> prevNear st = p_nearZ p
}.

(** The bounds of a partition lie between the far bound [F] from which
    the scan starts and the observer. *)
Definition Bounded (F : Q) (p : DepthBufferPartition) : Prop :=
  F <= p_farZ p /\ p_farZ p < 0 /\ F <= p_nearZ p /\ p_nearZ p < 0.

(** The first partition reaches at least to [F]. *)
Definition HeadFar (F : Q) (l : list DepthBufferPartition) : Prop :=
  forall p0, l !! 0%nat = Some p0 -> p_farZ p0 <= F.

Record SignInv (F : Q) (st : ScanState) : Prop := {
  s_count : nIntervals st = length (depthPartitions st);
  s_index : Indexed (depthPartitions st);
  s_bounds : Forall (Bounded F) (depthPartitions st);
  s_prev : F <= prevNear st /\ prevNear st < 0;
  s_head : HeadFar F (depthPartitions st);
  s_init : depthPartitions st = [] -> prevNear st <= F
}.

(** Both bounds of the partition are negative z coordinates. *)
Definition Negative (p : DepthBufferPartition) : Prop := p_farZ p < 0 /\ p_nearZ p < 0.

(** The far bound from which the scan starts. *)
Definition scanStart (renderList : list RenderListEntry) : Q :=
  match last renderList with
  | Some e => farZ e * (101 # 100)
  | None => defaultFar
  end.

(** Three objects larger than a pixel, listed front to back as the
    sorted render list has them, with far bounds at 1, 10 and 1000. *)
Definition threeBodies : list RenderListEntry :=
  [ mkEntry (- (3 # 4)) (1 # 4) (- (1 # 2)) (- (1)) 2;
    mkEntry (- (15 # 2)) (5 # 2) (- (5)) (- (10)) 2;
    mkEntry (- (750)) 250 (- (500)) (- (1000)) 2 ].

(** An orbit path ten units in front of the observer, of radius one. *)
Definition oneOrbit : list OrbitPathListEntry := [ mkOrbitPath (- (10)) 1 ].

(** A planet with rings and, beyond it, a moon, in the order of
    [operator<]: the planet, of radius 60 at the distance 1000, has its
    far bound at the far edge of its rings, 1140; the moon, of radius 2
    at the distance 1100, has its far bound at 1102. *)
Definition ringedPlanetAndMoon : list RenderListEntry :=
  [ mkEntry (- (1000)) 60 (- (900)) (- (1140)) 2;
    mkEntry (- (1100)) 2 (- (1098)) (- (1102)) 2 ].

(** One object larger than a pixel. *)
Definition oneBody : list RenderListEntry :=
  [ mkEntry (- (3 # 4)) (1 # 4) (- (1 # 2)) (- (1)) 2 ].

(** Twenty objects larger than a pixel, listed front to back, the
    object [i] between the distances [4^i] and [2 * 4^i]. *)
Definition twentyBodies : list RenderListEntry :=
  map (fun i =>
         let d := inject_Z (4 ^ Z.of_nat i) in
         mkEntry (- ((3 # 2) * d)) ((1 # 2) * d) (- d) (- (2 * d)) 2)
      (seq 0 20).

End Depth.

(** ** Vectors

    [Eigen::Vector3d] and [Eigen::Vector3f], with the operations that do
    not need a square root.  [norm], [normalized] and the distance from a
    point to a ray are parameters of the sections that use them. *)

Module Vec.

Record Vector3 := mkVec { vx : Q; vy : Q; vz : Q }.

Definition zero : Vector3 := mkVec 0 0 0.
Definition add (a b : Vector3) : Vector3 :=
  mkVec (vx a + vx b) (vy a + vy b) (vz a + vz b).
Definition sub (a b : Vector3) : Vector3 :=
  mkVec (vx a - vx b) (vy a - vy b) (vz a - vz b).
Definition dot (a b : Vector3) : Q := vx a * vx b + vy a * vy b + vz a * vz b.
Definition squaredNorm (a : Vector3) : Q := dot a a.

(** The sum and the difference of two [Vector3d], component by
    component in double precision, and [cast<float>()]. *)
Definition addDouble (a b : Vector3) : Vector3 :=
  mkVec (Float.round64 (vx a + vx b)) (Float.round64 (vy a + vy b))
        (Float.round64 (vz a + vz b)).
Definition subDouble (a b : Vector3) : Vector3 :=
  mkVec (Float.round64 (vx a - vx b)) (Float.round64 (vy a - vy b))
        (Float.round64 (vz a - vz b)).
Definition castFloat (a : Vector3) : Vector3 :=
  mkVec (Float.round32 (vx a)) (Float.round32 (vy a)) (Float.round32 (vz a)).

End Vec.

Definition square (x : Q) : Q := x * x.

(** ** Subtree culling ([Renderer::buildRenderLists], lines 5793 to 5875) *)

Module Cull.
Import Vec.

(** [Frustum::Aspect], the result of [Frustum::testSphere]. *)
Inductive Aspect := Outside | Inside | Intersect.

Definition Aspect_eqb (a b : Aspect) : bool :=
  match a, b with
  | Outside, Outside | Inside, Inside | Intersect, Intersect => true
  | _, _ => false
  end.

Definition PLANETSHINE_DISTANCE_LIMIT_FACTOR : Q := 100.
Definition PLANETSHINE_PIXEL_SIZE_LIMIT : Q := 1 # 10.

(** What the decision reads of [body->getFrameTree()]. *)
Record FrameTree := mkFrameTree {
  boundingSphereRadius : Q;
  maxChildRadius : Q;
  containsSecondaryIlluminators : bool
}.

Record LightSource := mkLightSource {
  ls_position : Vector3;
  ls_luminosity : Q
}.

(** What the decision reads of the renderer and of the enclosing loop
    iteration. *)
Record CullContext := mkCullContext {
  lightSourceList : list LightSource;
  faintestPlanetMag : Q;
  pixelSize : Q;
  sinViewAngle : Q;
  invCosViewAngle : Q;
  pos_v : Vector3;          (* viewer-relative position of the body *)
  dist_vn : Q;              (* distance along the view normal *)
  toViewNormal : Vector3
}.

Section Subtree.

(** Functions of other translation units. *)
Variable norm : Vector3 -> Q.
Variable luminosityAtOpposition : Q -> Q -> Q -> Q.
Variable lumToAppMag : Q -> Q -> Q.
Variable kilometersToLightYears : Q -> Q.
Variable testSphere : Vector3 -> Q -> Aspect.   (* viewFrustum.testSphere *)

Definition minPossibleDistance (c : CullContext) (subtree : FrameTree) : Q :=
  norm (pos_v c) - boundingSphereRadius subtree.

(** [lum], summed over the light sources. *)
Definition reflectedLuminosity (c : CullContext) (subtree : FrameTree) : Q :=
  fold_left
    (fun lum l =>
       let sunPos := sub (pos_v c) (ls_position l) in
       lum + luminosityAtOpposition (ls_luminosity l) (norm sunPos)
                                    (maxChildRadius subtree))
    (lightSourceList c) 0.

Definition brightestPossible (c : CullContext) (subtree : FrameTree) : Q :=
  if Qgtb (minPossibleDistance c subtree) 1 then
    lumToAppMag (reflectedLuminosity c subtree)
                (kilometersToLightYears (minPossibleDistance c subtree))
  else - (100).

Definition largestPossible (c : CullContext) (subtree : FrameTree) : Q :=
  if Qgtb (minPossibleDistance c subtree) 1 then
    maxChildRadius subtree / minPossibleDistance c subtree / pixelSize c
  else 100.

(** The best case passes the limiting magnitude or the one-pixel size
    threshold: [brightestPossible < faintestPlanetMag || largestPossible > 1.0f]. *)
Definition bestCaseVisible (c : CullContext) (subtree : FrameTree) : bool :=
  Qltb (brightestPossible c subtree) (faintestPlanetMag c)
  || Qgtb (largestPossible c subtree) 1.

(** [viewFrustum.testSphere(pos_v, boundingSphereRadius) != Frustum::Outside] *)
Definition inFrustum (c : CullContext) (subtree : FrameTree) : bool :=
  negb (Aspect_eqb (testSphere (pos_v c) (boundingSphereRadius subtree)) Outside).

Definition influenceRadius (subtree : FrameTree) : Q :=
  boundingSphereRadius subtree
  + maxChildRadius subtree * PLANETSHINE_DISTANCE_LIMIT_FACTOR.

(** The view-cone test on the influence sphere of the subtree. *)
Definition influenceInViewCone (c : CullContext) (subtree : FrameTree) : bool :=
  if Qgtb (dist_vn c) (- influenceRadius subtree) then
    let maxPerpDist :=
      (influenceRadius subtree + dist_vn c * sinViewAngle c) * invCosViewAngle c in
    let perpDistSq := squaredNorm (toViewNormal c) in
    Qltb perpDistSq (maxPerpDist * maxPerpDist)
  else false.

(** The value of [traverseSubtree] when line 5865 tests it. *)
Definition traverseSubtree (c : CullContext) (subtree : FrameTree) : bool :=
  let traverse1 :=
    if bestCaseVisible c subtree then
      if inFrustum c subtree then true else false
    else false in
  if containsSecondaryIlluminators subtree
     && negb traverse1
     && Qgtb (largestPossible c subtree) PLANETSHINE_PIXEL_SIZE_LIMIT
  then
    if influenceInViewCone c subtree then true else traverse1
  else traverse1.

(** The third condition of the specification: something in the subtree
    could contribute planetshine to an object in the view cone. *)
Definition canPlanetshine (c : CullContext) (subtree : FrameTree) : bool :=
  containsSecondaryIlluminators subtree
  && Qgtb (largestPossible c subtree) PLANETSHINE_PIXEL_SIZE_LIMIT
  && influenceInViewCone c subtree.

End Subtree.

(** *** Scenes *)


(** A subtree of radius 10 without light-reflecting objects, with a
    child of radius 1/100. *)
Definition farSubtree : FrameTree := mkFrameTree 10 (1 # 100) false.

(** A view frustum for the scenes: the observer at the origin looks
    down the -z axis; the four side planes pass through the origin with
    the inward unit normals [(-+4/5, 0, -3/5)] and [(0, -+4/5, -3/5)],
    and the near plane lies at the distance 1/1000.  A sphere is outside
    when its centre lies farther than its radius on the outer side of
    one of the planes, and inside when it lies farther than its radius
    on the inner side of all of them. *)
Definition scenePlanes : list (Vector3 * Q) :=
  [ (mkVec (- (4 # 5)) 0 (- (3 # 5)), 0);
    (mkVec (4 # 5) 0 (- (3 # 5)), 0);
    (mkVec 0 (- (4 # 5)) (- (3 # 5)), 0);
    (mkVec 0 (4 # 5) (- (3 # 5)), 0);
    (mkVec 0 0 (- (1)), - (1 # 1000)) ].

Definition sceneFrustum (center : Vector3) (radius : Q) : Aspect :=
  let signedDistance := fun plane : Vector3 * Q => dot plane.1 center + plane.2 in
  if existsb (fun plane => Qltb (signedDistance plane) (- radius)) scenePlanes
  then Outside
  else if existsb (fun plane => Qle_bool (signedDistance plane) radius) scenePlanes
       then Intersect
       else Inside.

(** On the axes the sum of the absolute coordinates is the Euclidean
    norm. *)
Definition axisNorm (v : Vector3) : Q := Qabs (vx v) + Qabs (vy v) + Qabs (vz v).

(** A subtree of radius 10 with a child of radius 5, at the distance
    1000 beside the observer, at a right angle to the view direction:
    [dist_vn] is 0.  No light source is near. *)
Definition largeSubtree : FrameTree := mkFrameTree 10 5 false.

Definition besideContext : CullContext :=
  mkCullContext [] 6 (1 # 1000) (3 # 5) (5 # 4) (mkVec 1000 0 0) 0 (mkVec 1000 0 0).

(** The position of the far away subtree [farSubtree], at the distance
    1000 on the view axis. *)
Definition aheadContext : CullContext :=
  mkCullContext [] 6 (1 # 1000) (3 # 5) (5 # 4) (mkVec 0 0 (- (1000))) 1000 zero.

End Cull.

(** ** Eclipse shadows ([Renderer::testEclipse]) *)

Module Eclipse.
Import Vec.

(** [static const float MinRelativeOccluderRadius = 0.005f;] *)
Definition MinRelativeOccluderRadius : Q := Eval vm_compute in Float.round32 (5 # 1000).

Record Quaternion := mkQuat { qw : Q; qx : Q; qy : Q; qz : Q }.

(** [Quaterniond::cast<float>()] *)
Definition castQuaternion (q : Quaternion) : Quaternion :=
  mkQuat (Float.round32 (qw q)) (Float.round32 (qx q)) (Float.round32 (qy q))
         (Float.round32 (qz q)).

Record RingSystem := mkRings {
  innerRadius : Q;
  outerRadius : Q
}.

(** What [testEclipse] reads of a [Body]: the radius is a [float], the
    position a [Vector3d] and the orientation a [Quaterniond]. *)
Record Body := mkBody {
  getRadius : Q;
  hasVisibleGeometry : bool;
  extant : Q -> bool;
  isEllipsoid : bool;
  getAstrocentricPosition : Q -> Vector3;
  getOrientation : Q -> Quaternion;
  getRings : option RingSystem
}.

(** The position is a [Vector3d], the apparent size a [float]. *)
Record DirectionalLight := mkLight {
  position : Vector3;
  apparentSize : Q
}.

Record EclipseShadow := mkEclipseShadow {
  origin : Vector3;
  direction : Vector3;
  penumbraRadius : Q;
  umbraRadius : Q;
  maxDepth : Q;
  caster : Body
}.

Record RingShadow := mkRingShadow {
  rs_origin : Vector3;
  rs_direction : Vector3;
  rs_ringSystem : option RingSystem;
  rs_casterOrientation : Quaternion
}.

(** [LightingState]: the arrays [lights], [shadows] and [ringShadows]
    have [MaxLights] slots and are indexed by the light. [shadows[i]]
    points to a vector of eclipse shadows. *)
Record LightingState := mkLighting {
  lights : nat -> DirectionalLight;
  shadows : nat -> list EclipseShadow;
  ringShadows : nat -> RingShadow
}.

Definition update {A : Type} (f : nat -> A) (i : nat) (v : A) : nat -> A :=
  fun j => if Nat.eqb j i then v else f j.

Section TestEclipse.

(** [Eigen]'s [norm], [normalized] and [dot] on [Vector3d], with
    results in double precision, and
    [distance(point, Ray3d(origin, direction))] of celmath. *)
Variable norm : Vector3 -> Q.
Variable normalized : Vector3 -> Vector3.
Variable distance : Vector3 -> Vector3 -> Vector3 -> Q.
Variable dot : Vector3 -> Vector3 -> Q.

(** The test that opens the function, line 4739; the product of the
    two [float] is a [float]. *)
Definition casterQualifies (receiver caster : Body) (now : Q) : bool :=
  Qgeb (getRadius caster)
       (Float.round32 (getRadius receiver * MinRelativeOccluderRadius))
  && hasVisibleGeometry caster
  && extant caster now
  && isEllipsoid caster.

Section Quantities.

Variables (receiver caster : Body) (light : DirectionalLight) (now : Q).

Definition posReceiver : Vector3 := getAstrocentricPosition receiver now.
Definition posCaster : Vector3 := getAstrocentricPosition caster now.

(** [float appSunRadius = light.apparentSize;] *)
Definition appSunRadius : Q := apparentSize light.

Definition dir : Vector3 := subDouble posCaster posReceiver.

(** [double distToCaster = dir.norm() - receiver.getRadius();] *)
Definition distToCaster : Q := Float.round64 (norm dir - getRadius receiver).

(** [float appOccluderRadius = (float) (caster.getRadius() / distToCaster);] *)
Definition appOccluderRadius : Q :=
  Float.round32 (Float.round64 (getRadius caster / distToCaster)).

(** [float shadowRadius = (1 + appSunRadius / appOccluderRadius) *
    caster.getRadius();] *)
Definition shadowRadius : Q :=
  Float.round32
    (Float.round32 (1 + Float.round32 (appSunRadius / appOccluderRadius))
     * getRadius caster).

(** [float R = receiver.getRadius() + shadowRadius;] *)
Definition R : Q := Float.round32 (getRadius receiver + shadowRadius).

Definition lightPosition : Vector3 := addDouble posReceiver (position light).
Definition lightToCasterDir : Vector3 := subDouble posCaster lightPosition.
Definition receiverToCasterDir : Vector3 := subDouble posReceiver posCaster.
Definition dist : Q := distance posReceiver posCaster lightToCasterDir.

(** [dist < R]: the receiver is within the shadow cylinder. *)
Definition withinShadowCylinder : bool := Qltb dist R.

(** [lightToCasterDir.dot(receiverToCasterDir) > 0.0]: the receiver is
    behind the caster when seen from the light source. *)
Definition receiverBehindCaster : bool :=
  Qgtb (dot lightToCasterDir receiverToCasterDir) 0.

(** [std::min(1.0f, square(appOccluderRadius / appSunRadius))] *)
Definition shadowMaxDepth : Q :=
  fmin 1 (Float.round32 (square (Float.round32 (appOccluderRadius / appSunRadius)))).

(** [caster.getRadius() * (appOccluderRadius - appSunRadius) /
    appOccluderRadius] *)
Definition shadowUmbraRadius : Q :=
  Float.round32
    (Float.round32 (getRadius caster * Float.round32 (appOccluderRadius - appSunRadius))
     / appOccluderRadius).

Definition eclipseShadow : EclipseShadow :=
  mkEclipseShadow (castFloat dir) (castFloat (normalized lightToCasterDir))
    shadowRadius shadowUmbraRadius shadowMaxDepth caster.

End Quantities.

(** [testEclipse]: the result and the lighting state it leaves.  In the
    ring test both branches on the orientation of the ring plane set
    [shadowed], so that the ring shadow is recorded whenever
    [dist < outerRadius + receiver.getRadius()]. *)
Definition testEclipse (receiver caster : Body) (lightingState : LightingState)
    (lightIndex : nat) (now : Q) : bool * LightingState :=
  let light := lights lightingState lightIndex in
  if casterQualifies receiver caster now then
    let '(isReceiverShadowed, ls1) :=
      if withinShadowCylinder receiver caster light now
         && receiverBehindCaster receiver caster light now
      then
        let shadow := eclipseShadow receiver caster light now in
        (true,
         if Qgtb (maxDepth shadow) (1 / 256) then
           mkLighting (lights lightingState)
             (update (shadows lightingState) lightIndex
                     (shadows lightingState lightIndex ++ [shadow]))
             (ringShadows lightingState)
         else lightingState)
      else (false, lightingState) in
    let ls2 :=
      match getRings caster with
      | Some rings =>
          if Qltb (dist receiver caster light now)
                  (Float.round32 (outerRadius rings + getRadius receiver))
          then
            mkLighting (lights ls1) (shadows ls1)
              (update (ringShadows ls1) lightIndex
                 (mkRingShadow (castFloat (dir receiver caster now))
                    (castFloat (normalized (lightToCasterDir receiver caster light now)))
                    (getRings caster) (castQuaternion (getOrientation caster now))))
          else ls1
      | None => ls1
      end in
    (isReceiverShadowed, ls2)
  else (false, lightingState).

End TestEclipse.

(** *** Scenes *)

(** A configuration on the x axis: the light source at the origin, a
    small moon at x = 100 and, behind it, a planet at x = 110.  On this
    axis the sum of the absolute coordinates is the Euclidean norm, the
    distance of a point to a ray along the axis is measured in the
    y-z plane, and the products and the sum of the dot product are
    exact. *)
Definition axisNorm (v : Vector3) : Q := Qabs (vx v) + Qabs (vy v) + Qabs (vz v).

Definition axisDistance (p rayOrigin rayDirection : Vector3) : Q :=
  Qabs (vy (sub p rayOrigin)) + Qabs (vz (sub p rayOrigin)).

Definition unitX (v : Vector3) : Vector3 := mkVec 1 0 0.

Definition identity : Quaternion := mkQuat 1 0 0 0.

Definition planet : Body :=
  mkBody 5 true (fun _ => true) true (fun _ => mkVec 110 0 0) (fun _ => identity) None.

Definition moon : Body :=
  mkBody (1 # 8) true (fun _ => true) true (fun _ => mkVec 100 0 0)
         (fun _ => identity) None.

(** The same moon with an irregular shape. *)
Definition rock : Body :=
  mkBody (1 # 8) true (fun _ => true) false (fun _ => mkVec 100 0 0)
         (fun _ => identity) None.

(** A moon whose radius is the single-precision product [5.0f * 0.005f],
    which is less than 5 * 0.005. *)
Definition smallMoon : Body :=
  mkBody (3355443 # 134217728) true (fun _ => true) true (fun _ => mkVec 100 0 0)
         (fun _ => identity) None.

Definition sunLight : DirectionalLight := mkLight (mkVec (- (110)) 0 0) (1 # 2).

Definition noShadows : LightingState :=
  mkLighting (fun _ => sunLight) (fun _ => [])
             (fun _ => mkRingShadow zero zero None identity).

End Eclipse.

(** ** The orbit sample cache ([Renderer::renderOrbit]) *)

Module Orbits.
Import Vec.

(** Size at which the orbit cache will be flushed of old orbit paths,
    and age in frames at which unused orbit paths may be eliminated. *)
Definition OrbitCacheCullThreshold : nat := 200.
Definition OrbitCacheRetireAge : Z := 16.

Record CurvePlotSample := mkSample {
  t : Q;
  position : Vector3;
  velocity : Vector3
}.

(** Modelled from the spec: the class [CurvePlot] (curveplot.h/.cpp) is
    not part of the sources at hand.  It is "an ordered sequence of
    time-stamped samples (time, position, velocity) covering some
    contiguous [startTime,endTime] window" with a "last-frame-used
    counter"; its samples are "strictly ordered by time" and are
    "appended/trimmed at either end". *)
Record CurvePlot := mkPlot {
  samples : list CurvePlotSample;
  lastUsed : Z
}.

(** Modelled from the spec: [CurvePlot::empty]. *)
Definition empty (p : CurvePlot) : bool :=
  match samples p with [] => true | _ => false end.

(** Modelled from the spec: [CurvePlot::startTime] and
    [CurvePlot::endTime], the times of the first and of the last sample.
    On a plot without samples the source reads the front of an empty
    container; the model returns 0 there. *)
Definition startTime (p : CurvePlot) : Q :=
  match samples p with s :: _ => t s | [] => 0 end.

Definition endTime (p : CurvePlot) : Q :=
  match last (samples p) with Some s => t s | None => 0 end.

(** Modelled from the spec: [CurvePlot::setLastUsed]. *)
Definition setLastUsed (frame : Z) (p : CurvePlot) : CurvePlot :=
  mkPlot (samples p) frame.

(** Modelled from the spec: [CurvePlot::addSample].  A sample later than
    the last one is appended, a sample earlier than the first one is
    prepended, and a sample within the time range of the plot is
    ignored, which keeps the samples strictly ordered by time. *)
Definition addSample (s : CurvePlotSample) (p : CurvePlot) : CurvePlot :=
  match samples p with
  | [] => mkPlot [s] (lastUsed p)
  | _ =>
      if Qgtb (t s) (endTime p) then mkPlot (samples p ++ [s]) (lastUsed p)
      else if Qltb (t s) (startTime p) then mkPlot (s :: samples p) (lastUsed p)
      else p
  end.

Fixpoint popFrontWhile (f : CurvePlotSample -> bool) (l : list CurvePlotSample)
    : list CurvePlotSample :=
  match l with
  | s :: l' => if f s then popFrontWhile f l' else l
  | [] => []
  end.

Definition popBackWhile (f : CurvePlotSample -> bool) (l : list CurvePlotSample)
    : list CurvePlotSample :=
  rev (popFrontWhile f (rev l)).

(** Modelled from the spec: [CurvePlot::removeSamplesBefore] trims, from
    the front, the samples earlier than [x]; [CurvePlot::removeSamplesAfter]
    trims, from the back, the samples later than [x]. *)
Definition removeSamplesBefore (x : Q) (p : CurvePlot) : CurvePlot :=
  mkPlot (popFrontWhile (fun s => Qltb (t s) x) (samples p)) (lastUsed p).

Definition removeSamplesAfter (x : Q) (p : CurvePlot) : CurvePlot :=
  mkPlot (popBackWhile (fun s => Qgtb (t s) x) (samples p)) (lastUsed p).

(** Modelled from the spec: the query interface of an orbit model,
    "supporting [positionAtTime], [sample(startTime,endTime,callback)],
    [isPeriodic], [getPeriod], [getBoundingRadius], [getValidRange]".
    [sample o a b] is the sequence of samples handed to the callback. *)
Record Orbit := mkOrbit {
  isPeriodic : bool;
  getPeriod : Q;
  getValidRange : Q * Q;
  sample : Q -> Q -> list CurvePlotSample
}.

(** [OrbitSampler::insertForward] and [OrbitSampler::insertBackward]. *)
Definition insertForward (sampler : list CurvePlotSample) (plot : CurvePlot)
    : CurvePlot :=
  fold_left (fun p s => addSample s p) sampler plot.

Definition insertBackward (sampler : list CurvePlotSample) (plot : CurvePlot)
    : CurvePlot :=
  fold_left (fun p s => addSample s p) (rev sampler) plot.

(** [frameCount - iter->second->lastUsed()].  [OrbitCacheRetireAge] is
    a [uint32_t]; the frame counters (declared in render.h and
    curveplot.h) are taken to be unsigned 32-bit integers as well, so
    that their difference wraps around. *)
Definition age (frameCount lastUsed : Z) : Z :=
  ((frameCount - lastUsed) mod 2 ^ 32)%Z.

(** An orbit is identified by its address. *)
Definition OrbitId := positive.

(** The part of the renderer that [renderOrbit] reads and writes. *)
Record Renderer := mkRenderer {
  orbitCache : gmap positive CurvePlot;
  frameCount : Z;
  lastOrbitCacheFlush : Z;
  orbitWindowEnd : Q;          (* detailOptions.orbitWindowEnd *)
  orbitPeriodsShown : Q        (* detailOptions.orbitPeriodsShown *)
}.

Definition withCache (r : Renderer) (c : gmap positive CurvePlot) : Renderer :=
  mkRenderer c (frameCount r) (lastOrbitCacheFlush r)
             (orbitWindowEnd r) (orbitPeriodsShown r).

(** The renderer as its constructor leaves it. *)
Definition initialRenderer : Renderer := mkRenderer ∅ 0 0 (1 # 2) 1.

(** [frameCount++] at the start of [draw]. *)
Definition beginFrame (r : Renderer) : Renderer :=
  mkRenderer (orbitCache r) ((frameCount r + 1) mod 2 ^ 32)%Z
             (lastOrbitCacheFlush r) (orbitWindowEnd r) (orbitPeriodsShown r).

(** Extra size of the internal sample cache. *)
Definition WindowSlack : Q := 2 # 10.

Definition tiny : Q := 1 # 1000000000000000.   (* 1.0e-15 *)

(** The desired display window and the window of the sample cache, for
    a call at time [now] (the parameter [t] of the source). *)
Section Window.

Variables (orbit : Orbit) (OrbitWindowEnd OrbitPeriodsShown : Q) (now : Q).

Definition windowEnd : Q := now + getPeriod orbit * OrbitWindowEnd.
Definition windowStart : Q := windowEnd - getPeriod orbit * OrbitPeriodsShown.
Definition newWindowStart : Q := windowStart - getPeriod orbit * WindowSlack.
Definition newWindowEnd : Q := windowEnd + getPeriod orbit * WindowSlack.

(** The branch taken when the display window starts before the cached
    samples, lines 1699 to 1708. *)
Definition slideBackward (cachedOrbit : CurvePlot) : CurvePlot :=
  let currentWindowStart := startTime cachedOrbit in
  (* Remove samples at the end of the time window *)
  let p1 := removeSamplesAfter newWindowEnd cachedOrbit in
  (* Trim the first sample *)
  let p2 := removeSamplesBefore (startTime p1 * (1 + tiny)) p1 in
  (* Add the new samples *)
  insertBackward
    (sample orbit newWindowStart (fmin currentWindowStart newWindowEnd)) p2.

(** The branch taken when the display window ends after the cached
    samples, lines 1715 to 1724. *)
Definition slideForward (cachedOrbit : CurvePlot) : CurvePlot :=
  let currentWindowEnd := endTime cachedOrbit in
  (* Remove samples at the beginning of the time window *)
  let p1 := removeSamplesBefore newWindowStart cachedOrbit in
  (* Trim the last sample *)
  let p2 := removeSamplesAfter (endTime p1 * (1 - tiny)) p1 in
  (* Add the new samples *)
  insertForward
    (sample orbit (fmax currentWindowEnd newWindowStart) newWindowEnd) p2.

(** Lines 1686 to 1729. *)
Definition updateWindow (cachedOrbit : CurvePlot) : CurvePlot :=
  if isPeriodic orbit then
    if Qltb windowStart (startTime cachedOrbit) then slideBackward cachedOrbit
    else if Qgtb windowEnd (endTime cachedOrbit) then slideForward cachedOrbit
    else cachedOrbit
  else cachedOrbit.

(** The samples of a plot created on a cache miss, lines 1592 to 1632.
    ([nSamples] is computed by the source but not used afterwards.) *)
Definition firstSamples : list CurvePlotSample :=
  let startTime :=
    if isPeriodic orbit then now - getPeriod orbit
    else
      let '(begin, end_) := getValidRange orbit in
      if negb (Qeq_bool begin end_) then begin else now in
  sample orbit startTime (startTime + getPeriod orbit).

End Window.

(** The eviction scan, lines 1640 to 1649. *)
Definition retired (frame : Z) (entry : positive * CurvePlot) : Prop :=
  (OrbitCacheRetireAge < age frame (lastUsed entry.2))%Z.

#[local] Instance retired_dec frame entry : Decision (retired frame entry).
Proof. unfold retired. apply _. Defined.

Definition flushOldOrbits (r : Renderer) : Renderer :=
  mkRenderer (filter (fun entry => ¬ retired (frameCount r) entry) (orbitCache r))
             (frameCount r) (frameCount r)
             (orbitWindowEnd r) (orbitPeriodsShown r).

(** [orbitCache.size() > OrbitCacheCullThreshold] and
    [lastOrbitCacheFlush != frameCount]. *)
Definition flushDue (r : Renderer) : bool :=
  Nat.ltb OrbitCacheCullThreshold (size (orbitCache r))
  && negb (Z.eqb (lastOrbitCacheFlush r) (frameCount r)).

Section RenderOrbit.

(** The orbit object found at an address. *)
Variable orbitAt : positive -> Orbit.

(** The effect of [renderOrbit] on the renderer.  [prog] tells whether
    the shader was found; [orbit] is the address of the orbit of the
    path and [now] the simulation time. *)
Definition renderOrbit (prog : bool) (r : Renderer) (orbit : positive) (now : Q)
    : Renderer :=
  if negb prog then r
  else
    let '(cachedOrbit, r1) :=
      match orbitCache r !! orbit with
      | Some cached =>
          let cachedOrbit := setLastUsed (frameCount r) cached in
          (cachedOrbit, withCache r (<[orbit := cachedOrbit]> (orbitCache r)))
      | None =>
          let cachedOrbit :=
            insertForward (firstSamples (orbitAt orbit) now)
                          (mkPlot [] (frameCount r)) in
          let r' := if flushDue r then flushOldOrbits r else r in
          (cachedOrbit, withCache r' (<[orbit := cachedOrbit]> (orbitCache r')))
      end in
    if empty cachedOrbit then r1
    else
      withCache r1
        (<[orbit := updateWindow (orbitAt orbit) (orbitWindowEnd r)
                                 (orbitPeriodsShown r) now cachedOrbit]>
           (orbitCache r1)).

(** Whether a call runs the eviction scan. *)
Definition scans (prog : bool) (r : Renderer) (orbit : positive) : bool :=
  prog
  && match orbitCache r !! orbit with Some _ => false | None => true end
  && flushDue r.

(** The orbits rendered during one frame, in order, and the number of
    eviction scans that these calls run. *)
Fixpoint renderOrbits (r : Renderer) (calls : list (positive * Q)) : Renderer :=
  match calls with
  | (orbit, now) :: calls' => renderOrbits (renderOrbit true r orbit now) calls'
  | [] => r
  end.

Fixpoint countScans (r : Renderer) (calls : list (positive * Q)) : nat :=
  match calls with
  | (orbit, now) :: calls' =>
      ((if scans true r orbit then 1 else 0)
       + countScans (renderOrbit true r orbit now) calls')%nat
  | [] => 0%nat
  end.

End RenderOrbit.

(** *** Predicates on the cache, and scenarios *)

(** The renderer on which the new plot is inserted: the renderer of
    the call, after the eviction scan if the call runs it. *)
Definition scanned (prog : bool) (r : Renderer) (orbit : positive) : Renderer :=
  if scans prog r orbit then flushOldOrbits r else r.

(** All the entries have been used during the last 16 frames. *)
Definition AllFresh (r : Renderer) : Prop :=
  forall k cp, orbitCache r !! k = Some cp ->
               (age (frameCount r) (lastUsed cp) <= OrbitCacheRetireAge)%Z.

(** The plot is left alone when it has no samples, when the orbit is
    not periodic, or when the display window lies inside the cached
    window. *)
Definition settled (o : Orbit) (r : Renderer) (now : Q) (cached : CurvePlot) : Prop :=
  samples cached = []
  \/ isPeriodic o = false
  \/ (startTime cached <= windowStart o (orbitWindowEnd r) (orbitPeriodsShown r) now
      /\ windowEnd o (orbitWindowEnd r) now <= endTime cached).

(** A periodic orbit of period 100 along the x axis, sampled every 10
    time units from the start of the requested span. *)
Fixpoint uniformTimes (a b step : Q) (fuel : nat) : list Q :=
  match fuel with
  | O => []
  | S n => if Qle_bool a b then a :: uniformTimes (a + step) b step n else []
  end.

Definition sampleAt (x : Q) : CurvePlotSample :=
  mkSample x (mkVec x 0 0) (mkVec 1 0 0).

Definition testOrbit : Orbit :=
  mkOrbit true 100 (0, 0) (fun a b => map sampleAt (uniformTimes a b 10 64)).

(** 201 orbits at the addresses 1 to 201, all requested (at time 0) in
    one frame. *)
Definition requests (first count : nat) : list (positive * Q) :=
  map (fun n => (Pos.of_nat n, 0)) (seq first count).

Definition crowdedFrame : Renderer :=
  renderOrbits (fun _ => testOrbit) (beginFrame initialRenderer) (requests 1 201).

(** Nineteen frames later all the orbits but the first are requested
    again. *)
Definition laterFrame : Renderer :=
  renderOrbits (fun _ => testOrbit) (Nat.iter 19 beginFrame crowdedFrame)
               (requests 2 200).

(** The samples of the test orbit from -70 to 70. *)
Definition window70 : list CurvePlotSample :=
  map sampleAt (uniformTimes (- (70)) 70 10 64).

(** The renderer with the given fraction of the period shown. *)
Definition showing (periodsShown : Q) : Renderer :=
  mkRenderer ∅ 0 0 (1 # 2) periodsShown.

(** The scenario of the specification: period 100, window end 0.5, one
    period shown; a first query at time 0 and a second one at time 60. *)
Definition firstQuery : Renderer :=
  renderOrbit (fun _ => testOrbit) true initialRenderer 1%positive 0.

Definition secondQuery : Renderer :=
  renderOrbit (fun _ => testOrbit) true firstQuery 1%positive 60.

End Orbits.

(** ** Frustum culling of the render list ([Renderer::draw], lines 2966
    to 3112, without [USE_HDR]) *)

Module Culling.
Import Vec Depth Cull.

Definition MaxFarNearRatio : Q := 2000000.
Definition CoronaHeight : Q := 2 # 10.

Record Atmosphere := mkAtmosphere {
  height : Q;
  cloudHeight : Q;
  mieScaleHeight : Q
}.

(** What the culling loop reads of the body of a render-list entry. *)
Record BodyShape := mkBodyShape {
  getBoundingRadius : Q;
  ringsOuterRadius : option Q;       (* getRings()->outerRadius *)
  isEllipsoid : bool;
  getAtmosphere : option Atmosphere;
  minSemiAxis : Q                    (* getSemiAxes().minCoeff() *)
}.

(** [RenderListEntry::renderableType], with the object it refers to. *)
Inductive Renderable :=
| RenderableStar (starRadius : Q)
| RenderableBody (body : BodyShape)
| RenderableCometTail
| RenderableReferenceMark.

(** A render-list entry before culling: [item] holds [centerZ],
    [radius] and [discSizeInPixels]; its [nearZ] and [farZ] are set by
    the culling loop. *)
Record RenderItem := mkRenderItem {
  renderableType : Renderable;
  position : Vector3;
  item : RenderListEntry
}.

Section Cull.

(** Functions and values of other translation units: [Eigen]'s [norm],
    [sqrt], the rotation [viewMat.transpose() * v] into camera space,
    [frustum.testSphere], the value of [cos(degToRad(fov / 2))], the
    size of the window and the value of
    [-log(AtmosphereExtinctionThreshold)]. *)
Variable norm : Vector3 -> Q.
Variable sqrt : Q -> Q.
Variable toCamera : Vector3 -> Vector3.
Variable testSphere : Vector3 -> Q -> Aspect.
Variables cosHalfFov windowWidth windowHeight extinction : Q.

(** The switch on the renderable type: [radius], [cullRadius],
    [convex] and [cloudHeight]. *)
Definition shape (it : RenderItem) : Q * Q * bool * Q :=
  match renderableType it with
  | RenderableStar starRadius =>
      (starRadius, starRadius * (1 + CoronaHeight), true, 0)
  | RenderableCometTail => (radius (item it), radius (item it), false, 0)
  | RenderableBody body =>
      let '(radius, convex) :=
        match ringsOuterRadius body with
        | Some outer => (outer, false)
        | None => (getBoundingRadius body, true)
        end in
      let convex := if isEllipsoid body then convex else false in
      match getAtmosphere body with
      | Some atmosphere =>
          (radius, radius + height atmosphere, convex,
           fmax (cloudHeight atmosphere) (mieScaleHeight atmosphere * extinction))
      | None => (radius, radius, convex, 0)
      end
  | RenderableReferenceMark => (radius (item it), radius (item it), false, 0)
  end.

Definition isConvex (it : RenderItem) : bool := (shape it).1.2.

(** The near bound, clamped to the minimum near plane distance. *)
Definition clampedNearZ (center : Vector3) (radius : Q) : Q :=
  let maxSpan := sqrt (square windowWidth + square windowHeight) in
  let nearZ := - (norm center - radius) * cosHalfFov * (windowHeight / maxSpan) in
  if Qgtb nearZ (- MinNearPlaneDistance)
  then - fmax MinNearPlaneDistance (radius / 2000)
  else nearZ.

(** The adjustment of the near bound of an object that is not convex,
    in single precision:
    [if (farZ / nearZ > MaxFarNearRatio * 0.5f)
         nearZ = farZ / (MaxFarNearRatio * 0.5f);] *)
Definition adjustedNearZ (nearZ farZ : Q) : Q :=
  if Qgtb (Float.round32 (farZ / nearZ)) (Float.round32 (MaxFarNearRatio * (1 # 2)))
  then Float.round32 (farZ / Float.round32 (MaxFarNearRatio * (1 # 2)))
  else nearZ.

(** One iteration of the culling loop: the entry kept, with its near
    and far bounds, or nothing when the bounding sphere is outside the
    view frustum.  (For a body of radius zero the quotient
    [minSemiAxis / radius] is not a number in the source.) *)
Definition cullItem (it : RenderItem) : option RenderListEntry :=
  let center := toCamera (position it) in
  let '(radius, cullRadius, convex, cloudHeight) := shape it in
  if negb (Aspect_eqb (testSphere center cullRadius) Outside) then
    let nearZ := clampedNearZ center radius in
    if negb convex then
      let farZ := Float.round32 (vz center - radius) in
      let nearZ := adjustedNearZ nearZ farZ in
      Some (mkEntry (centerZ (item it)) (Depth.radius (item it)) nearZ farZ
                    (discSizeInPixels (item it)))
    else
      (* Make the far plane as close as possible *)
      let d := norm center in
      let eradius :=
        match renderableType it with
        | RenderableBody body => radius * (minSemiAxis body / radius)
        | _ => radius
        end in
      let farZ :=
        if Qgtb d eradius then centerZ (item it) - Depth.radius (item it)
        else nearZ * 2 in
      let farZ :=
        if Qgtb cloudHeight 0
        then farZ - sqrt (square (eradius + cloudHeight) - square eradius)
        else farZ in
      Some (mkEntry (centerZ (item it)) (Depth.radius (item it)) nearZ farZ
                    (discSizeInPixels (item it)))
  else None.

(** The loop compacts the kept entries at the front of the list, in
    order, and [resize] drops the rest. *)
Definition cull (renderList : list RenderItem) : list RenderListEntry :=
  omap cullItem renderList.

End Cull.

(** *** Scenes *)

(** A ring system seen from far away, and a reference mark close to the
    observer; distances are measured along the view axis. *)
Definition ringedPlanet : RenderItem :=
  mkRenderItem
    (RenderableBody (mkBodyShape 60000 (Some 140000) true None 54000))
    (mkVec 0 0 (- (1000000000000000)))
    (mkEntry (- (1000000000000000)) 60000 0 0 5).

Definition closeMark : RenderItem :=
  mkRenderItem RenderableReferenceMark (mkVec 0 0 (- (1 # 2)))
               (mkEntry (- (1 # 2)) 1 0 0 5).

(** A reference mark of radius 10530.75 whose bounding sphere passes
    1/32 in front of the observer; its far side is at 21061.53125. *)
Definition grazedMark : RenderItem :=
  mkRenderItem RenderableReferenceMark (mkVec 0 0 (- (336985 # 32)))
               (mkEntry (- (336985 # 32)) (42123 # 4) 0 0 5).

Definition depthNorm (v : Vector3) : Q := Qabs (vz v).

End Culling.

(** ** The passes over the depth intervals ([Renderer::draw], lines 3316
    to 3471) *)

Module Passes.
Import Vec Depth.

(** A render-list entry with its opacity flag. *)
Record DrawItem := mkDrawItem {
  entry : RenderListEntry;
  isOpaque : bool
}.

(** What is rendered for one interval: the opaque objects, the orbit
    paths, the transparent and sub-pixel objects, and the depth-sorted
    annotations, in this order. *)
Record IntervalPasses := mkPasses {
  p_interval : nat;
  opaquePass : list DrawItem;
  orbitPass : list OrbitPathListEntry;
  transparentPass : list DrawItem;
  annotationPass : list Annotation
}.

(** [while (i >= 0 && renderList[i].farZ < depthPartitions[interval].nearZ)]:
    the entries walked for an interval, from the index [i] downward, and
    the entries left for the next intervals.  [pending] lists the
    entries from index [i] down to index 0. *)
Fixpoint walked (nearZ : Q) (pending : list DrawItem) : list DrawItem :=
  match pending with
  | it :: pending' =>
      if Qltb (farZ (entry it)) nearZ then it :: walked nearZ pending' else []
  | [] => []
  end.

Fixpoint unwalked (nearZ : Q) (pending : list DrawItem) : list DrawItem :=
  match pending with
  | it :: pending' =>
      if Qltb (farZ (entry it)) nearZ then unwalked nearZ pending' else pending
  | [] => []
  end.

(** The items rendered by the first and by the second loop. *)
Definition inOpaquePass (it : DrawItem) : bool :=
  isOpaque it && Qgtb (discSizeInPixels (entry it)) 1.

Definition inTransparentPass (it : DrawItem) : bool :=
  negb (isOpaque it) || Qle_bool (discSizeInPixels (entry it)) 1.

(** The overlap test of an orbit path with the interval:
    [float nearZ = -orbit.centerZ - orbit.radius],
    [float farZ = -orbit.centerZ + orbit.radius]. *)
Definition orbitOverlaps (p : DepthBufferPartition) (o : OrbitPathListEntry) : bool :=
  let nearZ := Float.round32 (- o_centerZ o - o_radius o) in
  let farZ := Float.round32 (- o_centerZ o + o_radius o) in
  Qltb nearZ (farPlaneDistance p) && Qgtb farZ (nearPlaneDistance p).

(** [renderSortedAnnotations]: without a font nothing is rendered and
    the iterator is returned as it is; otherwise the annotations are
    rendered from the iterator on while they lie beyond [nearDist]. *)
Fixpoint annotationsBeyond (nearDist : Q) (annotations : list Annotation)
    : list Annotation :=
  match annotations with
  | a :: annotations' =>
      if Qgtb (position_z a) nearDist then a :: annotationsBeyond nearDist annotations'
      else []
  | [] => []
  end.

Fixpoint annotationsLeft (nearDist : Q) (annotations : list Annotation)
    : list Annotation :=
  match annotations with
  | a :: annotations' =>
      if Qgtb (position_z a) nearDist then annotationsLeft nearDist annotations'
      else annotations
  | [] => []
  end.

Definition renderSortedAnnotations (font : bool) (annotations : list Annotation)
    (nearDist : Q) : list Annotation * list Annotation :=
  if font then (annotationsBeyond nearDist annotations,
                annotationsLeft nearDist annotations)
  else ([], annotations).

(** The normalized device depth of an annotation, in single precision:
    [d1 = -(farDist + nearDist) / (farDist - nearDist)],
    [d2 = -2.0f * nearDist * farDist / (farDist - nearDist)] and
    [min(1.0f, max(-1.0f, d1 + d2 / -z))]. *)
Definition depthSpan (nearDist farDist : Q) : Q := Float.round32 (farDist - nearDist).

Definition depthOffset (nearDist farDist : Q) : Q :=
  Float.round32 (- Float.round32 (farDist + nearDist) / depthSpan nearDist farDist).

Definition depthScale (nearDist farDist : Q) : Q :=
  Float.round32
    (Float.round32 (Float.round32 (- (2) * nearDist) * farDist)
     / depthSpan nearDist farDist).

Definition annotationDepth (nearDist farDist z : Q) : Q :=
  let d1 := depthOffset nearDist farDist in
  let d2 := depthScale nearDist farDist in
  let ndc_z := Float.round32 (d1 + Float.round32 (d2 / - z)) in
  fmin 1 (fmax (- (1)) ndc_z).

(** The loop over the intervals.  [interval] is the index of the first
    partition of [parts]; the result lists the passes of each interval
    and the entries and annotations that no interval has rendered. *)
Fixpoint drawIntervals (font : bool) (orbitPathList : list OrbitPathListEntry)
    (parts : list DepthBufferPartition) (interval : nat)
    (pending : list DrawItem) (annotations : list Annotation)
    : list IntervalPasses * (list DrawItem * list Annotation) :=
  match parts with
  | p :: parts' =>
      let items := walked (p_nearZ p) pending in
      let '(shown, annotations') :=
        renderSortedAnnotations font annotations (nearPlaneDistance p) in
      let passes :=
        mkPasses interval
                 (List.filter inOpaquePass items)
                 (List.filter (orbitOverlaps p) orbitPathList)
                 (List.filter inTransparentPass items)
                 shown in
      let '(rest, remaining) :=
        drawIntervals font orbitPathList parts' (S interval)
                      (unwalked (p_nearZ p) pending) annotations' in
      (passes :: rest, remaining)
  | [] => ([], (pending, annotations))
  end.

(** The partitioning and the passes of one frame, for a sorted render
    list, sorted orbit paths and sorted annotations. *)
Definition drawPasses (font : bool) (renderList : list DrawItem)
    (orbitPathList : list OrbitPathListEntry) (annotations : list Annotation)
    : list IntervalPasses * (list DrawItem * list Annotation) :=
  drawIntervals font orbitPathList
                (partition (map entry renderList) orbitPathList annotations)
                0 (rev renderList) annotations.

(** The entries rendered for the interval, in either pass. *)
Definition rendered (passes : IntervalPasses) : list DrawItem :=
  opaquePass passes ++ transparentPass passes.

(** *** Predicates on render lists and partitions *)

(** [renderList[i].discSizeInPixels > 1]: the entry occupies more than
    one pixel. *)
Definition isLarge (e : RenderListEntry) : bool := Qgtb (discSizeInPixels e) 1.

(** The partition [p] contains the depth extent of the entry [e]. *)
Definition Contains (p : DepthBufferPartition) (e : RenderListEntry) : Prop :=
  p_farZ p <= farZ e /\ nearZ e <= p_nearZ p.

Definition Covered (l : list DepthBufferPartition) (e : RenderListEntry) : Prop :=
  exists k p, l !! k = Some p /\ Contains p e.

(** The pending entries, from the back of the render list to its
    front, have increasing far bounds. *)
Definition Ascending (pending : list DrawItem) : Prop :=
  StronglySorted (fun a b => farZ (entry a) <= farZ (entry b)) pending.

(** The render list is ordered front to back by far bound.  ([draw]
    sorts the list with [operator<], that is by [centerZ - radius],
    which is the far bound of the entries whose far plane the culling
    loop sets at line 3079.) *)
Definition SortedByFarZ (renderList : list DrawItem) : Prop :=
  StronglySorted (fun a b => farZ (entry b) <= farZ (entry a)) renderList.

(** The far edge of an orbit path, [centerZ - radius] in single
    precision, and its near edge, [centerZ + radius]. *)
Definition farEdge (o : OrbitPathListEntry) : Q := Float.round32 (o_centerZ o - o_radius o).
Definition nearEdge (o : OrbitPathListEntry) : Q := Float.round32 (o_centerZ o + o_radius o).

(** The orbit paths in the order of [operator<], which sorts them by
    decreasing [centerZ - radius]: the last one reaches farthest. *)
Definition SortedOrbits (orbitPathList : list OrbitPathListEntry) : Prop :=
  StronglySorted (fun a b => farEdge b <= farEdge a) orbitPathList.

(** *** Scenes *)

Definition threeItems : list DrawItem :=
  map (fun e => mkDrawItem e true) threeBodies.

End Passes.

(** ** The view-cone test of [Renderer::buildRenderLists] (lines 5700
    to 5750) *)

Module ViewCone.
Import Vec Cull.

(** What the test reads of the body of the loop iteration. *)
Record ConeBody := mkConeBody {
  getCullingRadius : Q;
  getBoundingRadius : Q;
  getRadius : Q;
  isSecondaryIlluminator : bool
}.

(** The radius of the sphere within which the body may light other
    objects, line 5708. *)
Definition influenceRadius (body : ConeBody) : Q :=
  getBoundingRadius body + getRadius body * PLANETSHINE_DISTANCE_LIMIT_FACTOR.

(** The value of [viewConeTestFailed] when line 5741 tests it. *)
Definition viewConeTestFailed (c : CullContext) (body : ConeBody) : bool :=
  if isSecondaryIlluminator body then
    if Qgtb (dist_vn c) (- influenceRadius body) then
      let maxPerpDist :=
        (influenceRadius body + dist_vn c * sinViewAngle c) * invCosViewAngle c in
      let perpDistSq := squaredNorm (toViewNormal c) in
      if Qltb perpDistSq (maxPerpDist * maxPerpDist) then false
      else Qgtb (influenceRadius body) (getCullingRadius body)
    else Qgtb (influenceRadius body) (getCullingRadius body)
  else false.

(** The value of [insideViewCone] when line 5752 tests it. *)
Definition insideViewCone (c : CullContext) (body : ConeBody) : bool :=
  if negb (viewConeTestFailed c body) then
    let radius := getCullingRadius body in
    if Qgtb (dist_vn c) (- radius) then
      let maxPerpDist := (radius + dist_vn c * sinViewAngle c) * invCosViewAngle c in
      let perpDistSq := squaredNorm (toViewNormal c) in
      Qltb perpDistSq (maxPerpDist * maxPerpDist)
    else false
  else false.

(** The test of a sphere of the given radius, centred on the body,
    against the view cone. *)
Definition sphereInViewCone (c : CullContext) (radius : Q) : bool :=
  Qgtb (dist_vn c) (- radius)
  && Qltb (squaredNorm (toViewNormal c))
          (square ((radius + dist_vn c * sinViewAngle c) * invCosViewAngle c)).

(** *** Scenes *)

(** A reflecting moon of radius 1 beside the view axis, and the view
    cone of half angle 30 degrees (with sine 1/2 and inverse cosine
    close to 1.1547). *)
Definition smallMoon : ConeBody := mkConeBody 1 1 1 true.

Definition besideAxis : CullContext :=
  mkCullContext [] 6 (1 # 1000) (1 # 2) (11547 # 10000)
                (mkVec 1000 0 (- (10))) 10 (mkVec 1000 0 0).

End ViewCone.

(** ** Orbit paths ([sizeFade] and [Renderer::buildOrbitLists]) *)

Module OrbitLists.
Import Vec Cull.

(** Fade function for objects that should not be shown when they are
    too small on screen. *)
Definition sizeFade (screenSize minScreenSize opaqueScale : Q) : Q :=
  fmin 1 ((screenSize - minScreenSize) / (minScreenSize * (opaqueScale - 1))).

(** [Body::VisibilityPolicy]; [buildOrbitLists] names the first two
    values. *)
Inductive VisibilityPolicy := AlwaysVisible | UseClassVisibility | NeverVisible.

Definition VisibilityPolicy_eqb (a b : VisibilityPolicy) : bool :=
  match a, b with
  | AlwaysVisible, AlwaysVisible | UseClassVisibility, UseClassVisibility
  | NeverVisible, NeverVisible => true
  | _, _ => false
  end.

(** What [buildOrbitLists] reads of a body and of its orbit. *)
Record OrbitBody := mkOrbitBody {
  isVisible : bool;
  isHighlighted : bool;               (* body == highlightObject.body() *)
  getOrbitVisibility : VisibilityPolicy;
  getOrbitClassification : Z;
  orbitBoundingRadius : Q;            (* getOrbit(now)->getBoundingRadius() *)
  relOrigin : Vector3                 (* orbitOrigin - astrocentricObserverPos *)
}.

(** [OrbitPathListEntry], with the fields that [buildOrbitLists] sets
    from numbers. *)
Record OrbitPath := mkOrbitPathEntry {
  path_centerZ : Q;
  path_radius : Q;
  path_origin : Vector3;
  path_opacity : Q
}.

Section Lists.

(** [Eigen]'s [norm], [frustum.testSphere], and the renderer's
    [viewMatZ], [pixelSize], [minOrbitSize] and [orbitMask]. *)
Variable norm : Vector3 -> Q.
Variable testSphere : Vector3 -> Q -> Aspect.
Variable viewMatZ : Vector3.
Variables pixelSize minOrbitSize : Q.
Variable orbitMask : Z.

(** Only show orbits for major bodies or selected objects. *)
Definition showsOrbit (body : OrbitBody) : bool :=
  isVisible body
  && (isHighlighted body
      || VisibilityPolicy_eqb (getOrbitVisibility body) AlwaysVisible
      || (VisibilityPolicy_eqb (getOrbitVisibility body) UseClassVisibility
          && negb (Z.eqb (Z.land (getOrbitClassification body) orbitMask) 0))).

Definition orbitRadiusInPixels (body : OrbitBody) (pos_v : Vector3) : Q :=
  orbitBoundingRadius body / (norm pos_v * pixelSize).

(** The entry that the loop iteration of a body at [pos_v] appends to
    [orbitPathList], if any. *)
Definition orbitPath (body : OrbitBody) (pos_v : Vector3) : option OrbitPath :=
  if showsOrbit body then
    if Qgtb (orbitRadiusInPixels body pos_v) minOrbitSize then
      Some (mkOrbitPathEntry (dot (relOrigin body) viewMatZ)
                             (orbitBoundingRadius body)
                             (relOrigin body)
                             (sizeFade (orbitRadiusInPixels body pos_v) minOrbitSize 2))
    else None
  else None.


End Lists.

(** *** Scenes *)

(** A planet whose orbit, of radius 30000, is seen from a distance of
    1000 with pixels of size 1/1000. *)
Definition outerPlanet : OrbitBody :=
  mkOrbitBody true false AlwaysVisible 1 30000 (mkVec 0 0 (- (1000))).

Definition depthOf (v : Vector3) : Q := Qabs (vz v).

End OrbitLists.

(** ** The vertex buffer of point stars ([PointStarVertexBuffer]) *)

Module StarBuffer.
Import Vec.

Section Buffer.

(** [Color] and the four bytes that [Color::get] stores. *)
Variables Color Bytes : Type.
Variable get : Color -> Bytes.

Record StarVertex := mkStarVertex {
  sv_position : Vector3;
  sv_size : Q;
  sv_color : Bytes
}.

(** The buffer: [vertices] is the array of [capacity] vertices, and
    [drawn] lists the vertex ranges handed to [glDrawArrays], the
    earliest first. *)
Record PointStarVertexBuffer := mkBuffer {
  capacity : nat;
  nStars : nat;
  vertices : list StarVertex;
  drawn : list (list StarVertex)
}.

(** The constructor; [content] stands for the uninitialised content
    of a vertex of the new array. *)
Definition newBuffer (capacity : nat) (content : StarVertex)
    : PointStarVertexBuffer :=
  mkBuffer capacity 0 (replicate capacity content) [].

Definition render (b : PointStarVertexBuffer) : PointStarVertexBuffer :=
  if negb (Nat.eqb (nStars b) 0) then
    mkBuffer (capacity b) 0 (vertices b)
             (drawn b ++ [take (nStars b) (vertices b)])
  else b.

Definition finish (b : PointStarVertexBuffer) : PointStarVertexBuffer :=
  render b.

Definition addStar (pos : Vector3) (color : Color) (size : Q)
    (b : PointStarVertexBuffer) : PointStarVertexBuffer :=
  let b1 :=
    if Nat.ltb (nStars b) (capacity b) then
      mkBuffer (capacity b) (S (nStars b))
               (<[nStars b := mkStarVertex pos size (get color)]> (vertices b))
               (drawn b)
    else b in
  if Nat.eqb (nStars b1) (capacity b1) then
    let b2 := render b1 in
    mkBuffer (capacity b2) 0 (vertices b2) (drawn b2)
  else b1.

(** The stars of a frame, added one after the other. *)
Definition addStars (stars : list (Vector3 * Color * Q))
    (b : PointStarVertexBuffer) : PointStarVertexBuffer :=
  fold_left (fun b '(pos, color, size) => addStar pos color size b) stars b.

Definition vertexOf (star : Vector3 * Color * Q) : StarVertex :=
  let '(pos, color, size) := star in mkStarVertex pos size (get color).

End Buffer.

Arguments mkStarVertex {Bytes} _ _ _.
Arguments sv_position {Bytes} _.
Arguments sv_size {Bytes} _.
Arguments sv_color {Bytes} _.
Arguments mkBuffer {Bytes} _ _ _ _.
Arguments capacity {Bytes} _.
Arguments nStars {Bytes} _.
Arguments vertices {Bytes} _.
Arguments drawn {Bytes} _.
Arguments newBuffer {Bytes} _ _.
Arguments render {Bytes} _.
Arguments finish {Bytes} _.
Arguments addStar {Color Bytes} _ _ _ _ _.
Arguments addStars {Color Bytes} _ _ _.
Arguments vertexOf {Color Bytes} _ _.

(** The state of a buffer of positive capacity between two calls: the
    array is full size, it is never full of stars, and the stars drawn
    so far followed by the stars waiting in the array are the stars
    added so far. *)
Definition Buffered {Bytes : Type} (cap : nat) (added : list (StarVertex Bytes))
    (b : PointStarVertexBuffer Bytes) : Prop :=
  capacity b = cap
  /\ length (vertices b) = cap
  /\ (nStars b < cap)%nat
  /\ concat (drawn b) ++ take (nStars b) (vertices b) = added
  /\ Forall (fun batch => (0 < length batch <= cap)%nat) (drawn b).

(** *** Scenes *)

(** Three stars on the x axis, with their colours given as one number. *)
Definition threeStars : list (Vector3 * Q * Q) :=
  [ (mkVec 1 0 0, 1, 1); (mkVec 2 0 0, 1, 1); (mkVec 3 0 0, 1, 1) ].

End StarBuffer.

(** ** The eclipse tests of a planet ([Renderer::renderPlanet], lines
    4984 to 4998) *)

Module EclipseScenes.
Import Vec Eclipse.

Section Satellites.

Variable norm : Vector3 -> Q.
Variable normalized : Vector3 -> Vector3.
Variable distance : Vector3 -> Vector3 -> Vector3 -> Q.
Variable dot : Vector3 -> Vector3 -> Q.

(** The loop over the satellites of a planet, for the light [li]:
    [testEclipse(body, *satellites->getBody(i), lights, li, now)] for
    each satellite in turn. *)
Definition testSatellites (body : Body) (satellites : list Body)
    (lights : LightingState) (li : nat) (now : Q) : LightingState :=
  fold_left
    (fun lights satellite =>
       (testEclipse norm normalized distance dot body satellite lights li now).2)
    satellites lights.

End Satellites.

(** *** Scenes *)

(** The sun of the scene on the x axis, of small apparent size: the
    moon covers it as seen from the planet. *)
Definition distantSun : DirectionalLight := mkLight (mkVec (- (110)) 0 0) (1 # 128).

Definition distantSunOnly : LightingState :=
  mkLighting (fun _ => distantSun) (fun _ => [])
             (fun _ => mkRingShadow zero zero None identity).

End EclipseScenes.

(** ** Scenes for the orbit cache *)

Module OrbitScenes.
Import Vec Orbits.

(** The trajectory of a probe: aperiodic, valid from 0 to 300, sampled
    every 10 time units. *)
Definition probe : Orbit :=
  mkOrbit false 100 (0, 300) (fun a b => map sampleAt (uniformTimes a b 10 64)).

(** The probe requested at time 50. *)
Definition probeQuery : Renderer :=
  renderOrbit (fun _ => probe) true initialRenderer 1%positive 50.

(** The scenario of [firstQuery], followed by a query at an earlier
    time. *)
Definition earlierQuery : Renderer :=
  renderOrbit (fun _ => testOrbit) true firstQuery 1%positive (- (60)).

End OrbitScenes.

(** ** Light sources ([setupLightSources]) *)

Module Lights.
Import Vec.

Record Color := mkColor { red : Q; green : Q; blue : Q }.

(** What [setupLightSources] reads of a star; [offsetFromObserver] is
    [star->getPosition(t).offsetFromKm(observerPos)]. *)
Record Star := mkStar {
  getVisibility : bool;
  offsetFromObserver : Vector3;
  getLuminosity : Q;
  getRadius : Q;
  getTemperature : Q
}.

Record LightSource := mkLightSource {
  position : Vector3;
  luminosity : Q;
  radius : Q;
  color : Color
}.

(** The colour of the light of a star of temperature [temp]; [tinted]
    is [renderFlags & Renderer::ShowTintedIllumination]. *)
Definition lightColor (tinted : bool) (temp : Q) : Color :=
  if tinted then
    if Qgtb temp 30000 then mkColor (8 # 10) (8 # 10) 1
    else if Qgtb temp 10000 then mkColor (9 # 10) (9 # 10) 1
    else if Qgtb temp 5400 then mkColor 1 1 1
    else if Qgtb temp 3900 then mkColor 1 (9 # 10) (8 # 10)
    else if Qgtb temp 2000 then mkColor 1 (7 # 10) (7 # 10)
    else mkColor 1 (4 # 10) (4 # 10)
  else mkColor 1 1 1.

(** The vector [lightSources] after the call, which clears it first. *)
Definition setupLightSources (nearStars : list Star) (tinted : bool)
    : list LightSource :=
  fold_left
    (fun lightSources star =>
       if getVisibility star then
         lightSources
         ++ [mkLightSource (offsetFromObserver star) (getLuminosity star)
                           (getRadius star)
                           (lightColor tinted (getTemperature star))]
       else lightSources)
    nearStars [].

End Lights.

(** ** The watchers of the renderer ([Renderer::addWatcher],
    [Renderer::removeWatcher]) *)

Module Watchers.

(** A watcher is identified by its address. *)
Definition addWatcher (watcher : positive) (watchers : list positive)
    : list positive :=
  watchers ++ [watcher].

(** [std::find] and [erase]: the first occurrence is removed. *)
Fixpoint removeWatcher (watcher : positive) (watchers : list positive)
    : list positive :=
  match watchers with
  | w :: watchers' =>
      if Pos.eqb w watcher then watchers' else w :: removeWatcher watcher watchers'
  | [] => []
  end.

(** [notifyWatchers]: the watchers notified, in order. *)
Definition notifyWatchers (watchers : list positive) : list positive := watchers.

End Watchers.

(** ** Object annotations ([Renderer::addAnnotation],
    [beginObjectAnnotations], [addObjectAnnotation],
    [endObjectAnnotations]) *)

Module ObjectAnnotations.
Import Vec.

Section Annotations.

(** The types of the label text, of colours, of marker representations
    and of the alignments; the empty text of a new annotation; the
    centred alignments and the default size that [addObjectAnnotation]
    passes ([special], which it leaves out as well, is false for it:
    [addSortedAnnotation] is the caller that sets it); [Project] with
    the matrices and the viewport of the renderer, and the third row of
    [modelMatrix]. *)
Variables Text Color MarkerRep HAlign VAlign : Type.
Variable noText : Text.
Variable AlignCenter : HAlign.
Variable VerticalAlignCenter : VAlign.
Variable defaultSize : Q.
Variable Project : Vector3 -> option Vector3.
Variable modelMatrixRow2 : Vector3.

Record Annotation := mkObjectAnnotation {
  labelText : Text;
  markerRep : option MarkerRep;
  color : Color;
  position : Vector3;
  halign : HAlign;
  valign : VAlign;
  size : Q
}.

Definition addAnnotation (annotations : list Annotation)
    (markerRep : option MarkerRep) (labelText : Text) (color : Color)
    (pos : Vector3) (halign : HAlign) (valign : VAlign) (size : Q)
    (special : bool) : list Annotation :=
  match Project pos with
  | Some win =>
      let depth :=
        vx pos * vx modelMatrixRow2 + vy pos * vy modelMatrixRow2
        + vz pos * vz modelMatrixRow2 in
      let win := mkVec (vx win) (vy win) (- depth) in
      let text :=
        if negb special || match markerRep with None => true | Some _ => false end
        then labelText else noText in
      annotations
      ++ [mkObjectAnnotation text markerRep color win halign valign size]
  | None => annotations
  end.

(** The object annotations of the renderer; [renderedSets] lists the
    sets handed to [renderAnnotations], the earliest first. *)
Record AnnotationState := mkAnnotationState {
  objectAnnotations : list Annotation;
  objectAnnotationSetOpen : bool;
  renderedSets : list (list Annotation)
}.

(** The conditions that [beginObjectAnnotations] asserts. *)
Definition MayBegin (s : AnnotationState) : Prop :=
  objectAnnotationSetOpen s = false /\ objectAnnotations s = [].

Definition beginObjectAnnotations (s : AnnotationState) : AnnotationState :=
  mkAnnotationState [] true (renderedSets s).

Definition endObjectAnnotations (s : AnnotationState) : AnnotationState :=
  match objectAnnotations s with
  | [] => mkAnnotationState (objectAnnotations s) false (renderedSets s)
  | _ => mkAnnotationState [] false (renderedSets s ++ [objectAnnotations s])
  end.

Definition addObjectAnnotation (markerRep : option MarkerRep) (labelText : Text)
    (color : Color) (pos : Vector3) (s : AnnotationState) : AnnotationState :=
  if objectAnnotationSetOpen s then
    mkAnnotationState
      (addAnnotation (objectAnnotations s) markerRep labelText color pos
                     AlignCenter VerticalAlignCenter defaultSize false)
      (objectAnnotationSetOpen s) (renderedSets s)
  else s.

(** The annotations requested while an object is rendered. *)
Definition addObjectAnnotations
    (requests : list (option MarkerRep * Text * Color * Vector3))
    (s : AnnotationState) : AnnotationState :=
  fold_left
    (fun s '(markerRep, labelText, color, pos) =>
       addObjectAnnotation markerRep labelText color pos s)
    requests s.

(** The annotation of a request, when the projection of its position
    succeeds. *)
Definition annotationOf (request : option MarkerRep * Text * Color * Vector3)
    : list Annotation :=
  let '(markerRep, labelText, color, pos) := request in
  addAnnotation [] markerRep labelText color pos
                AlignCenter VerticalAlignCenter defaultSize false.

End Annotations.

Arguments mkObjectAnnotation {Text Color MarkerRep HAlign VAlign} _ _ _ _ _ _ _.
Arguments labelText {Text Color MarkerRep HAlign VAlign} _.
Arguments markerRep {Text Color MarkerRep HAlign VAlign} _.
Arguments color {Text Color MarkerRep HAlign VAlign} _.
Arguments position {Text Color MarkerRep HAlign VAlign} _.
Arguments halign {Text Color MarkerRep HAlign VAlign} _.
Arguments valign {Text Color MarkerRep HAlign VAlign} _.
Arguments size {Text Color MarkerRep HAlign VAlign} _.
Arguments addAnnotation {Text Color MarkerRep HAlign VAlign} _ _ _ _ _ _ _ _ _ _ _ _.
Arguments mkAnnotationState {Text Color MarkerRep HAlign VAlign} _ _ _.
Arguments objectAnnotations {Text Color MarkerRep HAlign VAlign} _.
Arguments objectAnnotationSetOpen {Text Color MarkerRep HAlign VAlign} _.
Arguments renderedSets {Text Color MarkerRep HAlign VAlign} _.
Arguments MayBegin {Text Color MarkerRep HAlign VAlign} _.
Arguments beginObjectAnnotations {Text Color MarkerRep HAlign VAlign} _.
Arguments endObjectAnnotations {Text Color MarkerRep HAlign VAlign} _.
Arguments addObjectAnnotation {Text Color MarkerRep HAlign VAlign} _ _ _ _ _ _ _ _ _ _ _.
Arguments addObjectAnnotations {Text Color MarkerRep HAlign VAlign} _ _ _ _ _ _ _ _.
Arguments annotationOf {Text Color MarkerRep HAlign VAlign} _ _ _ _ _ _ _.

End ObjectAnnotations.

(** ** The comparison operators of the sorted lists (lines 897 to 920) *)

Module Ordering.
Import Depth.

(** [operator<] on render-list entries, on annotations and on orbit
    paths.  The operation is reversed because the -z axis points into
    the screen. *)
Definition entry_lt (a b : RenderListEntry) : bool :=
  Qgtb (centerZ a - radius a) (centerZ b - radius b).

Definition annotation_lt (a b : Annotation) : bool :=
  Qgtb (position_z a) (position_z b).

Definition orbit_lt (a b : OrbitPathListEntry) : bool :=
  Qgtb (o_centerZ a - o_radius a) (o_centerZ b - o_radius b).

(** The requirements of [std::sort] on its comparison: a strict weak
    ordering. *)
Record StrictWeakOrder {A : Type} (lt : A -> A -> bool) : Prop := {
  swo_irreflexive : forall a, lt a a = false;
  swo_asymmetric : forall a b, lt a b = true -> lt b a = false;
  swo_transitive : forall a b c, lt a b = true -> lt b c = true -> lt a c = true;
  swo_equivalence :
    forall a b c, lt a b = false -> lt b a = false ->
                  lt b c = false -> lt c b = false ->
                  lt a c = false /\ lt c a = false
}.

End Ordering.

(** ** The entries of a body ([Renderer::addRenderListEntries]) *)

Module RenderEntries.
Import Vec.

Inductive RenderableType :=
| RenderableStar | RenderableBody | RenderableCometTail | RenderableReferenceMark.

Record ReferenceMark := mkReferenceMark {
  rm_isOpaque : bool;
  boundingSphereRadius : Q
}.

(** The geometry of a body: [InvalidResource], a resource that the
    geometry manager does not find, or a geometry with its opacity. *)
Inductive GeometryResource :=
| InvalidResource
| MissingGeometry
| FoundGeometry (opaque : bool).

Definition isInvalidResource (g : GeometryResource) : bool :=
  match g with InvalidResource => true | _ => false end.

(** What [addRenderListEntries] reads of a body. *)
Record EntryBody := mkEntryBody {
  isVisibleAsPoint : bool;
  getGeometry : GeometryResource;
  getRadius : Q;
  isComet : bool;       (* getClassification() == Body::Comet *)
  getReferenceMarks : option (list ReferenceMark)
}.

(** [RenderListEntry], with the fields that the function reads or
    writes; [renderableType] and [refMark] are unset in the entry that
    [buildRenderLists] hands over. *)
Record RenderListEntry := mkListEntry {
  renderableType : option RenderableType;
  refMark : option ReferenceMark;
  isOpaque : bool;
  radius : Q;
  discSizeInPixels : Q;
  appMag : Q;
  distance : Q;
  sun : Vector3
}.

(** [(1.0e8f / distanceToSun) * (radius / 5.0f) * 1.0e7f], in single
    precision. *)
Definition cometDustTailLength (distanceToSun radius : Q) : Q :=
  Float.round32
    (Float.round32 (Float.round32 (100000000 / distanceToSun)
                    * Float.round32 (radius / 5))
     * 10000000).

Section Entries.

(** [Eigen]'s [norm], and the renderer's [faintestPlanetMag],
    [pixelSize] and [renderFlags & ShowCometTails]. *)
Variable norm : Vector3 -> Q.
Variables faintestPlanetMag pixelSize : Q.
Variable showCometTails : bool.

(** The entry [rle], which the function updates as it goes, and the
    render list. *)
Definition State : Type := RenderListEntry * list RenderListEntry.

Definition addBodyEntry (body : EntryBody) (isLabeled : bool) (st : State) : State :=
  let '(rle, renderList) := st in
  let visibleAsPoint := Qltb (appMag rle) faintestPlanetMag && isVisibleAsPoint body in
  if Qgtb (discSizeInPixels rle) 1 || visibleAsPoint || isLabeled then
    let opaque :=
      if negb (isInvalidResource (getGeometry body))
         && Qgtb (discSizeInPixels rle) 1
      then
        match getGeometry body with
        | FoundGeometry opaque => opaque
        | _ => true                      (* geometry == nullptr *)
        end
      else true in
    let rle :=
      mkListEntry (Some RenderableBody) (refMark rle) opaque (getRadius body)
                  (discSizeInPixels rle) (appMag rle) (distance rle) (sun rle) in
    (rle, renderList ++ [rle])
  else st.

(** The size on screen of the dust tail of the body,
    [(radius / (float) rle.distance) / pixelSize] in single
    precision. *)
Definition tailDiscSize (rle : RenderListEntry) (body : EntryBody) : Q :=
  Float.round32
    (Float.round32 (cometDustTailLength (norm (sun rle)) (getRadius body)
                    / Float.round32 (distance rle))
     / pixelSize).

Definition addCometTailEntry (body : EntryBody) (st : State) : State :=
  let '(rle, renderList) := st in
  if isComet body && showCometTails then
    let radius := cometDustTailLength (norm (sun rle)) (getRadius body) in
    let discSize := tailDiscSize rle body in
    if Qgtb discSize 1 then
      let rle :=
        mkListEntry (Some RenderableCometTail) (refMark rle) false radius discSize
                    (appMag rle) (distance rle) (sun rle) in
      (rle, renderList ++ [rle])
    else st
  else st.

Definition addReferenceMarkEntries (body : EntryBody) (st : State) : State :=
  match getReferenceMarks body with
  | Some refMarks =>
      fold_left
        (fun '(rle, renderList) rm =>
           let rle :=
             mkListEntry (Some RenderableReferenceMark) (Some rm) (rm_isOpaque rm)
                         (boundingSphereRadius rm) (discSizeInPixels rle)
                         (appMag rle) (distance rle) (sun rle) in
           (rle, renderList ++ [rle]))
        refMarks st
  | None => st
  end.

Definition addRenderListEntries (rle : RenderListEntry) (body : EntryBody)
    (isLabeled : bool) (renderList : list RenderListEntry) : State :=
  addReferenceMarkEntries body
    (addCometTailEntry body (addBodyEntry body isLabeled (rle, renderList))).

(** Whether the call appends an entry for the dust tail. *)
Definition addsCometTail (rle : RenderListEntry) (body : EntryBody) : bool :=
  isComet body && showCometTails && Qgtb (tailDiscSize rle body) 1.

End Entries.

(** *** Scenes *)

(** A comet of radius 5 with one reference mark, at the distance 10^8
    from its sun and 1000 from the observer; the entry handed over has
    a disc size of 2 pixels. *)
Definition comet : EntryBody :=
  mkEntryBody true MissingGeometry 5 true (Some [mkReferenceMark false 10]).

Definition cometEntry : RenderListEntry :=
  mkListEntry None None true 0 2 4 1000 (mkVec 100000000 0 0).

Definition axisLength (v : Vector3) : Q := Qabs (vx v) + Qabs (vy v) + Qabs (vz v).

End RenderEntries.

(** * Properties *)

(** ** Comparisons *)

Lemma Qltb_lt (a b : Q) : Qltb a b = true <-> a < b.
Proof.
  unfold Qltb. rewrite negb_true_iff.
  destruct (Qle_bool b a) eqn:E.
  - apply Qle_bool_iff in E. split; [discriminate | intros H; lra].
  - split; [intros _ | reflexivity].
    destruct (Qlt_le_dec a b) as [H | H]; [exact H |].
    apply Qle_bool_iff in H. congruence.
Qed.

Lemma Qltb_ge (a b : Q) : Qltb a b = false <-> b <= a.
Proof.
  unfold Qltb. rewrite negb_false_iff. apply Qle_bool_iff.
Qed.

Lemma Qgeb_ge (a b : Q) : Qgeb a b = true <-> b <= a.
Proof. apply Qle_bool_iff. Qed.

Lemma Qgeb_lt (a b : Q) : Qgeb a b = false <-> a < b.
Proof.
  unfold Qgeb. rewrite <- (Qltb_lt a b). unfold Qltb.
  destruct (Qle_bool b a); simpl; split; congruence.
Qed.

Lemma fmax_cases (a b : Q) :
  (a < b /\ fmax a b = b) \/ (b <= a /\ fmax a b = a).
Proof.
  unfold fmax. destruct (Qltb a b) eqn:E.
  - left. split; [by apply Qltb_lt | reflexivity].
  - right. split; [by apply Qltb_ge | reflexivity].
Qed.

Lemma fmin_cases (a b : Q) :
  (b < a /\ fmin a b = b) \/ (a <= b /\ fmin a b = a).
Proof.
  unfold fmin. destruct (Qltb b a) eqn:E.
  - left. split; [by apply Qltb_lt | reflexivity].
  - right. split; [by apply Qltb_ge | reflexivity].
Qed.

Lemma fmax_ge_l (a b : Q) : a <= fmax a b.
Proof. destruct (fmax_cases a b) as [[? ->] | [? ->]]; lra. Qed.

Lemma fmax_ge_r (a b : Q) : b <= fmax a b.
Proof. destruct (fmax_cases a b) as [[? ->] | [? ->]]; lra. Qed.

Lemma fmin_le_l (a b : Q) : fmin a b <= a.
Proof. destruct (fmin_cases a b) as [[? ->] | [? ->]]; lra. Qed.

Lemma fmin_le_r (a b : Q) : fmin a b <= b.
Proof. destruct (fmin_cases a b) as [[? ->] | [? ->]]; lra. Qed.

Lemma Qgtb_gt (a b : Q) : Qgtb a b = true <-> b < a.
Proof. apply Qltb_lt. Qed.

Lemma Qgtb_le (a b : Q) : Qgtb a b = false <-> a <= b.
Proof. apply Qltb_ge. Qed.

(** ** Rounding *)

Module FloatFacts.
Import Float.

Lemma roundHalfEven_comp x y : x == y -> roundHalfEven x = roundHalfEven y.
Proof.
  intros H. unfold roundHalfEven.
  assert (Qfloor x = Qfloor y) as -> by (by apply Qfloor_comp).
  assert (Qcompare (x - inject_Z (Qfloor y)) (1 # 2)
          = Qcompare (y - inject_Z (Qfloor y)) (1 # 2)) as ->; [| reflexivity].
  apply Qcompare_comp; [by rewrite H | reflexivity].
Qed.

Lemma roundHalfEven_cases x :
  let f := Qfloor x in
  (x - inject_Z f < 1 # 2 /\ roundHalfEven x = f)
  \/ (1 # 2 < x - inject_Z f /\ roundHalfEven x = (f + 1)%Z)
  \/ (x - inject_Z f == 1 # 2
      /\ roundHalfEven x = if Z.even f then f else (f + 1)%Z).
Proof.
  intros f. unfold roundHalfEven. fold f.
  destruct (Qcompare (x - inject_Z f) (1 # 2)) eqn:E.
  - right. right. split; [by apply Qeq_alt | reflexivity].
  - left. split; [by apply Qlt_alt | reflexivity].
  - right. left. split; [by apply Qgt_alt | reflexivity].
Qed.

Lemma Qfloor_bounds x : inject_Z (Qfloor x) <= x /\ x < inject_Z (Qfloor x) + 1.
Proof.
  split; [apply Qfloor_le |].
  pose proof (Qlt_floor x) as H. rewrite inject_Z_plus in H. exact H.
Qed.

Lemma roundHalfEven_bounds x :
  (Qfloor x <= roundHalfEven x <= Qfloor x + 1)%Z.
Proof.
  destruct (roundHalfEven_cases x) as [[_ ->] | [[_ ->] | [_ ->]]]; try lia.
  destruct (Z.even _); lia.
Qed.

Lemma roundHalfEven_Z (k : Z) : roundHalfEven (inject_Z k) = k.
Proof.
  destruct (roundHalfEven_cases (inject_Z k)) as [[_ ->] | [[H _] | [H _]]].
  - apply Qfloor_Z.
  - rewrite Qfloor_Z in H. exfalso. lra.
  - rewrite Qfloor_Z in H. exfalso. lra.
Qed.

Lemma roundHalfEven_mono x y : x <= y -> (roundHalfEven x <= roundHalfEven y)%Z.
Proof.
  intros Hxy.
  pose proof (Qfloor_resp_le x y Hxy) as Hf.
  destruct (Z.eq_dec (Qfloor x) (Qfloor y)) as [E | N].
  - destruct (roundHalfEven_cases x) as [[Hx ->] | [[Hx ->] | [Hx ->]]];
      destruct (roundHalfEven_cases y) as [[Hy ->] | [[Hy ->] | [Hy ->]]];
      rewrite ?E in *; try lia; try (exfalso; lra);
      destruct (Z.even (Qfloor y)); try lia; exfalso; lra.
  - pose proof (roundHalfEven_bounds x). pose proof (roundHalfEven_bounds y). lia.
Qed.

Lemma Qfloor_opp_int x :
  x == inject_Z (Qfloor x) -> Qfloor (- x) = (- Qfloor x)%Z.
Proof.
  intros H. rewrite (Qfloor_comp (- x) (inject_Z (- Qfloor x))).
  - apply Qfloor_Z.
  - rewrite inject_Z_opp. by rewrite <- H.
Qed.

Lemma Qfloor_unique x (k : Z) :
  inject_Z k <= x -> x < inject_Z k + 1 -> Qfloor x = k.
Proof.
  intros H1 H2. destruct (Qfloor_bounds x) as [H3 H4].
  assert (inject_Z k < inject_Z (Qfloor x) + 1) as A by lra.
  assert (inject_Z (Qfloor x) < inject_Z k + 1) as B by lra.
  change 1 with (inject_Z 1) in A, B.
  rewrite <- inject_Z_plus in A, B. rewrite <- Zlt_Qlt in A, B. lia.
Qed.

Lemma inject_Z_minus (a b : Z) : inject_Z (a - b) == inject_Z a - inject_Z b.
Proof. unfold Z.sub. rewrite inject_Z_plus, inject_Z_opp. reflexivity. Qed.

Lemma Qfloor_opp_frac x :
  inject_Z (Qfloor x) < x -> Qfloor (- x) = (- Qfloor x - 1)%Z.
Proof.
  intros H. destruct (Qfloor_bounds x) as [H3 H4].
  apply Qfloor_unique.
  - rewrite inject_Z_minus, inject_Z_opp. change (inject_Z 1) with 1. lra.
  - rewrite inject_Z_minus, inject_Z_opp. change (inject_Z 1) with 1. lra.
Qed.

Lemma roundHalfEven_opp x : roundHalfEven (- x) = (- roundHalfEven x)%Z.
Proof.
  destruct (Qfloor_bounds x) as [H3 H4].
  destruct (Qlt_le_dec (inject_Z (Qfloor x)) x) as [Hfrac | Hint].
  - pose proof (Qfloor_opp_frac x Hfrac) as Ef.
    destruct (roundHalfEven_cases x) as [[Hx ->] | [[Hx ->] | [Hx ->]]];
      destruct (roundHalfEven_cases (- x)) as [[Hy ->] | [[Hy ->] | [Hy ->]]];
      rewrite Ef in *; rewrite ?inject_Z_minus, ?inject_Z_opp in *;
      change (inject_Z 1) with 1 in *; try lia; try (exfalso; lra).
    rewrite Z.even_sub, Z.even_opp. change (Z.even 1) with false.
    destruct (Z.even (Qfloor x)); simpl; lia.
  - assert (x == inject_Z (Qfloor x)) as Hx by lra.
    pose proof (Qfloor_opp_int x Hx) as Ef.
    destruct (roundHalfEven_cases x) as [[_ ->] | [[H _] | [H _]]];
      [| exfalso; lra | exfalso; lra].
    destruct (roundHalfEven_cases (- x)) as [[_ ->] | [[H _] | [H _]]];
      rewrite Ef in *; rewrite ?inject_Z_opp in *; [reflexivity | exfalso; lra | exfalso; lra].
Qed.

Lemma pow2_pos (e : Z) : 0 < 2 ^ e.
Proof. apply Qpower_0_lt. reflexivity. Qed.

Lemma pow2_succ (e : Z) : 2 ^ (e + 1) == 2 * 2 ^ e.
Proof. rewrite Qpower_plus by discriminate. change (2 ^ 1) with 2. ring. Qed.

Lemma pow2_le (a b : Z) : (a <= b)%Z -> 2 ^ a <= 2 ^ b.
Proof. intros H. apply Qpower_le_compat_l; [exact H | discriminate]. Qed.

Lemma pow2_lt_inv (a b : Z) : 2 ^ a < 2 ^ b -> (a < b)%Z.
Proof. intros H. apply (Qpower_lt_compat_l_inv 2); [exact H | reflexivity]. Qed.

Lemma ilog2_spec (x : Q) :
  0 < x -> 2 ^ ilog2 x <= x /\ x < 2 ^ (ilog2 x + 1).
Proof.
  intros Hx. destruct x as [n d]. unfold ilog2. cbn [Qnum Qden].
  assert (0 < n)%Z as Hn by (unfold Qlt in Hx; simpl in Hx; lia).
  set (a := Z.log2 n). set (b := Z.log2 (Z.pos d)).
  destruct (Z.log2_spec n Hn) as [Ha1 Ha2]. fold a in Ha1, Ha2.
  destruct (Z.log2_spec (Z.pos d) (Pos2Z.is_pos d)) as [Hb1 Hb2]. fold b in Hb1, Hb2.
  assert (0 <= a)%Z as Ha0 by apply Z.log2_nonneg.
  assert (0 <= b)%Z as Hb0 by apply Z.log2_nonneg.
  rewrite Zle_Qle in Ha1, Hb1. rewrite Zlt_Qlt in Ha2, Hb2.
  rewrite Zpower_Qpower in Ha1, Ha2, Hb1, Hb2 by lia.
  change (inject_Z 2) with 2 in *.
  replace (Z.succ a) with (a + 1)%Z in Ha2 by lia.
  replace (Z.succ b) with (b + 1)%Z in Hb2 by lia.
  rewrite pow2_succ in Ha2, Hb2.
  pose proof (pow2_pos a) as HA. pose proof (pow2_pos b) as HB.
  assert (2 ^ (a - b) * 2 ^ b == 2 ^ a) as HP.
  { rewrite <- Qpower_plus by discriminate. by replace (a - b + b)%Z with a by lia. }
  assert ((n # d) * inject_Z (Z.pos d) == inject_Z n) as HX.
  { rewrite (Qmake_Qdiv n d). field. discriminate. }
  pose proof (pow2_pos (a - b)) as HPpos.
  set (A := 2 ^ a) in *. set (B := 2 ^ b) in *. set (P := 2 ^ (a - b)) in *.
  set (N := inject_Z n) in *. set (D := inject_Z (Z.pos d)) in *.
  set (x := n # d) in *.
  destruct (Qle_bool P x) eqn:E.
  - apply Qle_bool_iff in E. split; [exact E |].
    rewrite pow2_succ. fold P.
    assert (x * D * B < 2 * P * B * D) by nra.
    assert (0 < D * B) by nra. nra.
  - assert (x < P) as E'.
    { apply Qnot_le_lt. intros H. apply Qle_bool_iff in H. congruence. }
    replace (a - b - 1 + 1)%Z with (a - b)%Z by lia. fold P. split; [| exact E'].
    assert (2 ^ (a - b - 1) * 2 == P) as HQ.
    { unfold P. replace (a - b)%Z with (a - b - 1 + 1)%Z at 2 by lia.
      rewrite pow2_succ. ring. }
    set (Q' := 2 ^ (a - b - 1)) in *.
    assert (Q' * 2 * B * D <= x * D * 2 * B) by nra.
    assert (0 < D * B) by nra. nra.
Qed.

Lemma roundBinary_comp (p m : Z) (x y : Q) :
  x == y -> roundBinary p m x = roundBinary p m y.
Proof. intros H. unfold roundBinary. by rewrite (Qred_complete x y H). Qed.

Lemma roundBinary_zero (p m : Z) (x : Q) : x == 0 -> roundBinary p m x = 0.
Proof. intros H. by rewrite (roundBinary_comp p m x 0 H). Qed.

Lemma roundBinary_value (p m : Z) (x : Q) :
  ~ x == 0 ->
  roundBinary p m x
  == inject_Z (roundHalfEven (x / 2 ^ (binade m x - p + 1))) * 2 ^ (binade m x - p + 1).
Proof.
  intros Hx. unfold roundBinary, binade.
  destruct (Qeq_bool (Qred x) 0) eqn:E.
  - apply Qeq_bool_iff in E. rewrite Qred_correct in E. contradiction.
  - cbv zeta. etransitivity; [apply Qred_correct |].
    rewrite (roundHalfEven_comp (Qred x / 2 ^ (Z.max (ilog2 (Qabs (Qred x))) m - p + 1))
                                (x / 2 ^ (Z.max (ilog2 (Qabs (Qred x))) m - p + 1)));
      [reflexivity |].
    apply Qmult_comp; [apply Qred_correct | reflexivity].
Qed.

Lemma roundBinary_nonneg (p m : Z) (x : Q) : 0 <= x -> 0 <= roundBinary p m x.
Proof.
  intros Hx. destruct (Qeq_dec x 0) as [E | N].
  - rewrite (roundBinary_zero p m x E). lra.
  - rewrite (roundBinary_value p m x N).
    pose proof (pow2_pos (binade m x - p + 1)) as Hq.
    set (q := 2 ^ (binade m x - p + 1)) in *.
    assert (0 <= x / q) as Hdiv.
    { apply Qle_shift_div_l; [exact Hq | lra]. }
    pose proof (roundHalfEven_mono 0 (x / q) Hdiv) as H.
    change 0 with (inject_Z 0) in H at 1. rewrite roundHalfEven_Z in H.
    rewrite Zle_Qle in H. change (inject_Z 0) with 0 in H. nra.
Qed.

Lemma binade_opp (m : Z) (x : Q) : binade m (- x) = binade m x.
Proof.
  unfold binade. rewrite Qred_opp. destruct (Qred x) as [n d].
  unfold Qabs, Qopp. cbn [Qnum Qden]. by rewrite Z.abs_opp.
Qed.

Lemma roundBinary_opp (p m : Z) (x : Q) :
  roundBinary p m (- x) == - roundBinary p m x.
Proof.
  destruct (Qeq_dec x 0) as [E | N].
  - rewrite (roundBinary_zero p m x E).
    rewrite (roundBinary_zero p m (- x)); [reflexivity | lra].
  - assert (~ - x == 0) as N' by lra.
    rewrite (roundBinary_value p m x N), (roundBinary_value p m (- x) N').
    rewrite binade_opp.
    pose proof (pow2_pos (binade m x - p + 1)) as Hq.
    set (q := 2 ^ (binade m x - p + 1)) in *.
    rewrite (roundHalfEven_comp (- x / q) (- (x / q))) by (field; lra).
    rewrite roundHalfEven_opp, inject_Z_opp. ring.
Qed.

Lemma roundBinary_nonpos (p m : Z) (x : Q) : x <= 0 -> roundBinary p m x <= 0.
Proof.
  intros Hx.
  assert (0 <= roundBinary p m (- x)) as H by (apply roundBinary_nonneg; lra).
  rewrite roundBinary_opp in H. lra.
Qed.

Lemma binade_bounds (m : Z) (x : Q) :
  0 < x ->
  x < 2 ^ (binade m x + 1)
  /\ ((m < binade m x)%Z -> 2 ^ binade m x <= x).
Proof.
  intros Hx. unfold binade.
  assert (Qabs (Qred x) == x) as Eabs.
  { rewrite Qabs_pos; [apply Qred_correct |]. rewrite Qred_correct. lra. }
  assert (0 < Qabs (Qred x)) as Hpos by lra.
  destruct (ilog2_spec (Qabs (Qred x)) Hpos) as [H1 H2].
  set (l := ilog2 (Qabs (Qred x))) in *.
  split.
  - apply Qlt_le_trans with (2 ^ (l + 1)); [lra |]. apply pow2_le. lia.
  - intros Hm. replace (Z.max l m) with l by lia. lra.
Qed.

Lemma binade_mono (m : Z) (x y : Q) :
  0 < x -> x <= y -> (binade m x <= binade m y)%Z.
Proof.
  intros Hx Hxy. assert (0 < y) as Hy by lra.
  unfold binade.
  assert (Qabs (Qred x) == x) as Ex.
  { rewrite Qabs_pos; [apply Qred_correct |]. rewrite Qred_correct. lra. }
  assert (Qabs (Qred y) == y) as Ey.
  { rewrite Qabs_pos; [apply Qred_correct |]. rewrite Qred_correct. lra. }
  assert (0 < Qabs (Qred x)) as Hpx by lra.
  assert (0 < Qabs (Qred y)) as Hpy by lra.
  destruct (ilog2_spec _ Hpx) as [H1 _]. destruct (ilog2_spec _ Hpy) as [_ H2].
  assert (2 ^ ilog2 (Qabs (Qred x)) < 2 ^ (ilog2 (Qabs (Qred y)) + 1)) as H by lra.
  apply pow2_lt_inv in H. lia.
Qed.

Lemma pow2_int (n : Z) : (0 <= n)%Z -> 2 ^ n == inject_Z (2 ^ n).
Proof. intros H. rewrite Zpower_Qpower by exact H. reflexivity. Qed.

Lemma roundBinary_mono_pos (p m : Z) (x y : Q) :
  (1 <= p)%Z -> 0 < x -> x <= y -> roundBinary p m x <= roundBinary p m y.
Proof.
  intros Hp Hx Hxy. assert (0 < y) as Hy by lra.
  assert (~ x == 0) as Nx by lra. assert (~ y == 0) as Ny by lra.
  rewrite (roundBinary_value p m x Nx), (roundBinary_value p m y Ny).
  pose proof (binade_mono m x y Hx Hxy) as He.
  destruct (binade_bounds m x Hx) as [Hx2 _].
  destruct (binade_bounds m y Hy) as [_ Hy1].
  set (ex := binade m x) in *. set (ey := binade m y) in *.
  pose proof (pow2_pos (ex - p + 1)) as Hqx. pose proof (pow2_pos (ey - p + 1)) as Hqy.
  destruct (Z.eq_dec ex ey) as [E | N].
  - rewrite <- E in *. set (q := 2 ^ (ex - p + 1)) in *.
    assert (x / q <= y / q) as Hdiv.
    { apply Qle_shift_div_l; [exact Hqx |].
      assert (x / q * q == x) as -> by (field; lra). exact Hxy. }
    apply roundHalfEven_mono in Hdiv. rewrite Zle_Qle in Hdiv. nra.
  - assert (ex < ey)%Z as Hlt by lia.
    apply Qle_trans with (2 ^ (ex + 1)); [| apply Qle_trans with (2 ^ ey)].
    + (* the rounding of x stays within its binade *)
      assert (2 ^ (ex + 1) == inject_Z (2 ^ p) * 2 ^ (ex - p + 1)) as ->.
      { rewrite <- pow2_int by lia. rewrite <- Qpower_plus by discriminate.
        by replace (p + (ex - p + 1))%Z with (ex + 1)%Z by lia. }
      set (q := 2 ^ (ex - p + 1)) in *.
      assert (x / q <= inject_Z (2 ^ p)) as Hdiv.
      { apply Qle_shift_div_r; [exact Hqx |].
        assert (inject_Z (2 ^ p) * q == 2 ^ (ex + 1)) as ->; [| lra].
        unfold q. rewrite <- pow2_int by lia. rewrite <- Qpower_plus by discriminate.
        by replace (p + (ex - p + 1))%Z with (ex + 1)%Z by lia. }
      apply roundHalfEven_mono in Hdiv. rewrite roundHalfEven_Z in Hdiv.
      rewrite Zle_Qle in Hdiv. nra.
    + apply pow2_le. lia.
    + assert (m < ey)%Z as Hm by (unfold ex, binade in Hlt; lia).
      specialize (Hy1 Hm).
      assert (2 ^ ey == inject_Z (2 ^ (p - 1)) * 2 ^ (ey - p + 1)) as Epow.
      { rewrite <- pow2_int by lia. rewrite <- Qpower_plus by discriminate.
        by replace (p - 1 + (ey - p + 1))%Z with ey by lia. }
      rewrite Epow.
      set (q := 2 ^ (ey - p + 1)) in *.
      assert (inject_Z (2 ^ (p - 1)) <= y / q) as Hdiv.
      { apply Qle_shift_div_l; [exact Hqy |]. rewrite <- Epow. exact Hy1. }
      apply roundHalfEven_mono in Hdiv. rewrite roundHalfEven_Z in Hdiv.
      rewrite Zle_Qle in Hdiv. nra.
Qed.

Lemma roundBinary_mono (p m : Z) (x y : Q) :
  (1 <= p)%Z -> x <= y -> roundBinary p m x <= roundBinary p m y.
Proof.
  intros Hp Hxy.
  destruct (Qlt_le_dec 0 x) as [Hx | Hx].
  - by apply roundBinary_mono_pos.
  - destruct (Qlt_le_dec y 0) as [Hy | Hy].
    + assert (roundBinary p m (- y) <= roundBinary p m (- x)) as H
        by (apply roundBinary_mono_pos; [exact Hp | lra | lra]).
      rewrite !roundBinary_opp in H. lra.
    + pose proof (roundBinary_nonpos p m x Hx).
      pose proof (roundBinary_nonneg p m y Hy). lra.
Qed.

Lemma roundHalfEven_error (x : Q) :
  x - (1 # 2) <= inject_Z (roundHalfEven x) /\ inject_Z (roundHalfEven x) <= x + (1 # 2).
Proof.
  destruct (Qfloor_bounds x) as [H1 H2].
  destruct (roundHalfEven_cases x) as [[H ->] | [[H ->] | [H E]]].
  - lra.
  - rewrite inject_Z_plus. change (inject_Z 1) with 1. lra.
  - rewrite E. destruct (Z.even (Qfloor x)).
    + lra.
    + rewrite inject_Z_plus. change (inject_Z 1) with 1. lra.
Qed.

(** The rounding error is at most half of the quantum of the binade. *)
Lemma roundBinary_error (p m : Z) (x : Q) :
  x - 2 ^ (binade m x - p) <= roundBinary p m x
  /\ roundBinary p m x <= x + 2 ^ (binade m x - p).
Proof.
  destruct (Qeq_dec x 0) as [E | N].
  - rewrite (roundBinary_zero p m x E).
    pose proof (pow2_pos (binade m x - p)). lra.
  - rewrite (roundBinary_value p m x N).
    assert (2 ^ (binade m x - p + 1) == 2 * 2 ^ (binade m x - p)) as Eq
      by apply pow2_succ.
    pose proof (pow2_pos (binade m x - p)) as Hh.
    set (q := 2 ^ (binade m x - p + 1)) in *. set (h := 2 ^ (binade m x - p)) in *.
    destruct (roundHalfEven_error (x / q)) as [H1 H2].
    assert (x / q * q == x) as Ex by (field; lra).
    assert (0 < q) as Hq by lra.
    split; nra.
Qed.

(** In the normal range the error is relative. *)
Lemma roundBinary_relative (p m : Z) (x : Q) :
  2 ^ m <= x ->
  x * (1 - 2 ^ (- p)) <= roundBinary p m x /\ roundBinary p m x <= x * (1 + 2 ^ (- p)).
Proof.
  intros Hx. pose proof (pow2_pos m) as Hm. assert (0 < x) as Hpos by lra.
  destruct (roundBinary_error p m x) as [H1 H2].
  assert (2 ^ binade m x <= x) as Hb.
  { destruct (binade_bounds m x Hpos) as [_ Hb].
    destruct (Z_lt_le_dec m (binade m x)) as [Hlt | Hle]; [by apply Hb |].
    assert (binade m x = m) as -> by (unfold binade in *; lia). exact Hx. }
  assert (2 ^ (binade m x - p) == 2 ^ binade m x * 2 ^ (- p)) as E.
  { rewrite <- Qpower_plus by discriminate. reflexivity. }
  pose proof (pow2_pos (- p)) as Hp. pose proof (pow2_pos (binade m x)) as Hbp.
  rewrite E in H1, H2. split; nra.
Qed.

(** A multiple of a power of two with a significand of [p] bits is a
    value of the format. *)
Lemma roundBinary_exact_pos (p m : Z) (y : Q) (k j : Z) :
  (1 <= p)%Z -> y == inject_Z k * 2 ^ j -> (0 < k < 2 ^ p)%Z -> (m - p + 1 <= j)%Z ->
  roundBinary p m y == y.
Proof.
  intros Hp Ey Hk Hj.
  pose proof (pow2_pos j) as Hj2.
  assert (0 < inject_Z k) as Hk0.
  { change 0 with (inject_Z 0). rewrite <- Zlt_Qlt. lia. }
  assert (0 < y) as Hy by (rewrite Ey; nra).
  assert (~ y == 0) as Ny by lra.
  rewrite (roundBinary_value p m y Ny).
  set (e := binade m y).
  assert (e <= j + p - 1)%Z as He.
  { destruct (binade_bounds m y Hy) as [_ Hb]. fold e in Hb.
    destruct (Z_lt_le_dec m e) as [Hlt | Hle]; [| lia].
    specialize (Hb Hlt).
    assert (inject_Z k < 2 ^ p) as Hk2.
    { rewrite pow2_int by lia. rewrite <- Zlt_Qlt. lia. }
    assert (2 ^ e < 2 ^ (p + j)) as Hlt2.
    { rewrite (Qpower_plus 2 p j) by discriminate.
      pose proof (pow2_pos p). rewrite Ey in Hb. nra. }
    apply pow2_lt_inv in Hlt2. lia. }
  set (d := (j - (e - p + 1))%Z).
  assert (0 <= d)%Z as Hd by (unfold d; lia).
  assert (y / 2 ^ (e - p + 1) == inject_Z (k * 2 ^ d)) as Ediv.
  { rewrite inject_Z_mult, <- pow2_int by exact Hd.
    pose proof (pow2_pos (e - p + 1)) as Hq.
    assert (2 ^ j == 2 ^ d * 2 ^ (e - p + 1)) as Ej.
    { rewrite <- Qpower_plus by discriminate. unfold d.
      by replace (j - (e - p + 1) + (e - p + 1))%Z with j by lia. }
    rewrite Ey, Ej. field. lra. }
  rewrite (roundHalfEven_comp _ _ Ediv), roundHalfEven_Z, <- Ediv.
  pose proof (pow2_pos (e - p + 1)). field. lra.
Qed.

Lemma roundBinary_exact (p m : Z) (y : Q) (k j : Z) :
  (1 <= p)%Z -> y == inject_Z k * 2 ^ j -> (Z.abs k < 2 ^ p)%Z -> (m - p + 1 <= j)%Z ->
  roundBinary p m y == y.
Proof.
  intros Hp Ey Hk Hj.
  destruct (Z.lt_trichotomy k 0) as [Hneg | [-> | Hpos]].
  - assert (roundBinary p m (- y) == - y) as H.
    { apply (roundBinary_exact_pos p m (- y) (- k) j); [exact Hp | | lia | exact Hj].
      rewrite Ey, inject_Z_opp. ring. }
    rewrite roundBinary_opp in H. lra.
  - assert (y == 0) as E0 by (rewrite Ey; change (inject_Z 0) with 0; ring).
    rewrite (roundBinary_zero p m y E0). lra.
  - apply (roundBinary_exact_pos p m y k j); [exact Hp | exact Ey | lia | exact Hj].
Qed.

(** Integers of at most [p] bits are values of the format. *)
Lemma roundBinary_int (p m : Z) (n : Z) :
  (1 <= p)%Z -> (m - p + 1 <= 0)%Z -> (Z.abs n <= 2 ^ p)%Z ->
  roundBinary p m (inject_Z n) == inject_Z n.
Proof.
  intros Hp Hm Hn.
  destruct (Z.eq_dec (Z.abs n) (2 ^ p)%Z) as [E | N].
  - (* the power of two itself: significand 2^(p-1), exponent 1 *)
    assert (2 ^ p = 2 * 2 ^ (p - 1))%Z as Epow.
    { replace p with (Z.succ (p - 1)) at 1 by lia. apply Z.pow_succ_r. lia. }
    assert (0 < 2 ^ (p - 1))%Z as Hpos by (apply Z.pow_pos_nonneg; lia).
    apply (roundBinary_exact p m _ (Z.sgn n * 2 ^ (p - 1))%Z 1%Z); [exact Hp | | | lia].
    + assert (n = Z.sgn n * 2 ^ (p - 1) * 2)%Z as En.
      { destruct (Z.abs_spec n) as [[H1 H2] | [H1 H2]].
        - rewrite Z.sgn_pos by lia. lia.
        - rewrite Z.sgn_neg by lia. lia. }
      change (2 ^ 1) with 2. rewrite En at 1.
      rewrite !inject_Z_mult. change (inject_Z 2) with 2. ring.
    + destruct (Z.abs_spec n) as [[H1 H2] | [H1 H2]].
      * rewrite Z.sgn_pos by lia. lia.
      * rewrite Z.sgn_neg by lia. lia.
  - apply (roundBinary_exact p m _ n 0%Z); [exact Hp | | lia | exact Hm].
    change (2 ^ 0) with 1. ring.
Qed.

Lemma roundBinary_canonical (p m : Z) (x : Q) :
  Qred (roundBinary p m x) = roundBinary p m x.
Proof.
  unfold roundBinary. destruct (Qeq_bool _ _); [reflexivity | apply Qred_complete, Qred_correct].
Qed.

(** Two rounded values that are equal as rationals are the same
    fraction. *)
Lemma roundBinary_eq (p m : Z) (x y : Q) :
  roundBinary p m x == roundBinary p m y -> roundBinary p m x = roundBinary p m y.
Proof.
  intros H.
  rewrite <- (roundBinary_canonical p m x), <- (roundBinary_canonical p m y).
  by apply Qred_complete.
Qed.

(** Rounding a value of the format changes nothing. *)
Lemma roundBinary_idempotent (p m : Z) (x : Q) :
  (1 <= p)%Z -> roundBinary p m (roundBinary p m x) = roundBinary p m x.
Proof.
  intros Hp.
  assert (roundBinary p m (roundBinary p m x) == roundBinary p m x) as E.
  { destruct (Qeq_dec x 0) as [E0 | N].
    { rewrite (roundBinary_zero p m x E0). by rewrite (roundBinary_zero p m 0). }
    assert (forall z, 0 < z ->
              roundBinary p m (roundBinary p m z) == roundBinary p m z) as Hpos.
    { intros z Hz. assert (~ z == 0) as Nz by lra.
      destruct (binade_bounds m z Hz) as [Hup _].
      set (e := binade m z) in *.
      pose proof (pow2_pos (e - p + 1)) as Hq.
      set (k := roundHalfEven (z / 2 ^ (e - p + 1))).
      assert (roundBinary p m z == inject_Z k * 2 ^ (e - p + 1)) as Ev
        by apply (roundBinary_value p m z Nz).
      assert (0 <= k <= 2 ^ p)%Z as Hk.
      { split.
        - assert (0 <= z / 2 ^ (e - p + 1)) as Hdiv
            by (apply Qle_shift_div_l; [exact Hq | lra]).
          apply roundHalfEven_mono in Hdiv.
          change 0 with (inject_Z 0) in Hdiv at 1. by rewrite roundHalfEven_Z in Hdiv.
        - assert (z / 2 ^ (e - p + 1) <= inject_Z (2 ^ p)) as Hdiv.
          { apply Qle_shift_div_r; [exact Hq |].
            rewrite <- pow2_int by lia. rewrite <- Qpower_plus by discriminate.
            replace (p + (e - p + 1))%Z with (e + 1)%Z by lia. lra. }
          apply roundHalfEven_mono in Hdiv. by rewrite roundHalfEven_Z in Hdiv. }
      assert (m <= e)%Z as Hme by (unfold e, binade; lia).
      destruct (Z.eq_dec k (2 ^ p)%Z) as [Ek | Nk].
      - assert (2 ^ p = 2 * 2 ^ (p - 1))%Z as Epow.
        { replace p with (Z.succ (p - 1)) at 1 by lia. apply Z.pow_succ_r. lia. }
        assert (0 < 2 ^ (p - 1))%Z as Hpp by (apply Z.pow_pos_nonneg; lia).
        apply (roundBinary_exact p m _ (2 ^ (p - 1))%Z (e - p + 2)%Z); [exact Hp | | lia | lia].
        rewrite Ev, Ek, Epow, inject_Z_mult.
        replace (e - p + 2)%Z with (e - p + 1 + 1)%Z by lia.
        rewrite (pow2_succ (e - p + 1)). change (inject_Z 2) with 2. ring.
      - apply (roundBinary_exact p m _ k (e - p + 1)%Z); [exact Hp | exact Ev | lia | lia]. }
    destruct (Qlt_le_dec 0 x) as [Hx | Hx]; [by apply Hpos |].
    assert (0 < - x) as Hneg by lra.
    specialize (Hpos (- x) Hneg).
    rewrite (roundBinary_comp p m (roundBinary p m (- x)) (- roundBinary p m x))
      in Hpos by apply roundBinary_opp.
    rewrite !roundBinary_opp in Hpos. lra. }
  by apply roundBinary_eq.
Qed.

(** The facts used for [float]. *)
Lemma round32_mono (x y : Q) : x <= y -> round32 x <= round32 y.
Proof. apply roundBinary_mono. lia. Qed.

Lemma round32_nonneg (x : Q) : 0 <= x -> 0 <= round32 x.
Proof. apply roundBinary_nonneg. Qed.

Lemma round32_nonpos (x : Q) : x <= 0 -> round32 x <= 0.
Proof. apply roundBinary_nonpos. Qed.

Lemma round32_opp (x : Q) : round32 (- x) == - round32 x.
Proof. apply roundBinary_opp. Qed.

Lemma round32_comp (x y : Q) : x == y -> round32 x = round32 y.
Proof. apply roundBinary_comp. Qed.

Lemma round32_idempotent (x : Q) : round32 (round32 x) = round32 x.
Proof. apply roundBinary_idempotent. lia. Qed.

Lemma round32_0 : round32 0 = 0.
Proof. reflexivity. Qed.

Lemma round32_1 : round32 1 = 1.
Proof. vm_compute. reflexivity. Qed.

(** The error of one rounding, for a value in the normal range of
    [float] and for a value below 2. *)
Lemma round32_relative (x : Q) :
  2 ^ (-126) <= x ->
  x * (1 - (1 # 16777216)) <= round32 x
  /\ round32 x <= x * (1 + (1 # 16777216)).
Proof.
  intros Hn.
  destruct (roundBinary_relative 24 (-126) x Hn) as [H1 H2].
  assert (2 ^ (- 24) == 1 # 16777216) as E by reflexivity.
  rewrite E in H1, H2. by split.
Qed.

Lemma binade_upper (m e : Z) (x : Q) :
  0 < x -> x < 2 ^ (e + 1) -> (m <= e)%Z -> (binade m x <= e)%Z.
Proof.
  intros Hx Hup Hm. unfold binade.
  assert (Qabs (Qred x) == x) as Eabs.
  { rewrite Qabs_pos; [apply Qred_correct |]. rewrite Qred_correct. lra. }
  assert (0 < Qabs (Qred x)) as Hpos by lra.
  destruct (ilog2_spec _ Hpos) as [H1 _].
  assert (2 ^ ilog2 (Qabs (Qred x)) < 2 ^ (e + 1)) as H by lra.
  apply pow2_lt_inv in H. lia.
Qed.

Lemma round32_error_pos (x : Q) :
  0 <= x -> x < 2 ->
  x - (1 # 16777216) <= round32 x /\ round32 x <= x + (1 # 16777216).
Proof.
  intros H0 H2.
  destruct (Qeq_dec x 0) as [E | N].
  { unfold round32. rewrite (roundBinary_zero 24 (-126) x E). lra. }
  assert (0 < x) as Hx by lra.
  destruct (roundBinary_error 24 (-126) x) as [H3 H4].
  assert (binade (-126) x <= 0)%Z as Hb.
  { apply binade_upper; [exact Hx | | lia]. exact H2. }
  assert (2 ^ (binade (-126) x - 24) <= 2 ^ (- 24)) as Hp by (apply pow2_le; lia).
  assert (2 ^ (- 24) == 1 # 16777216) as E by reflexivity.
  rewrite E in Hp. unfold round32. lra.
Qed.

Lemma round32_error (x : Q) :
  - (2) < x -> x < 2 ->
  x - (1 # 16777216) <= round32 x /\ round32 x <= x + (1 # 16777216).
Proof.
  intros H1 H2. destruct (Qlt_le_dec x 0) as [Hneg | Hpos].
  - destruct (round32_error_pos (- x)) as [H3 H4]; [lra | lra |].
    rewrite round32_opp in H3, H4. lra.
  - by apply round32_error_pos.
Qed.

End FloatFacts.

(** ** Depth-buffer partitioning *)

Module DepthFacts.
Import Depth FloatFacts.

Lemma NoGap_nil : NoGap [].
Proof. intros i p q H. rewrite lookup_nil in H. discriminate. Qed.

Lemma NoGap_snoc l x :
  NoGap l ->
  (forall p, last l = Some p -> p_farZ x <= p_nearZ p) ->
  NoGap (l ++ [x]).
Proof.
  intros Hl Hx i p q Hp Hq.
  apply lookup_app_Some in Hq as [Hq | [Hlen Hq]].
  - assert (S i < length l)%nat as Hlt by (eapply lookup_lt_Some; eauto).
    rewrite lookup_app_l in Hp by lia. eauto.
  - destruct (S i - length l)%nat as [|k] eqn:Ek; simpl in Hq; [| by destruct k].
    inversion Hq; subst q. apply Hx.
    rewrite last_lookup.
    rewrite lookup_app_l in Hp by lia.
    replace (Init.Nat.pred (length l)) with i by lia. exact Hp.
Qed.

Lemma NoGap_expand_last l k p p' :
  NoGap l -> S k = length l -> l !! k = Some p ->
  p_farZ p' <= p_farZ p ->
  NoGap (<[k := p']> l).
Proof.
  intros Hl Hk Hp Hle i a b Ha Hb.
  assert (S i < length l)%nat as Hlt.
  { apply lookup_lt_Some in Hb. by rewrite length_insert in Hb. }
  rewrite list_lookup_insert_ne in Ha by lia.
  destruct (decide (S i = k)) as [E | Hne].
  - subst k. rewrite list_lookup_insert_eq in Hb by lia. inversion Hb; subst b.
    specialize (Hl _ _ _ Ha Hp). lra.
  - rewrite list_lookup_insert_ne in Hb by lia. eauto.
Qed.

Lemma NoGap_head p0 p0' rest :
  p_nearZ p0' = p_nearZ p0 -> NoGap (p0 :: rest) -> NoGap (p0' :: rest).
Proof.
  intros Hn Hl i a b Ha Hb. destruct i as [|i].
  - simpl in Ha. inversion Ha; subst a. rewrite Hn.
    apply (Hl 0%nat p0 b); [reflexivity | exact Hb].
  - apply (Hl (S i) a b); assumption.
Qed.

Lemma last_lookup_count st p :
  nIntervals st = length (depthPartitions st) ->
  depthPartitions st !! (nIntervals st - 1)%nat = Some p ->
  nIntervals st <> 0%nat ->
  last (depthPartitions st) = Some p.
Proof.
  intros Hc Hp Hn. rewrite last_lookup.
  replace (Init.Nat.pred (length (depthPartitions st))) with (nIntervals st - 1)%nat by lia.
  exact Hp.
Qed.

Lemma scanEntry_inv st e : ScanInv st -> ScanInv (scanEntry st e).
Proof.
  intros [Hc Hg Hp]. unfold scanEntry.
  destruct (Qgtb (discSizeInPixels e) 1); [| by constructor].
  destruct (startsNewInterval st e) eqn:Hnew.
  - (* a new interval, possibly preceded by a filler *)
    assert (forall p, last (depthPartitions st) = Some p -> p_nearZ p <= farZ e) as Hdisj.
    { intros p Hl. unfold startsNewInterval in Hnew.
      rewrite last_lookup in Hl.
      destruct (nIntervals st) as [|k] eqn:Ek.
      - rewrite <- Hc in Hl. simpl in Hl.
        symmetry in Hc. apply length_zero_iff_nil in Hc. rewrite Hc in Hl. discriminate.
      - rewrite <- Hc in Hl. simpl in Hl. rewrite Hl in Hnew.
        by apply Qgeb_ge in Hnew. }
    simpl.
    destruct (Qeq_bool (farZ e) (prevNear st)) eqn:Heq; simpl.
    + apply Qeq_bool_iff in Heq. constructor; simpl.
      * rewrite length_app. simpl. lia.
      * apply NoGap_snoc; [exact Hg |]. simpl. intros p Hl.
        rewrite <- (Hp p Hl). lra.
      * intros p. rewrite last_snoc. intros [= <-]. reflexivity.
    + constructor; simpl.
      * rewrite !length_app. simpl. lia.
      * apply NoGap_snoc.
        -- apply NoGap_snoc; [exact Hg |]. simpl. intros p Hl.
           rewrite (Hp p Hl). lra.
        -- intros p. rewrite last_snoc. intros [= <-]. simpl. lra.
      * intros p. rewrite last_snoc. intros [= <-]. reflexivity.
  - (* the object overlaps the current interval *)
    destruct (depthPartitions st !! (nIntervals st - 1)%nat) as [p|] eqn:Hl;
      [| by constructor].
    assert (nIntervals st <> 0%nat) as Hn.
    { intros H0. unfold startsNewInterval in Hnew. rewrite H0 in Hnew. discriminate. }
    constructor; simpl.
    + rewrite length_insert. exact Hc.
    + eapply NoGap_expand_last; eauto; [lia |]. simpl. apply fmin_le_l.
    + intros q. rewrite last_lookup, length_insert.
      replace (Init.Nat.pred (length (depthPartitions st))) with (nIntervals st - 1)%nat by lia.
      rewrite list_lookup_insert_eq by (apply lookup_lt_Some in Hl; exact Hl).
      intros [= <-]. reflexivity.
Qed.

Lemma fold_scan_inv l st : ScanInv st -> ScanInv (fold_left scanEntry l st).
Proof.
  revert st. induction l as [|e l IH]; intros st H; simpl; [exact H |].
  apply IH, scanEntry_inv, H.
Qed.

Lemma scan_inv renderList : ScanInv (scan renderList).
Proof.
  unfold scan. apply fold_scan_inv. constructor; simpl.
  - reflexivity.
  - apply NoGap_nil.
  - intros p H. discriminate.
Qed.

(** [nIntervals] is the size of the vector throughout the scan, so the
    vector is never indexed outside its bounds. *)
Lemma scan_counts renderList :
  nIntervals (scan renderList) = length (depthPartitions (scan renderList)).
Proof. apply scan_inv. Qed.

Lemma includeFarthestOrbit_NoGap parts orbitPathList :
  NoGap parts -> NoGap (includeFarthestOrbit parts orbitPathList).
Proof.
  intros H. unfold includeFarthestOrbit.
  destruct (last orbitPathList); [| exact H].
  destruct parts as [|p0 rest]; [exact H |].
  eapply NoGap_head; [| exact H]. reflexivity.
Qed.

Lemma partition_NoGap renderList orbitPathList annotations :
  NoGap (partition renderList orbitPathList annotations).
Proof.
  unfold partition, partitionState. simpl.
  apply includeFarthestOrbit_NoGap.
  destruct (scan_inv renderList) as [Hc Hg Hp].
  apply NoGap_snoc; [exact Hg |]. simpl. intros p Hl.
  rewrite (Hp p Hl). lra.
Qed.

(** C1. Depth partition gap-freeness: in the sequence of intervals that
    the partitioning loop of [draw] produces (fillers, the frontmost
    interval and expanded intervals included), every interval has its
    far bound at or beyond the near bound of the interval constructed
    just before it: [interval[i].farZ <= interval[i-1].nearZ].  The
    property holds for every render list, sorted or not. *)
Theorem partition_gap_free renderList orbitPathList annotations i p q :
  partition renderList orbitPathList annotations !! i = Some p ->
  partition renderList orbitPathList annotations !! S i = Some q ->
  p_farZ q <= p_nearZ p.
Proof. apply partition_NoGap. Qed.

Lemma partition_gap_free_witness :
  exists p q,
    partition threeBodies [] [] !! 0%nat = Some p
    /\ partition threeBodies [] [] !! 1%nat = Some q
    /\ p_farZ q <= p_nearZ p.
Proof.
  eexists. eexists. split; [reflexivity |]. split; [reflexivity |].
  apply (partition_gap_free threeBodies [] [] 0%nat); reflexivity.
Defined.

(** *** Depth ranges *)

Lemma includeFarthestOrbit_length parts orbitPathList :
  length (includeFarthestOrbit parts orbitPathList) = length parts.
Proof.
  unfold includeFarthestOrbit.
  destruct (last orbitPathList); [| reflexivity].
  by destruct parts.
Qed.

Lemma partition_length renderList orbitPathList annotations :
  length (partition renderList orbitPathList annotations)
  = S (length (depthPartitions (scan renderList))).
Proof.
  unfold partition, partitionState. simpl.
  rewrite includeFarthestOrbit_length, length_app. simpl. lia.
Qed.

Lemma partition_nIntervals renderList orbitPathList annotations :
  nIntervals (partitionState renderList orbitPathList annotations)
  = length (partition renderList orbitPathList annotations).
Proof.
  rewrite partition_length. unfold partitionState. simpl.
  by rewrite scan_counts.
Qed.

Lemma inject_Z_of_nat_le (j k : nat) :
  (j <= k)%nat -> inject_Z (Z.of_nat j) <= inject_Z (Z.of_nat k).
Proof. intros H. rewrite <- Zle_Qle. lia. Qed.

Lemma intToFloat_nonneg (k : nat) : 0 <= intToFloat k.
Proof.
  apply round32_nonneg. change 0 with (inject_Z 0). rewrite <- Zle_Qle. lia.
Qed.

Lemma intToFloat_mono (j k : nat) : (j <= k)%nat -> intToFloat j <= intToFloat k.
Proof. intros H. by apply round32_mono, inject_Z_of_nat_le. Qed.

(** An [int] of at most 24 bits is converted without rounding. *)
Lemma intToFloat_exact (k : nat) :
  (Z.of_nat k <= 16777216)%Z -> intToFloat k == inject_Z (Z.of_nat k).
Proof.
  intros H. apply roundBinary_int; [lia | lia |].
  change (2 ^ 24)%Z with 16777216%Z. lia.
Qed.

Lemma intervalSize_nonneg (n : nat) : 0 <= intervalSize n.
Proof.
  apply round32_nonneg. pose proof (intToFloat_nonneg (Nat.max 1 n)) as H.
  unfold Qdiv. rewrite Qmult_1_l. by apply Qinv_le_0_compat.
Qed.

(** The bounds decrease with the index of the interval: the intervals
    are laid out from the far end of the depth range to its near end. *)
Lemma depthBound_mono (n j k : nat) : (j <= k)%nat -> depthBound n k <= depthBound n j.
Proof.
  intros H. unfold depthBound. apply round32_mono.
  pose proof (intToFloat_mono j k H) as Hjk.
  pose proof (intervalSize_nonneg n) as Hs.
  assert (Float.round32 (intToFloat j * intervalSize n)
          <= Float.round32 (intToFloat k * intervalSize n)) as Hr
    by (apply round32_mono; nra).
  lra.
Qed.

Lemma depthBound_0 (n : nat) : depthBound n 0 = 1.
Proof.
  unfold depthBound.
  assert (intToFloat 0 = 0) as E0 by reflexivity.
  assert (intToFloat 0 * intervalSize n == 0) as E by (rewrite E0; ring).
  rewrite (round32_comp _ 0 E), round32_0.
  rewrite (round32_comp (1 - 0) 1) by ring. apply round32_1.
Qed.

Lemma depthBound_le_1 (n k : nat) : depthBound n k <= 1.
Proof.
  rewrite <- (depthBound_0 n). apply depthBound_mono. lia.
Qed.

Section Slices.

(** The number of intervals, an [int] of at most 24 bits. *)
Variable n : nat.
Hypothesis n_pos : (1 <= n)%nat.
Hypothesis n_small : (Z.of_nat n <= 16777216)%Z.

Lemma count_pos : 1 <= inject_Z (Z.of_nat n).
Proof. change 1 with (inject_Z 1). rewrite <- Zle_Qle. lia. Qed.

Lemma intervalSize_value :
  (1 / inject_Z (Z.of_nat n)) * (1 - (1 # 16777216)) <= intervalSize n
  /\ intervalSize n <= (1 / inject_Z (Z.of_nat n)) * (1 + (1 # 16777216)).
Proof.
  pose proof count_pos as HN.
  set (N := inject_Z (Z.of_nat n)) in *.
  assert (N <= 16777216) as HN2.
  { unfold N. change 16777216 with (inject_Z 16777216). by rewrite <- Zle_Qle. }
  unfold intervalSize. rewrite Nat.max_r by exact n_pos.
  assert (1 / intToFloat n == 1 / N) as E.
  { rewrite intToFloat_exact by exact n_small. reflexivity. }
  rewrite (round32_comp _ _ E).
  apply round32_relative.
  apply Qle_trans with (1 # 16777216);
    [apply Qle_bool_imp_le; vm_compute; reflexivity |].
  apply Qle_shift_div_l; [lra | lra].
Qed.

(** The product [(float) k * intervalSize] before and after its
    rounding. *)
Lemma slice_product (k : nat) :
  (k <= n)%nat ->
  let t := intToFloat k * intervalSize n in
  let ideal := inject_Z (Z.of_nat k) / inject_Z (Z.of_nat n) in
  0 <= ideal /\ ideal <= 1
  /\ ideal * (1 - (1 # 16777216)) <= t /\ t <= ideal * (1 + (1 # 16777216))
  /\ ideal - (1 # 8388608) <= Float.round32 t
  /\ Float.round32 t <= ideal + (1 # 8388608)
  /\ Float.round32 t <= 1.
Proof.
  intros Hk t ideal.
  pose proof count_pos as HN.
  destruct intervalSize_value as [Hs1 Hs2].
  set (N := inject_Z (Z.of_nat n)) in *.
  assert (0 <= inject_Z (Z.of_nat k)) as Hk0.
  { change 0 with (inject_Z 0). rewrite <- Zle_Qle. lia. }
  assert (inject_Z (Z.of_nat k) <= N) as HkN by (by apply inject_Z_of_nat_le).
  assert (intToFloat k == inject_Z (Z.of_nat k)) as Ek.
  { apply intToFloat_exact. lia. }
  assert (ideal * N == inject_Z (Z.of_nat k)) as Eex by (unfold ideal; field; lra).
  assert (1 / N * N == 1) as EN by (field; lra).
  assert (0 <= ideal) as H0 by (unfold ideal; apply Qle_shift_div_l; lra).
  assert (ideal <= 1) as H1 by (unfold ideal; apply Qle_shift_div_r; lra).
  assert (t == inject_Z (Z.of_nat k) * intervalSize n) as Et by (unfold t; by rewrite Ek).
  assert (ideal == inject_Z (Z.of_nat k) * (1 / N)) as Eex2 by (unfold ideal; field; lra).
  assert (ideal * (1 - (1 # 16777216)) <= t) as Ht1 by (rewrite Et, Eex2; nra).
  assert (t <= ideal * (1 + (1 # 16777216))) as Ht2 by (rewrite Et, Eex2; nra).
  assert (0 <= t) as Ht0 by nra.
  assert (t < 2) as Ht3 by nra.
  destruct (round32_error t) as [Hr1 Hr2]; [lra | exact Ht3 |].
  assert (Float.round32 t <= 1) as Hle.
  { assert (t <= 1 + (1 # 16777216)) as Ht4 by nra.
    apply round32_mono in Ht4.
    assert (Float.round32 (1 + (1 # 16777216)) = 1) as E1 by (vm_compute; reflexivity).
    by rewrite E1 in Ht4. }
  repeat split; try assumption; nra.
Qed.

Lemma depthBound_value (k : nat) :
  (k <= n)%nat ->
  let ideal := 1 - inject_Z (Z.of_nat k) / inject_Z (Z.of_nat n) in
  0 <= depthBound n k
  /\ ideal - (1 # 4194304) <= depthBound n k
  /\ depthBound n k <= ideal + (1 # 4194304).
Proof.
  intros Hk ideal.
  destruct (slice_product k Hk) as (H0 & H1 & _ & _ & Hr1 & Hr2 & Hle).
  cbv zeta in *.
  set (a := Float.round32 (intToFloat k * intervalSize n)) in *.
  assert (0 <= a) as Ha.
  { apply round32_nonneg.
    pose proof (intToFloat_nonneg k). pose proof (intervalSize_nonneg n). nra. }
  unfold depthBound. fold a.
  destruct (round32_error (1 - a)) as [He1 He2]; [lra | lra |].
  split; [apply round32_nonneg; lra |].
  unfold ideal. split; lra.
Qed.

End Slices.

(** C7, the claim as stated fails: the slices are computed in single
    precision and do not have the size 1/n exactly.  For the three
    partitions of a scene with one body, the slice of interval 0 is
    wider than 1/3 and the slice of the last interval ends below 1/3;
    for the 41 partitions of a scene with twenty bodies, the slice of
    the last interval does not start at 0. *)
Lemma equal_depth_ranges_counterexample :
  (nIntervals (partitionState oneBody [] []) = 3%nat
   /\ ~ (depthRange 3 0).2 - (depthRange 3 0).1 == 1 / 3
   /\ ~ (depthRange 3 2).2 == 1 / 3)
  /\ (nIntervals (partitionState twentyBodies [] []) = 41%nat
      /\ ~ (depthRange 41 40).1 == 0).
Proof.
  split; [split; [vm_compute; reflexivity | split] | split; [vm_compute; reflexivity |]];
    intros H; vm_compute in H; discriminate.
Qed.

(** C7, amended. Depth-range allocation: [draw] always produces
    n >= 1 partitions, and the interval [k] is given the slice of the
    depth range between the single-precision values of
    [1 - (k+1) * (1/n)] and [1 - k * (1/n)].  Consecutive intervals get
    adjacent slices, from far to near: the slice of interval 0, the
    first one constructed, ends at exactly 1, and the slice of each
    following interval ends where the one before it starts.  For n of
    at most 24 bits the slices lie within [0, 1], each bound is within
    2^-22 of its exact value, and each slice has the size 1/n to within
    2^-21. *)
Theorem equal_depth_ranges renderList orbitPathList annotations (k : nat) :
  let n := nIntervals (partitionState renderList orbitPathList annotations) in
  let inv_n := 1 / inject_Z (Z.of_nat n) in
  (1 <= n)%nat
  /\ n = length (partition renderList orbitPathList annotations)
  /\ (depthRange n 0).2 = 1
  /\ (depthRange n (S k)).2 = (depthRange n k).1
  /\ (depthRange n k).1 <= (depthRange n k).2
  /\ (depthRange n k).2 <= 1
  /\ ((k < n)%nat -> (Z.of_nat n <= 16777216)%Z ->
      0 <= (depthRange n k).1
      /\ Qabs ((depthRange n k).1 - (1 - inject_Z (Z.of_nat (k + 1)) * inv_n))
         <= 1 # 4194304
      /\ Qabs ((depthRange n k).2 - (1 - inject_Z (Z.of_nat k) * inv_n))
         <= 1 # 4194304
      /\ Qabs ((depthRange n k).2 - (depthRange n k).1 - inv_n) <= 1 # 2097152).
Proof.
  intros n inv_n.
  assert (1 <= n)%nat as Hn.
  { subst n. rewrite partition_nIntervals, partition_length. lia. }
  split; [exact Hn |].
  split; [apply partition_nIntervals |].
  unfold depthRange. cbn [fst snd].
  split; [apply depthBound_0 |].
  split; [by replace (S k) with (k + 1)%nat by lia |].
  split; [apply depthBound_mono; lia |].
  split; [apply depthBound_le_1 |].
  intros Hk Hsmall.
  destruct (depthBound_value n Hn Hsmall (k + 1)) as (H0 & H1 & H2); [lia |].
  destruct (depthBound_value n Hn Hsmall k) as (_ & H3 & H4); [lia |].
  cbv zeta in *.
  assert (1 <= inject_Z (Z.of_nat n)) as HN by (by apply count_pos).
  assert (inject_Z (Z.of_nat (k + 1)) == inject_Z (Z.of_nat k) + 1) as E2.
  { rewrite Nat2Z.inj_add, inject_Z_plus. reflexivity. }
  assert (forall j : Q, j / inject_Z (Z.of_nat n) == j * inv_n) as Ediv
    by (intros j; unfold inv_n; field; lra).
  rewrite Ediv in H1, H2, H3, H4.
  split; [exact H0 |].
  split; [apply Qabs_Qle_condition; split; lra |].
  split; [apply Qabs_Qle_condition; split; lra |].
  apply Qabs_Qle_condition. rewrite E2 in H1, H2. split; lra.
Qed.

Lemma equal_depth_ranges_witness :
  let n := nIntervals (partitionState threeBodies [] []) in
  n = 7%nat
  /\ 0 <= (depthRange n 6).1
  /\ Qabs ((depthRange n 6).2 - (depthRange n 6).1 - 1 / 7) <= 1 # 2097152.
Proof.
  intros n. split; [vm_compute; reflexivity |].
  destruct (equal_depth_ranges threeBodies [] [] 6) as (_ & _ & _ & _ & _ & _ & H).
  destruct H as (H0 & _ & _ & H3); [vm_compute; lia | vm_compute; discriminate |].
  split; [exact H0 | exact H3].
Defined.

(** *** The empty render list *)

Lemma MinNearPlaneDistance_pos : 0 < MinNearPlaneDistance.
Proof. reflexivity. Qed.

Lemma defaultFar_neg : defaultFar < 0.
Proof. reflexivity. Qed.


Lemma round32_MinNearPlaneDistance :
  Float.round32 (- MinNearPlaneDistance) = - MinNearPlaneDistance.
Proof. vm_compute. reflexivity. Qed.

(** [0.999f] *)
Lemma float_0_999 :
  0 <= Float.round32 (999 # 1000) /\ Float.round32 (999 # 1000) <= 1.
Proof. split; apply Qle_bool_imp_le; vm_compute; reflexivity. Qed.

(** The clamped near side of an orbit path,
    [min(-MinNearPlaneDistance, o.centerZ + o.radius)]. *)
Lemma minNearDistance_float (o : OrbitPathListEntry) :
  let d := fmin (- MinNearPlaneDistance) (Float.round32 (o_centerZ o + o_radius o)) in
  Float.round32 d = d /\ d <= - MinNearPlaneDistance.
Proof.
  cbv zeta. split; [| apply fmin_le_l].
  unfold fmin. destruct (Qltb _ _).
  - apply round32_idempotent.
  - apply round32_MinNearPlaneDistance.
Qed.


Lemma nearestOrbit_nonpos z orbitPathList :
  z <= 0 -> nearestOrbit z orbitPathList <= 0.
Proof.
  unfold nearestOrbit. revert z.
  induction orbitPathList as [|o l IH]; intros z Hz; simpl; [exact Hz |].
  apply IH. destruct (Qgtb _ z); [| exact Hz].
  destruct (minNearDistance_float o) as [_ H].
  pose proof MinNearPlaneDistance_pos. cbv zeta in H. lra.
Qed.








(** *** Indices and signs *)

Lemma Indexed_snoc l x : Indexed l -> index x = length l -> Indexed (l ++ [x]).
Proof.
  intros Hl Hx k p Hp.
  apply lookup_app_Some in Hp as [Hp | [Hlen Hp]]; [by apply Hl |].
  destruct (k - length l)%nat as [|j] eqn:Ek; simpl in Hp; [| by destruct j].
  inversion Hp; subst p. lia.
Qed.

Lemma Indexed_insert l k p p' :
  Indexed l -> l !! k = Some p -> index p' = index p -> Indexed (<[k := p']> l).
Proof.
  intros Hl Hp Hi j q Hq.
  destruct (decide (j = k)) as [-> | Hne].
  - rewrite list_lookup_insert_eq in Hq by (by eapply lookup_lt_Some).
    inversion Hq; subst q. rewrite Hi. by apply Hl.
  - rewrite list_lookup_insert_ne in Hq by done. by apply Hl.
Qed.

Section Signs.

(** [F] is the far bound from which the scan starts. *)
Variable F : Q.

Lemma HeadFar_snoc l x :
  HeadFar F l -> (l = [] -> p_farZ x <= F) -> HeadFar F (l ++ [x]).
Proof.
  intros Hl Hx p0 Hp. destruct l as [|a l]; simpl in Hp.
  - inversion Hp; subst p0. by apply Hx.
  - by apply Hl.
Qed.

Lemma HeadFar_insert l k p p' :
  HeadFar F l -> l !! k = Some p -> p_farZ p' <= p_farZ p -> HeadFar F (<[k := p']> l).
Proof.
  intros Hl Hp Hle p0 H0. destruct k as [|k].
  - rewrite list_lookup_insert_eq in H0 by (by eapply lookup_lt_Some).
    inversion H0; subst p0. specialize (Hl p Hp). lra.
  - rewrite list_lookup_insert_ne in H0 by done. by apply Hl.
Qed.

Lemma scanEntry_sign st e :
  farZ e <= nearZ e -> nearZ e < 0 -> F <= farZ e ->
  SignInv F st -> SignInv F (scanEntry st e).
Proof.
  intros He1 He2 He3 [Hc Hi Hb [Hp1 Hp2] Hh Hn]. unfold scanEntry.
  destruct (Qgtb (discSizeInPixels e) 1); [| by constructor].
  destruct (startsNewInterval st e) eqn:Hnew.
  - simpl. destruct (Qeq_bool (farZ e) (prevNear st)) eqn:Heq; simpl.
    + apply Qeq_bool_iff in Heq. constructor; simpl.
      * rewrite length_app. simpl. lia.
      * by apply Indexed_snoc.
      * apply Forall_app. split; [exact Hb |].
        apply Forall_singleton. unfold Bounded. simpl. lra.
      * lra.
      * apply HeadFar_snoc; [exact Hh |]. simpl. intros E.
        specialize (Hn E). lra.
      * intros E. by apply app_nil in E as [_ ?].
    + constructor; simpl.
      * rewrite !length_app. simpl. lia.
      * apply Indexed_snoc; [by apply Indexed_snoc |].
        simpl. rewrite length_app. simpl. lia.
      * rewrite !Forall_app. split; [split; [exact Hb |] |];
          apply Forall_singleton; unfold Bounded; simpl; lra.
      * lra.
      * apply HeadFar_snoc.
        -- apply HeadFar_snoc; [exact Hh |]. simpl. intros E. by apply Hn.
        -- intros E. by apply app_nil in E as [_ ?].
      * intros E. by apply app_nil in E as [_ ?].
  - destruct (depthPartitions st !! (nIntervals st - 1)%nat) as [p|] eqn:Hl;
      [| by constructor].
    assert (Bounded F p) as (Hb1 & Hb2 & Hb3 & Hb4).
    { eapply Forall_lookup_1; eauto. }
    pose proof (fmax_cases (p_nearZ p) (nearZ e)) as Hmax.
    pose proof (fmin_cases (p_farZ p) (farZ e)) as Hmin.
    constructor; simpl.
    + by rewrite length_insert.
    + by eapply Indexed_insert.
    + apply Forall_insert; [exact Hb |]. unfold Bounded. simpl.
      destruct Hmax as [[? ->] | [? ->]], Hmin as [[? ->] | [? ->]]; lra.
    + destruct Hmax as [[? ->] | [? ->]]; lra.
    + eapply HeadFar_insert; eauto. simpl. apply fmin_le_l.
    + intros E. apply (f_equal length) in E. rewrite length_insert in E.
      apply lookup_lt_Some in Hl. simpl in E. lia.
Qed.

Lemma fold_scan_sign l st :
  Forall (fun e => farZ e <= nearZ e /\ nearZ e < 0 /\ F <= farZ e) l ->
  SignInv F st -> SignInv F (fold_left scanEntry l st).
Proof.
  revert st. induction l as [|e l IH]; intros st Hl H; simpl; [exact H |].
  inversion Hl as [|? ? (H1 & H2 & H3) Hl']; subst.
  apply IH; [exact Hl' |]. by apply scanEntry_sign.
Qed.

End Signs.

Lemma nearestAnnotation_nonpos z annotations :
  z <= 0 -> (forall a, head annotations = Some a -> 0 <= position_z a) ->
  nearestAnnotation z annotations <= 0.
Proof.
  intros Hz Ha. unfold nearestAnnotation.
  destruct annotations as [|a l]; [exact Hz |].
  specialize (Ha a eq_refl). destruct float_0_999 as [Hc0 Hc1].
  destruct (Qgtb _ z); [| exact Hz].
  apply round32_nonpos. nra.
Qed.

Lemma computeZNearest_nonpos prev orbitPathList annotations :
  prev <= 0 -> (forall a, head annotations = Some a -> 0 <= position_z a) ->
  computeZNearest prev orbitPathList annotations <= 0.
Proof.
  intros Hp Ha. unfold computeZNearest.
  destruct (Qeq_bool _ prev); [lra |].
  apply nearestAnnotation_nonpos; [| exact Ha].
  by apply nearestOrbit_nonpos.
Qed.

Lemma closestBound_nonpos z renderList :
  z <= 0 -> Forall (fun e => farZ e < 0 /\ nearZ e < 0) renderList ->
  closestBound z renderList <= 0.
Proof.
  intros Hz Hl. unfold closestBound.
  destruct renderList as [|e0 l]; [exact Hz |].
  inversion Hl as [|? ? [H1 H2] ?]; subst.
  destruct (Qeq_bool _ 0); [lra |].
  destruct (fmax_cases z (nearZ e0)) as [[? ->] | [? ->]]; lra.
Qed.

Lemma includeFarthestOrbit_lookup parts orbitPathList k p :
  includeFarthestOrbit parts orbitPathList !! k = Some p ->
  exists q, parts !! k = Some q
            /\ index p = index q /\ p_nearZ p = p_nearZ q
            /\ p_farZ p <= p_farZ q
            /\ (k <> 0%nat -> p = q).
Proof.
  unfold includeFarthestOrbit. intros H.
  destruct (last orbitPathList) as [o|].
  - destruct parts as [|p0 rest]; [by rewrite lookup_nil in H |].
    destruct k as [|k]; simpl in H.
    + inversion H; subst p. exists p0. simpl.
      repeat split; [apply fmin_le_l | done].
    + exists p. repeat split; [exact H | lra].
  - exists p. repeat split; [exact H | lra].
Qed.

Lemma scan_sign renderList :
  Forall (fun e => farZ e <= nearZ e /\ nearZ e < 0) renderList ->
  (forall eb, last renderList = Some eb ->
              Forall (fun e => farZ eb <= farZ e) renderList) ->
  scanStart renderList < 0 /\ SignInv (scanStart renderList) (scan renderList).
Proof.
  intros Hwf Hsorted.
  assert (scanStart renderList < 0) as HF.
  { unfold scanStart. destruct (last renderList) as [eb|] eqn:El.
    - apply last_Some_elem_of in El.
      rewrite Forall_forall in Hwf. destruct (Hwf eb El). lra.
    - apply defaultFar_neg. }
  split; [exact HF |].
  unfold scan. fold (scanStart renderList).
  apply fold_scan_sign.
  - apply Forall_rev. rewrite Forall_forall. intros e He.
    rewrite Forall_forall in Hwf. destruct (Hwf e He) as [H1 H2].
    repeat split; [exact H1 | exact H2 |].
    unfold scanStart. destruct (last renderList) as [eb|] eqn:El.
    + specialize (Hsorted eb eq_refl). rewrite Forall_forall in Hsorted.
      specialize (Hsorted e He).
      apply last_Some_elem_of in El. destruct (Hwf eb El). lra.
    + apply last_None in El. subst renderList. by apply elem_of_nil in He.
  - constructor; simpl.
    + reflexivity.
    + intros k p H. by rewrite lookup_nil in H.
    + constructor.
    + lra.
    + intros p0 H. by rewrite lookup_nil in H.
    + lra.
Qed.

(** The indices, for every render list: an invariant of the scan. *)
Lemma scanEntry_indexed st e :
  nIntervals st = length (depthPartitions st) /\ Indexed (depthPartitions st) ->
  nIntervals (scanEntry st e) = length (depthPartitions (scanEntry st e))
  /\ Indexed (depthPartitions (scanEntry st e)).
Proof.
  intros [Hc Hi]. unfold scanEntry.
  destruct (Qgtb (discSizeInPixels e) 1); [| by split].
  destruct (startsNewInterval st e).
  - simpl. destruct (Qeq_bool (farZ e) (prevNear st)); simpl.
    + split; [rewrite length_app; simpl; lia | by apply Indexed_snoc].
    + split; [rewrite !length_app; simpl; lia |].
      apply Indexed_snoc; [by apply Indexed_snoc |].
      simpl. rewrite length_app. simpl. lia.
  - destruct (depthPartitions st !! (nIntervals st - 1)%nat) as [p|] eqn:Hl;
      [| by split].
    simpl. split; [by rewrite length_insert | by eapply Indexed_insert].
Qed.

Lemma scan_indexed renderList :
  nIntervals (scan renderList) = length (depthPartitions (scan renderList))
  /\ Indexed (depthPartitions (scan renderList)).
Proof.
  unfold scan.
  assert (forall l st,
            nIntervals st = length (depthPartitions st) /\ Indexed (depthPartitions st) ->
            nIntervals (fold_left scanEntry l st)
            = length (depthPartitions (fold_left scanEntry l st))
            /\ Indexed (depthPartitions (fold_left scanEntry l st))) as Hfold.
  { induction l as [|e l IH]; intros st H; simpl; [exact H |].
    apply IH, scanEntry_indexed, H. }
  apply Hfold. simpl. split; [reflexivity |].
  intros k p H. by rewrite lookup_nil in H.
Qed.

Lemma partition_indexed renderList orbitPathList annotations :
  Indexed (partition renderList orbitPathList annotations).
Proof.
  destruct (scan_indexed renderList) as [Hc Hi].
  intros k p Hk.
  assert (partition renderList orbitPathList annotations
          = includeFarthestOrbit
              (depthPartitions (scan renderList)
               ++ [mkPartition (nIntervals (scan renderList))
                     (closestBound
                        (computeZNearest (prevNear (scan renderList)) orbitPathList
                                         annotations)
                        renderList)
                     (prevNear (scan renderList))])
              orbitPathList) as E by reflexivity.
  rewrite E in Hk.
  apply includeFarthestOrbit_lookup in Hk as (q & Hq & Ei & _). rewrite Ei.
  eapply Indexed_snoc; [exact Hi | | exact Hq]. simpl. exact Hc.
Qed.

(** The signs, for entries in front of the observer: the bounds stored
    by the scan are negative. *)
Lemma scanEntry_negative st e :
  farZ e < 0 -> nearZ e < 0 ->
  Forall Negative (depthPartitions st) /\ prevNear st < 0 ->
  Forall Negative (depthPartitions (scanEntry st e)) /\ prevNear (scanEntry st e) < 0.
Proof.
  intros He1 He2 [Hb Hp]. unfold scanEntry.
  destruct (Qgtb (discSizeInPixels e) 1); [| by split].
  destruct (startsNewInterval st e).
  - simpl. destruct (Qeq_bool (farZ e) (prevNear st)); simpl.
    + split; [| exact He2]. apply Forall_app. split; [exact Hb |].
      by apply Forall_singleton.
    + split; [| exact He2]. rewrite !Forall_app.
      split; [split; [exact Hb |] |]; by apply Forall_singleton.
  - destruct (depthPartitions st !! (nIntervals st - 1)%nat) as [p|] eqn:Hl;
      [| by split].
    assert (Negative p) as [Hp1 Hp2] by (eapply Forall_lookup_1; eauto).
    pose proof (fmax_cases (p_nearZ p) (nearZ e)) as Hmax.
    pose proof (fmin_le_l (p_farZ p) (farZ e)) as Hmin.
    simpl. split.
    + apply Forall_insert; [exact Hb |]. unfold Negative. simpl.
      destruct Hmax as [[? ->] | [? ->]]; lra.
    + destruct Hmax as [[? ->] | [? ->]]; lra.
Qed.

Lemma scan_negative renderList :
  Forall (fun e => farZ e < 0 /\ nearZ e < 0) renderList ->
  Forall Negative (depthPartitions (scan renderList)) /\ prevNear (scan renderList) < 0.
Proof.
  intros Hwf.
  assert (scanStart renderList < 0) as HF.
  { unfold scanStart. destruct (last renderList) as [eb|] eqn:El.
    - apply last_Some_elem_of in El.
      rewrite Forall_forall in Hwf. destruct (Hwf eb El). lra.
    - apply defaultFar_neg. }
  unfold scan. fold (scanStart renderList).
  apply Forall_rev in Hwf. revert Hwf.
  assert (Forall Negative (depthPartitions (mkScan [] 0 (scanStart renderList)))
          /\ prevNear (mkScan [] 0 (scanStart renderList)) < 0) as H0
    by (split; [constructor | exact HF]).
  revert H0. generalize (mkScan [] 0 (scanStart renderList)).
  induction (rev renderList) as [|e l IH]; intros st H Hl; simpl; [exact H |].
  inversion Hl as [|? ? [H1 H2] Hl']; subst.
  apply IH; [| exact Hl']. by apply scanEntry_negative.
Qed.

(** C9, the claim as stated fails: for three bodies in front of the
    observer, the interval of index 0 is the farthest one, not the
    nearest, and the bounds stored in it are negative z coordinates, not
    positive distances.  Interval 0 is not always the farthest either:
    the render list is sorted by [centerZ - radius] of the body, and
    for a planet with rings and a moon beyond it, the interval of index
    1, expanded to hold the rings, reaches farther than interval 0. *)
Lemma index_and_sign_counterexample :
  (exists p0 plast,
      partition threeBodies [] [] !! 0%nat = Some p0
      /\ last (partition threeBodies [] []) = Some plast
      /\ index p0 = 0%nat
      /\ p_nearZ p0 < p_nearZ plast
      /\ p_farZ p0 < p_farZ plast
      /\ p_nearZ p0 < 0 /\ p_farZ p0 < 0)
  /\ (exists p0 p1,
        partition ringedPlanetAndMoon [] [] !! 0%nat = Some p0
        /\ partition ringedPlanetAndMoon [] [] !! 1%nat = Some p1
        /\ p_nearZ p0 < p_nearZ p1
        /\ p_farZ p1 < p_farZ p0).
Proof.
  split.
  - eexists. eexists. split; [reflexivity |]. split; [reflexivity |].
    vm_compute. repeat split.
  - eexists. eexists. split; [reflexivity |]. split; [reflexivity |].
    vm_compute. repeat split.
Qed.

(** The hypothesis on the closest marker in the amended claim: a marker
    behind the observer has a negative [position.z()], and gives the
    frontmost interval a positive near bound. *)
Lemma marker_behind_observer_near_bound :
  exists plast,
    last (partition threeBodies [] [mkAnnotation (- (1))]) = Some plast
    /\ 0 < p_nearZ plast.
Proof. eexists. split; [reflexivity |]. vm_compute. reflexivity. Qed.

(** C9, amended. The index of an interval is its position in
    construction order, in every partition sequence.  The stored near
    and far bounds are camera-space z coordinates, not distances: when
    the entries of the render list lie in front of the observer
    ([farZ < 0] and [nearZ < 0]) every far bound is negative, every
    near bound but that of the frontmost interval is negative, and the
    near bound of the frontmost interval is negative or zero when the
    closest depth-sorted annotation, if there is one, has
    [position.z() >= 0]; the clip distances handed to the projection
    are the negations of the bounds.  Interval 0 is not the nearest
    interval: when the entries satisfy [farZ <= nearZ < 0] and the last
    entry of the render list has the least [farZ], no interval reaches
    farther than interval 0. *)
Theorem partition_index_and_sign renderList orbitPathList annotations k p :
  partition renderList orbitPathList annotations !! k = Some p ->
  index p = k
  /\ (Forall (fun e => farZ e < 0 /\ nearZ e < 0) renderList ->
      p_farZ p < 0 /\ 0 < farPlaneDistance p
      /\ ((S k < length (partition renderList orbitPathList annotations))%nat ->
          p_nearZ p < 0 /\ 0 < nearPlaneDistance p)
      /\ ((forall a, head annotations = Some a -> 0 <= position_z a) ->
          p_nearZ p <= 0 /\ 0 <= nearPlaneDistance p))
  /\ (Forall (fun e => farZ e <= nearZ e /\ nearZ e < 0) renderList ->
      (forall eb, last renderList = Some eb ->
                  Forall (fun e => farZ eb <= farZ e) renderList) ->
      exists p0, partition renderList orbitPathList annotations !! 0%nat = Some p0
                 /\ p_farZ p0 <= p_farZ p).
Proof.
  intros Hk.
  split; [by apply (partition_indexed renderList orbitPathList annotations) |].
  set (st := scan renderList).
  set (closest :=
         closestBound (computeZNearest (prevNear st) orbitPathList annotations)
                      renderList).
  set (L := depthPartitions st ++ [mkPartition (nIntervals st) closest (prevNear st)]).
  assert (partition renderList orbitPathList annotations
          = includeFarthestOrbit L orbitPathList) as Epart by reflexivity.
  rewrite Epart in *.
  pose proof Hk as Hk'.
  apply includeFarthestOrbit_lookup in Hk as (q & Hq & Ei & En & Ef & Hsame).
  unfold farPlaneDistance, nearPlaneDistance. rewrite En.
  split.
  - (* the signs *)
    intros Hwf.
    destruct (scan_negative renderList Hwf) as [Hb Hp]. fold st in Hb, Hp.
    assert (length L = S (length (depthPartitions st))) as HlenL
      by (unfold L; rewrite length_app; simpl; lia).
    assert (p_farZ q < 0
            /\ ((S k < length L)%nat -> p_nearZ q < 0)
            /\ (closest <= 0 -> p_nearZ q <= 0)) as (Hq1 & Hq2 & Hq3).
    { unfold L in Hq. apply lookup_app_Some in Hq as [Hq | [Hlen Hq]].
      - destruct (Forall_lookup_1 _ _ _ _ Hb Hq) as [H1 H2].
        split; [exact H1 |]. split; intros _; lra.
      - destruct (k - length (depthPartitions st))%nat as [|j] eqn:Ej; simpl in Hq;
          [| by destruct j].
        inversion Hq; subst q. simpl. split; [exact Hp |].
        split; [intros Hlt; lia | auto]. }
    rewrite includeFarthestOrbit_length.
    split; [lra |]. split; [lra |].
    split.
    + intros Hlt. specialize (Hq2 Hlt). lra.
    + intros Hann.
      assert (closest <= 0) as Hclosest.
      { apply closestBound_nonpos; [| exact Hwf].
        apply computeZNearest_nonpos; [lra | exact Hann]. }
      specialize (Hq3 Hclosest). lra.
  - (* interval 0 reaches farthest *)
    intros Hwf Hsorted.
    destruct (scan_sign renderList Hwf Hsorted) as [HF [Hc Hi Hb [Hp1 Hp2] Hh Hn]].
    set (F := scanStart renderList) in *. fold st in Hc, Hi, Hb, Hp1, Hp2, Hh, Hn.
    assert (Forall (fun q => F <= p_farZ q) L) as HbL.
    { apply Forall_app. split.
      - eapply Forall_impl; [exact Hb |]. unfold Bounded. intros q' ?. lra.
      - apply Forall_singleton. simpl. lra. }
    assert (HeadFar F L) as HhL.
    { apply HeadFar_snoc; [exact Hh |]. simpl. exact Hn. }
    assert (exists q0, L !! 0%nat = Some q0) as [q0 Hq0].
    { destruct L as [|q0 ?] eqn:EL; [| by eexists].
      unfold L in EL. by apply app_nil in EL as [_ ?]. }
    assert (exists p0, includeFarthestOrbit L orbitPathList !! 0%nat = Some p0
                       /\ p_farZ p0 <= F) as (p0 & Hp0 & Hp0F).
    { assert (0 < length (includeFarthestOrbit L orbitPathList))%nat as Hlen.
      { rewrite includeFarthestOrbit_length. apply lookup_lt_Some in Hq0. exact Hq0. }
      apply lookup_lt_is_Some_2 in Hlen as [p0 Hp0]. exists p0. split; [exact Hp0 |].
      apply includeFarthestOrbit_lookup in Hp0 as (q' & Hq' & _ & _ & Hle & _).
      specialize (HhL q' Hq'). lra. }
    pose proof (Forall_lookup_1 _ _ _ _ HbL Hq) as HqF. simpl in HqF.
    exists p0. split; [exact Hp0 |].
    destruct (decide (k = 0%nat)) as [-> | Hne].
    + rewrite Hp0 in Hk'. inversion Hk'; subst p0. lra.
    + rewrite (Hsame Hne). lra.
Qed.

Lemma partition_index_and_sign_witness :
  exists p,
    partition threeBodies [] [] !! 2%nat = Some p
    /\ index p = 2%nat
    /\ p_farZ p < 0 /\ 0 < farPlaneDistance p
    /\ p_nearZ p < 0 /\ 0 < nearPlaneDistance p
    /\ exists p0, partition threeBodies [] [] !! 0%nat = Some p0
                  /\ p_farZ p0 <= p_farZ p.
Proof.
  eexists. split; [reflexivity |].
  destruct (partition_index_and_sign threeBodies [] [] 2%nat _ eq_refl)
    as (Hi & Hsign & Hfar).
  assert (Forall (fun e => farZ e < 0 /\ nearZ e < 0) threeBodies) as Hfront
    by (repeat constructor; simpl; lra).
  destruct (Hsign Hfront) as (H1 & H2 & H3 & _).
  destruct H3 as [H3 H4]; [vm_compute; lia |].
  split; [exact Hi |]. split; [exact H1 |]. split; [exact H2 |].
  split; [exact H3 |]. split; [exact H4 |].
  apply Hfar.
  - repeat constructor; simpl; lra.
  - intros eb H. vm_compute in H. inversion H; subst eb.
    repeat constructor; simpl; lra.
Defined.

End DepthFacts.

(** ** Subtree culling *)

Module CullFacts.
Import Vec Cull.

(** C5, the claim as stated fails.  Passing one of the three tests does
    not force the traversal.  A subtree beside the observer whose
    largest child would cover five pixels passes the size threshold and
    is skipped, as its bounding sphere is outside the frustum; and a
    subtree on the view axis, inside the frustum, is skipped, as its
    best case fails both thresholds: its largest child would cover a
    hundredth of a pixel, and without a light source it has no
    brightness (the apparent magnitude that [lumToAppMag] gives to the
    luminosity 0 is above every limit; the scene takes 100). *)
Lemma subtree_three_way_or_counterexample :
  (sceneFrustum (pos_v besideContext) (boundingSphereRadius largeSubtree) = Outside
   /\ bestCaseVisible axisNorm (fun _ _ _ => 0) (fun _ _ => 100) (fun x => x)
                      besideContext largeSubtree = true
   /\ traverseSubtree axisNorm (fun _ _ _ => 0) (fun _ _ => 100) (fun x => x)
                      sceneFrustum besideContext largeSubtree = false)
  /\ (sceneFrustum (pos_v aheadContext) (boundingSphereRadius farSubtree) = Inside
      /\ inFrustum sceneFrustum aheadContext farSubtree = true
      /\ bestCaseVisible axisNorm (fun _ _ _ => 0) (fun _ _ => 100) (fun x => x)
                         aheadContext farSubtree = false
      /\ traverseSubtree axisNorm (fun _ _ _ => 0) (fun _ _ => 100) (fun x => x)
                         sceneFrustum aheadContext farSubtree = false).
Proof. vm_compute. repeat split. Qed.

(** C5, amended. The subtree of a body is traversed exactly when
    either its best-case object passes the limiting-magnitude or the
    one-pixel size threshold and its bounding sphere passes the frustum
    test, or something in it could contribute planetshine to an object
    in the view cone.  It is skipped otherwise: when the best case fails
    both thresholds or the frustum test fails, and no planetshine is
    possible. *)
Theorem subtree_traversal_decision
    (norm : Vector3 -> Q) (luminosityAtOpposition : Q -> Q -> Q -> Q)
    (lumToAppMag : Q -> Q -> Q) (kilometersToLightYears : Q -> Q)
    (testSphere : Vector3 -> Q -> Aspect) (c : CullContext) (subtree : FrameTree) :
  let visible :=
    bestCaseVisible norm luminosityAtOpposition lumToAppMag kilometersToLightYears
                    c subtree in
  let shines := canPlanetshine norm c subtree in
  let traverse :=
    traverseSubtree norm luminosityAtOpposition lumToAppMag kilometersToLightYears
                    testSphere c subtree in
  traverse = (visible && inFrustum testSphere c subtree) || shines
  /\ (traverse = false <->
      (visible = false \/ inFrustum testSphere c subtree = false) /\ shines = false).
Proof.
  intros visible shines traverse.
  assert (traverse = (visible && inFrustum testSphere c subtree) || shines) as E.
  { unfold traverse, traverseSubtree, shines, canPlanetshine.
    fold visible.
    destruct visible, (inFrustum testSphere c subtree),
      (containsSecondaryIlluminators subtree),
      (Qgtb (largestPossible norm c subtree) PLANETSHINE_PIXEL_SIZE_LIMIT),
      (influenceInViewCone c subtree); reflexivity. }
  split; [exact E |].
  rewrite E. rewrite orb_false_iff, andb_false_iff. reflexivity.
Qed.

End CullFacts.

(** ** Eclipse shadows *)

Module EclipseFacts.
Import Vec Eclipse FloatFacts.

Lemma casterQualifies_iff receiver caster now :
  casterQualifies receiver caster now = true
  <-> Float.round32 (getRadius receiver * MinRelativeOccluderRadius) <= getRadius caster
      /\ hasVisibleGeometry caster = true
      /\ extant caster now = true
      /\ isEllipsoid caster = true.
Proof.
  unfold casterQualifies. rewrite !andb_true_iff, Qgeb_ge. tauto.
Qed.

(** The threshold in single precision is below the product of the
    radius of the receiver and 0.005 by a relative 2^-23 at most. *)
Lemma occluder_threshold (radius : Q) :
  1 # 1267650600228229401496703205376 <= radius ->
  radius * (5 # 1000) * (1 - (1 # 8388608))
  <= Float.round32 (radius * MinRelativeOccluderRadius).
Proof.
  intros Hr.
  assert (2 ^ (-126) <= radius * MinRelativeOccluderRadius) as Hn.
  { apply Qle_trans
      with ((1 # 1267650600228229401496703205376) * MinRelativeOccluderRadius).
    - apply Qle_bool_imp_le. vm_compute. reflexivity.
    - unfold MinRelativeOccluderRadius. nra. }
  destruct (round32_relative _ Hn) as [H _].
  unfold MinRelativeOccluderRadius in *. nra.
Qed.

(** C6, the claim as stated fails: the threshold is the product
    [receiver.getRadius() * 0.005f] in single precision, which can be
    less than the radius of the receiver times 0.005.  For a receiver
    of radius 5, a moon of radius [5.0f * 0.005f], less than 0.025, is
    an eclipsing body: [testEclipse] returns true and records a
    shadow. *)
Lemma testEclipse_preconditions_counterexample :
  getRadius smallMoon < getRadius planet * (5 # 1000)
  /\ exists ls,
       testEclipse axisNorm unitX axisDistance dot planet smallMoon
                   EclipseScenes.distantSunOnly 0 0 = (true, ls)
       /\ length (shadows ls 0%nat) = 1%nat.
Proof.
  split; [reflexivity |].
  eexists. split; [vm_compute; reflexivity | reflexivity].
Qed.

(** C6, amended. Eclipse test preconditions: [testEclipse] reports no
    eclipse, returning false and leaving the lighting state (its
    eclipse shadow lists and its ring shadows) as it was, unless the
    radius of the caster is at least the product, in single precision,
    of the radius of the receiver and the threshold [0.005f], the
    caster has visible geometry, the caster exists at the given time
    and the caster is an ellipsoid.  The product in single precision is
    less than the radius of the receiver times 0.005 by a relative
    2^-23 at most: for a receiver of a radius of at least 2^-100, a
    caster of a radius below [radius * 0.005 * (1 - 2^-23)] is never an
    eclipsing body. *)
Theorem testEclipse_preconditions
    (norm : Vector3 -> Q) (normalized : Vector3 -> Vector3)
    (distance : Vector3 -> Vector3 -> Vector3 -> Q) (dot : Vector3 -> Vector3 -> Q)
    (receiver caster : Body) (lightingState : LightingState)
    (lightIndex : nat) (now : Q) :
  (~ (Float.round32 (getRadius receiver * MinRelativeOccluderRadius) <= getRadius caster
      /\ hasVisibleGeometry caster = true
      /\ extant caster now = true
      /\ isEllipsoid caster = true) ->
   testEclipse norm normalized distance dot receiver caster lightingState lightIndex now
   = (false, lightingState))
  /\ (1 # 1267650600228229401496703205376 <= getRadius receiver ->
      getRadius caster < getRadius receiver * (5 # 1000) * (1 - (1 # 8388608)) ->
      testEclipse norm normalized distance dot receiver caster lightingState lightIndex
                  now
      = (false, lightingState)).
Proof.
  assert (~ (Float.round32 (getRadius receiver * MinRelativeOccluderRadius)
             <= getRadius caster
             /\ hasVisibleGeometry caster = true
             /\ extant caster now = true
             /\ isEllipsoid caster = true) ->
          testEclipse norm normalized distance dot receiver caster lightingState
                      lightIndex now
          = (false, lightingState)) as Hmain.
  { intros H. unfold testEclipse.
    destruct (casterQualifies receiver caster now) eqn:E; [| reflexivity].
    apply casterQualifies_iff in E. contradiction. }
  split; [exact Hmain |].
  intros Hr Hc. apply Hmain. intros (H & _).
  pose proof (occluder_threshold (getRadius receiver) Hr). lra.
Qed.

Lemma testEclipse_preconditions_witness :
  testEclipse axisNorm unitX axisDistance dot planet rock noShadows 0 0
  = (false, noShadows)
  /\ testEclipse axisNorm unitX axisDistance dot planet
                 (mkBody (1 # 64) true (fun _ => true) true (fun _ => mkVec 100 0 0)
                         (fun _ => identity) None)
                 noShadows 0 0
     = (false, noShadows).
Proof.
  split.
  - apply (proj1 (testEclipse_preconditions axisNorm unitX axisDistance dot planet rock
                    noShadows 0 0)).
    intros (_ & _ & _ & H). discriminate H.
  - apply (proj2 (testEclipse_preconditions axisNorm unitX axisDistance dot planet _
                    noShadows 0 0)); [discriminate | reflexivity].
Defined.

(** C10. The result of [testEclipse] can disagree with the shadows it
    records: when the preconditions hold, the receiver is within the
    shadow cylinder of the caster and behind the caster as seen from the
    light, [testEclipse] returns true; the shadow is appended to the
    list of the light only if its maximum depth exceeds 1/256, and with
    a maximum depth of at most 1/256 the shadow lists are left as they
    were.  (The caster is at a distance from the surface of the
    receiver, it has an apparent radius and the light has an apparent
    size, so that the quotients of the function are numbers.) *)
Theorem testEclipse_true_without_shadow
    (norm : Vector3 -> Q) (normalized : Vector3 -> Vector3)
    (distance : Vector3 -> Vector3 -> Vector3 -> Q) (dot : Vector3 -> Vector3 -> Q)
    (receiver caster : Body) (lightingState : LightingState)
    (lightIndex : nat) (now : Q) :
  let light := lights lightingState lightIndex in
  let result :=
    testEclipse norm normalized distance dot receiver caster lightingState lightIndex
                now in
  ~ distToCaster norm receiver caster now == 0 ->
  ~ appOccluderRadius norm receiver caster now == 0 ->
  ~ apparentSize light == 0 ->
  casterQualifies receiver caster now = true ->
  withinShadowCylinder norm distance receiver caster light now = true ->
  receiverBehindCaster dot receiver caster light now = true ->
  result.1 = true
  /\ (shadowMaxDepth norm receiver caster light now <= 1 / 256 ->
      shadows result.2 = shadows lightingState)
  /\ (1 / 256 < shadowMaxDepth norm receiver caster light now ->
      shadows result.2 lightIndex
      = shadows lightingState lightIndex
        ++ [eclipseShadow norm normalized receiver caster light now]).
Proof.
  intros light result _ _ _ Hq Hw Hb. unfold result, testEclipse. fold light.
  rewrite Hq, Hw, Hb. cbn [andb].
  change (maxDepth (eclipseShadow norm normalized receiver caster light now))
    with (shadowMaxDepth norm receiver caster light now).
  destruct (Qgtb (shadowMaxDepth norm receiver caster light now) (1 / 256)) eqn:E.
  - apply Qgtb_gt in E.
    destruct (getRings caster) as [rings|];
      [destruct (Qltb _ _) |]; cbn [fst snd shadows];
      (split; [reflexivity |]); (split; [intros H; lra |]); intros _;
      unfold update; by rewrite Nat.eqb_refl.
  - apply Qgtb_le in E.
    destruct (getRings caster) as [rings|];
      [destruct (Qltb _ _) |]; cbn [fst snd shadows];
      (split; [reflexivity |]); (split; [reflexivity |]); intros H; lra.
Qed.

Lemma testEclipse_true_without_shadow_witness :
  let result := testEclipse axisNorm unitX axisDistance dot planet moon noShadows 0 0 in
  shadowMaxDepth axisNorm planet moon sunLight 0 <= 1 / 256
  /\ result.1 = true
  /\ shadows result.2 = shadows noShadows.
Proof.
  assert (shadowMaxDepth axisNorm planet moon sunLight 0 <= 1 / 256) as Hd.
  { vm_compute. discriminate. }
  split; [exact Hd |].
  destruct (testEclipse_true_without_shadow axisNorm unitX axisDistance dot
              planet moon noShadows 0 0) as (H1 & H2 & _).
  - vm_compute. discriminate.
  - vm_compute. discriminate.
  - vm_compute. discriminate.
  - vm_compute. reflexivity.
  - vm_compute. reflexivity.
  - vm_compute. reflexivity.
  - split; [exact H1 | exact (H2 Hd)].
Defined.

End EclipseFacts.

(** ** The orbit sample cache *)

Module OrbitFacts.
Import Vec Orbits.

(** *** Sample plots *)

Lemma popFrontWhile_In f l s : In s (popFrontWhile f l) -> In s l.
Proof.
  induction l as [|a l IH]; simpl; [tauto |].
  destruct (f a); [right; by apply IH | tauto].
Qed.

Lemma popFrontWhile_keeps f l s :
  In s l -> f s = false -> In s (popFrontWhile f l).
Proof.
  intros Hin Hf. induction l as [|a l IH]; simpl in *; [tauto |].
  destruct (f a) eqn:E; [| exact Hin].
  destruct Hin as [-> | Hin]; [congruence | by apply IH].
Qed.

Lemma popFrontWhile_last f l s :
  last l = Some s -> f s = false -> last (popFrontWhile f l) = Some s.
Proof.
  intros Hl Hf. induction l as [|a l IH]; simpl in *; [discriminate |].
  destruct (f a) eqn:E; [| exact Hl].
  destruct l as [|b l]; [simpl in Hl; congruence |]. by apply IH.
Qed.

Lemma popBackWhile_In f l s : In s (popBackWhile f l) -> In s l.
Proof.
  unfold popBackWhile. rewrite <- in_rev. intros H.
  apply popFrontWhile_In in H. by rewrite <- in_rev in H.
Qed.

Lemma popBackWhile_keeps f l s :
  In s l -> f s = false -> In s (popBackWhile f l).
Proof.
  intros Hin Hf. unfold popBackWhile. rewrite <- in_rev.
  apply popFrontWhile_keeps; [by rewrite <- in_rev | exact Hf].
Qed.

Lemma addSample_lastUsed s p : lastUsed (addSample s p) = lastUsed p.
Proof.
  unfold addSample. destruct (samples p); [reflexivity |].
  destruct (Qgtb _ _); [reflexivity |]. by destruct (Qltb _ _).
Qed.

Lemma addSample_keeps s p x : In x (samples p) -> In x (samples (addSample s p)).
Proof.
  unfold addSample. destruct p as [[|a l] u]; cbn [samples]; [intros [] |].
  intros H.
  destruct (Qgtb _ _); cbn [samples]; [apply in_or_app; by left |].
  destruct (Qltb _ _); cbn [samples]; [by right | exact H].
Qed.

Lemma addSample_In s p x :
  In x (samples (addSample s p)) -> x = s \/ In x (samples p).
Proof.
  unfold addSample. destruct p as [[|a l] u]; cbn [samples].
  - intros [<- | []]. by left.
  - destruct (Qgtb _ _); cbn [samples].
    + intros H. apply in_app_or in H as [H | [<- | []]]; [by right | by left].
    + destruct (Qltb _ _); cbn [samples]; [| by right].
      intros [<- | H]; [by left | by right].
Qed.

Lemma addSample_nonempty s p : samples (addSample s p) <> [].
Proof.
  unfold addSample. destruct p as [[|a l] u]; simpl; [done |].
  destruct (Qgtb _ _); simpl; [done |].
  by destruct (Qltb _ _).
Qed.

Lemma insert_lastUsed l p :
  lastUsed (fold_left (fun p s => addSample s p) l p) = lastUsed p.
Proof.
  revert p. induction l as [|a l IH]; intros p; simpl; [reflexivity |].
  by rewrite IH, addSample_lastUsed.
Qed.

Lemma insert_keeps l p x :
  In x (samples p) -> In x (samples (fold_left (fun p s => addSample s p) l p)).
Proof.
  revert p. induction l as [|a l IH]; intros p H; simpl; [exact H |].
  by apply IH, addSample_keeps.
Qed.

Lemma insert_In l p x :
  In x (samples (fold_left (fun p s => addSample s p) l p)) ->
  In x l \/ In x (samples p).
Proof.
  revert p. induction l as [|a l IH]; intros p H; simpl in *; [by right |].
  apply IH in H as [H | H]; [by left; right |].
  apply addSample_In in H as [-> | H]; [by left; left | by right].
Qed.

Lemma updateWindow_lastUsed o E S now p :
  lastUsed (updateWindow o E S now p) = lastUsed p.
Proof.
  unfold updateWindow, slideBackward, slideForward, insertBackward, insertForward.
  destruct (isPeriodic o); [| reflexivity].
  destruct (Qltb _ _); [by rewrite insert_lastUsed |].
  destruct (Qgtb _ _); [by rewrite insert_lastUsed | reflexivity].
Qed.

(** *** The cache across a call *)

Section Calls.

Variable orbitAt : positive -> Orbit.

Lemma renderOrbit_no_shader r orbit now : renderOrbit orbitAt false r orbit now = r.
Proof. reflexivity. Qed.

Lemma renderOrbit_shape r orbit now :
  exists cp,
    lastUsed cp = frameCount r
    /\ renderOrbit orbitAt true r orbit now
       = withCache (scanned true r orbit)
                   (<[orbit := cp]> (orbitCache (scanned true r orbit))).
Proof.
  unfold renderOrbit, scanned, scans. simpl.
  destruct (orbitCache r !! orbit) as [cached|] eqn:El; simpl.
  - destruct (empty (setLastUsed (frameCount r) cached)).
    + eexists. split; [| reflexivity]. reflexivity.
    + eexists. split; [| unfold withCache; simpl; by rewrite insert_insert_eq].
      by rewrite updateWindow_lastUsed.
  - set (cp := insertForward _ _).
    assert (lastUsed cp = frameCount r) as Hcp.
    { unfold cp, insertForward. by rewrite insert_lastUsed. }
    destruct (flushDue r); simpl; destruct (empty cp);
      (eexists; split;
       [| first [reflexivity | unfold withCache; simpl; by rewrite insert_insert_eq]]);
      first [exact Hcp | by rewrite updateWindow_lastUsed].
Qed.

Lemma scanned_frameCount prog r orbit :
  frameCount (scanned prog r orbit) = frameCount r.
Proof. unfold scanned. by destruct (scans prog r orbit). Qed.

Lemma scanned_flush prog r orbit :
  lastOrbitCacheFlush (scanned prog r orbit)
  = if scans prog r orbit then frameCount r else lastOrbitCacheFlush r.
Proof. unfold scanned. by destruct (scans prog r orbit). Qed.

Lemma renderOrbit_frameCount prog r orbit now :
  frameCount (renderOrbit orbitAt prog r orbit now) = frameCount r.
Proof.
  destruct prog; [| reflexivity].
  destruct (renderOrbit_shape r orbit now) as (cp & _ & ->). simpl.
  apply scanned_frameCount.
Qed.

Lemma renderOrbit_flush r orbit now :
  lastOrbitCacheFlush (renderOrbit orbitAt true r orbit now)
  = if scans true r orbit then frameCount r else lastOrbitCacheFlush r.
Proof.
  destruct (renderOrbit_shape r orbit now) as (cp & _ & ->). simpl.
  apply scanned_flush.
Qed.

Lemma scans_flushed r orbit :
  lastOrbitCacheFlush r = frameCount r -> scans true r orbit = false.
Proof.
  intros H. unfold scans, flushDue. rewrite H, Z.eqb_refl. simpl.
  by rewrite !andb_false_r.
Qed.

(** An entry that disappears from the cache was retired by the scan. *)
Lemma renderOrbit_removes prog r orbit now k cp :
  orbitCache r !! k = Some cp ->
  orbitCache (renderOrbit orbitAt prog r orbit now) !! k = None ->
  (OrbitCacheCullThreshold < size (orbitCache r))%nat
  /\ (OrbitCacheRetireAge < age (frameCount r) (lastUsed cp))%Z.
Proof.
  intros Hk Hgone. destruct prog; [| rewrite renderOrbit_no_shader in Hgone; congruence].
  destruct (renderOrbit_shape r orbit now) as (cp' & _ & E).
  rewrite E in Hgone. unfold withCache in Hgone. cbn [orbitCache] in Hgone.
  apply lookup_insert_None in Hgone as [Hgone Hne].
  unfold scanned in Hgone. destruct (scans true r orbit) eqn:Es; [| congruence].
  split.
  - unfold scans, flushDue in Es. rewrite !andb_true_iff in Es.
    destruct Es as [[_ _] [Hsize _]]. by apply Nat.ltb_lt in Hsize.
  - simpl in Hgone. apply map_lookup_filter_None in Hgone as [Hgone | Hgone];
      [congruence |].
    specialize (Hgone cp Hk). unfold retired in Hgone. simpl in Hgone. lia.
Qed.

Lemma age_now frame : age frame frame = 0%Z.
Proof. unfold age. by rewrite Z.sub_diag. Qed.

Lemma flushOldOrbits_fresh r : AllFresh (flushOldOrbits r).
Proof.
  intros k cp H. unfold flushOldOrbits in *. cbn [orbitCache frameCount] in *.
  apply map_lookup_filter_Some in H as [_ H].
  unfold retired in H. cbn [snd] in H. lia.
Qed.

Lemma renderOrbit_fresh prog r orbit now :
  AllFresh (scanned prog r orbit) ->
  AllFresh (renderOrbit orbitAt prog r orbit now).
Proof.
  intros H. destruct prog; [| exact H].
  destruct (renderOrbit_shape r orbit now) as (cp' & Hcp' & E).
  intros k cp Hk. rewrite renderOrbit_frameCount.
  rewrite E in Hk. unfold withCache in Hk. cbn [orbitCache] in Hk.
  apply lookup_insert_Some in Hk as [[_ <-] | [_ Hk]].
  - rewrite Hcp', age_now. unfold OrbitCacheRetireAge. lia.
  - specialize (H k cp Hk). by rewrite scanned_frameCount in H.
Qed.

Lemma scanned_fresh prog r orbit : AllFresh r -> AllFresh (scanned prog r orbit).
Proof.
  intros H. unfold scanned. destruct (scans prog r orbit); [| exact H].
  apply flushOldOrbits_fresh.
Qed.

Lemma renderOrbits_fresh r calls :
  AllFresh r -> AllFresh (renderOrbits orbitAt r calls).
Proof.
  revert r. induction calls as [|[orbit now] calls IH]; intros r H; simpl; [exact H |].
  by apply IH, renderOrbit_fresh, scanned_fresh.
Qed.

Lemma renderOrbits_frameCount r calls :
  frameCount (renderOrbits orbitAt r calls) = frameCount r.
Proof.
  revert r. induction calls as [|[orbit now] calls IH]; intros r; simpl; [reflexivity |].
  by rewrite IH, renderOrbit_frameCount.
Qed.

Lemma countScans_flushed r calls :
  lastOrbitCacheFlush r = frameCount r -> countScans orbitAt r calls = 0%nat.
Proof.
  revert r. induction calls as [|[orbit now] calls IH]; intros r H; simpl; [reflexivity |].
  rewrite (scans_flushed r orbit H). simpl. apply IH.
  by rewrite renderOrbit_flush, renderOrbit_frameCount, (scans_flushed r orbit H).
Qed.

Lemma countScans_once r calls : (countScans orbitAt r calls <= 1)%nat.
Proof.
  revert r. induction calls as [|[orbit now] calls IH]; intros r; simpl; [lia |].
  destruct (scans true r orbit) eqn:Es.
  - rewrite countScans_flushed; [lia |].
    by rewrite renderOrbit_flush, renderOrbit_frameCount, Es.
  - simpl. apply IH.
Qed.

End Calls.

(** *** Eviction *)

(** C4, the claim as stated fails: the scan bounds the age of the
    entries, not their number.  After a frame that requests 201 orbits,
    the request of one more orbit in the next frame runs the scan, which
    retires nothing, and the cache holds 202 entries: more than 200 plus
    the one insertion made since the scan. *)
Lemma eviction_size_bound_counterexample :
  let r := beginFrame crowdedFrame in
  let r' := renderOrbit (fun _ => testOrbit) true r 1000%positive 0 in
  scans true r 1000%positive = true
  /\ size (orbitCache r) = 201%nat
  /\ size (orbitCache r') = 202%nat
  /\ ~ (size (orbitCache r') <= OrbitCacheCullThreshold + 1)%nat.
Proof.
  vm_compute. repeat split. intros H. revert H. apply Nat.lt_nge.
  repeat constructor.
Qed.

(** C4, amended. An entry is removed from the orbit cache by
    [renderOrbit] only when the cache holds more than 200 entries and
    the entry has not been used for more than 16 frames; the calls of
    one frame run the eviction scan at most once; and once a call has
    run the scan, no entry of the cache has an age greater than 16
    frames for the rest of the frame.  (The number of entries is not
    bounded: entries in use are never evicted.) *)
Theorem orbit_cache_eviction_discipline (orbitAt : positive -> Orbit) (r : Renderer) :
  (forall prog orbit now k cp,
      orbitCache r !! k = Some cp ->
      orbitCache (renderOrbit orbitAt prog r orbit now) !! k = None ->
      (200 < size (orbitCache r))%nat
      /\ (16 < age (frameCount r) (lastUsed cp))%Z)
  /\ (forall calls, (countScans orbitAt r calls <= 1)%nat)
  /\ (forall orbit now calls k cp,
        scans true r orbit = true ->
        orbitCache (renderOrbits orbitAt (renderOrbit orbitAt true r orbit now) calls)
          !! k = Some cp ->
        (age (frameCount r) (lastUsed cp) <= 16)%Z).
Proof.
  split; [| split].
  - intros prog orbit now k cp Hk Hgone.
    apply (renderOrbit_removes orbitAt prog r orbit now k cp Hk Hgone).
  - apply countScans_once.
  - intros orbit now calls k cp Hs Hk.
    assert (AllFresh (renderOrbits orbitAt (renderOrbit orbitAt true r orbit now) calls))
      as Hfresh.
    { apply renderOrbits_fresh, renderOrbit_fresh.
      unfold scanned. rewrite Hs. apply flushOldOrbits_fresh. }
    specialize (Hfresh k cp Hk).
    by rewrite renderOrbits_frameCount, renderOrbit_frameCount in Hfresh.
Qed.

Lemma orbit_cache_eviction_discipline_witness :
  let r' := renderOrbit (fun _ => testOrbit) true laterFrame 1000%positive 0 in
  orbitCache laterFrame !! 1%positive = Some (mkPlot window70 1)
  /\ orbitCache r' !! 1%positive = None
  /\ (200 < size (orbitCache laterFrame))%nat
  /\ (16 < age (frameCount laterFrame) 1)%Z
  /\ (countScans (fun _ => testOrbit) laterFrame (requests 1000 3) <= 1)%nat
  /\ scans true laterFrame 1000%positive = true
  /\ orbitCache r' !! 2%positive = Some (mkPlot window70 20)
  /\ (age (frameCount laterFrame) 20 <= 16)%Z.
Proof.
  intros r'.
  destruct (orbit_cache_eviction_discipline (fun _ => testOrbit) laterFrame)
    as (H1 & H2 & H3).
  assert (orbitCache laterFrame !! 1%positive = Some (mkPlot window70 1)) as Hold
    by (vm_compute; reflexivity).
  assert (orbitCache r' !! 1%positive = None) as Hgone by (vm_compute; reflexivity).
  assert (scans true laterFrame 1000%positive = true) as Hs by (vm_compute; reflexivity).
  assert (orbitCache r' !! 2%positive = Some (mkPlot window70 20)) as Hkept
    by (vm_compute; reflexivity).
  destruct (H1 true 1000%positive 0 1%positive _ Hold Hgone) as [Hsize Hage].
  repeat split; try assumption.
  - apply H2.
  - apply (H3 1000%positive 0 [] 2%positive (mkPlot window70 20) Hs Hkept).
Defined.

(** *** Cache hits *)

Section Hits.

Variable orbitAt : positive -> Orbit.

Lemma renderOrbit_config prog r orbit now :
  orbitWindowEnd (renderOrbit orbitAt prog r orbit now) = orbitWindowEnd r
  /\ orbitPeriodsShown (renderOrbit orbitAt prog r orbit now) = orbitPeriodsShown r.
Proof.
  destruct prog; [| by rewrite renderOrbit_no_shader].
  destruct (renderOrbit_shape orbitAt r orbit now) as (cp & _ & ->).
  unfold scanned. by destruct (scans true r orbit).
Qed.


Lemma renderOrbit_hit_settled r orbit now cached :
  orbitCache r !! orbit = Some cached ->
  settled (orbitAt orbit) r now cached ->
  renderOrbit orbitAt true r orbit now
  = withCache r (<[orbit := setLastUsed (frameCount r) cached]> (orbitCache r)).
Proof.
  intros Hhit Hs. unfold renderOrbit. rewrite Hhit. cbn [negb].
  set (cp1 := setLastUsed (frameCount r) cached).
  destruct (empty cp1) eqn:Ee; [reflexivity |].
  assert (updateWindow (orbitAt orbit) (orbitWindowEnd r) (orbitPeriodsShown r)
                       now cp1 = cp1) as ->.
  { unfold updateWindow.
    destruct Hs as [Hs | [Hs | [Hs1 Hs2]]].
    - unfold empty, cp1 in Ee. simpl in Ee. by rewrite Hs in Ee.
    - by rewrite Hs.
    - destruct (isPeriodic (orbitAt orbit)); [| reflexivity].
      change (startTime cp1) with (startTime cached).
      change (endTime cp1) with (endTime cached).
      apply Qltb_ge in Hs1. rewrite Hs1.
      apply Qgtb_le in Hs2. by rewrite Hs2. }
  unfold withCache. cbn [orbitCache frameCount lastOrbitCacheFlush
                         orbitWindowEnd orbitPeriodsShown].
  by rewrite insert_insert_eq.
Qed.



End Hits.




(** *** Sliding the window forward *)

Lemma slideForward_samples o E S now cached :
  samples cached <> [] ->
  newWindowStart o E S now <= endTime cached ->
  let cp' := slideForward o E S now cached in
  (forall s, In s (samples cached) ->
             newWindowStart o E S now <= t s ->
             t s <= endTime cached * (1 - tiny) ->
             In s (samples cp'))
  /\ (forall s, In s (samples cp') ->
                In s (samples cached)
                \/ In s (sample o (endTime cached) (newWindowEnd o E now))).
Proof.
  intros Hne Hstart cp'.
  destruct (last (samples cached)) as [sl|] eqn:Hlast;
    [| apply last_None in Hlast; contradiction].
  assert (endTime cached = t sl) as Hend by (unfold endTime; by rewrite Hlast).
  set (p1 := removeSamplesBefore (newWindowStart o E S now) cached).
  assert (endTime p1 = endTime cached) as Hend1.
  { unfold endTime at 1. unfold p1, removeSamplesBefore. cbn [samples].
    rewrite (popFrontWhile_last _ _ sl Hlast); [by rewrite Hend |].
    apply Qltb_ge. by rewrite <- Hend. }
  assert (fmax (endTime cached) (newWindowStart o E S now) = endTime cached) as Hmax.
  { unfold fmax. apply Qltb_ge in Hstart. by rewrite Hstart. }
  assert (cp' = insertForward (sample o (endTime cached) (newWindowEnd o E now))
                  (removeSamplesAfter (endTime cached * (1 - tiny)) p1)) as ->.
  { unfold cp', slideForward. fold p1. by rewrite Hend1, Hmax. }
  split.
  - intros s Hin H1 H2. apply insert_keeps.
    unfold removeSamplesAfter. cbn [samples].
    apply popBackWhile_keeps; [| by apply Qgtb_le].
    unfold p1, removeSamplesBefore. cbn [samples].
    apply popFrontWhile_keeps; [exact Hin | by apply Qltb_ge].
  - intros s Hin. apply insert_In in Hin as [Hin | Hin]; [by right | left].
    unfold removeSamplesAfter in Hin. cbn [samples] in Hin.
    apply popBackWhile_In in Hin.
    unfold p1, removeSamplesBefore in Hin. cbn [samples] in Hin.
    by apply popFrontWhile_In in Hin.
Qed.

(** C2, the claim as stated fails.  With half a period shown, a forward
    step of 90, smaller than the period of 100, leaves no cached sample
    in place: the only sample that survives the trimming from the front
    is the trailing one, which is trimmed as well, and the whole new
    window from 70 to 160 is sampled anew. *)
Lemma window_slide_counterexample :
  let r1 := renderOrbit (fun _ => testOrbit) true (showing (1 # 2)) 1%positive 0 in
  let r2 := renderOrbit (fun _ => testOrbit) true r1 1%positive 90 in
  exists cp1 cp2,
    orbitCache r1 !! 1%positive = Some cp1
    /\ orbitCache r2 !! 1%positive = Some cp2
    /\ 90 < getPeriod testOrbit
    /\ endTime cp1 < windowEnd testOrbit (1 # 2) 90
    /\ newWindowStart testOrbit (1 # 2) (1 # 2) 90 == 70
    /\ newWindowEnd testOrbit (1 # 2) 90 == 160
    /\ samples (removeSamplesAfter (endTime cp1 * (1 - tiny))
                  (removeSamplesBefore (newWindowStart testOrbit (1 # 2) (1 # 2) 90) cp1))
       = []
    /\ samples cp2 = sample testOrbit 70 160.
Proof.
  eexists. eexists. split; [vm_compute; reflexivity |].
  split; [vm_compute; reflexivity |].
  vm_compute. repeat split.
Qed.

(** C2, amended. Orbit window sliding, forward case: for a periodic
    orbit in the cache whose samples covered the display window of the
    previous query, when the simulation time advances by less than one
    period, at least 0.8 periods are shown (1.0 by default) and the end
    of the desired window [t + period * OrbitWindowEnd] exceeds the end
    of the cached window, [renderOrbit] removes only samples earlier
    than the new window start minus the slack of 20% of the period
    and the trailing sample at the cached end (which the sampling
    duplicates), keeps every other cached sample, those of the new
    display window included, and adds only samples of the orbit taken
    from the old window end to the new window end plus slack: the window
    is not sampled anew. *)
Theorem orbit_window_slides_forward (orbitAt : positive -> Orbit) (r : Renderer)
    (orbit : positive) (now prev : Q) (cached : CurvePlot) :
  let o := orbitAt orbit in
  let E := orbitWindowEnd r in
  let S := orbitPeriodsShown r in
  orbitCache r !! orbit = Some cached ->
  samples cached <> [] ->
  isPeriodic o = true ->
  0 < getPeriod o ->
  4 # 5 <= S ->
  prev <= now -> now < prev + getPeriod o ->
  startTime cached <= windowStart o E S prev ->
  windowEnd o E prev <= endTime cached ->
  endTime cached < windowEnd o E now ->
  exists cp',
    orbitCache (renderOrbit orbitAt true r orbit now) !! orbit = Some cp'
    /\ (forall s, In s (samples cached) ->
                  newWindowStart o E S now <= t s ->
                  t s <= endTime cached * (1 - tiny) ->
                  In s (samples cp'))
    /\ (forall s, In s (samples cached) -> ~ In s (samples cp') ->
                  t s < newWindowStart o E S now
                  \/ endTime cached * (1 - tiny) < t s)
    /\ (forall s, In s (samples cp') ->
                  In s (samples cached)
                  \/ In s (sample o (endTime cached) (newWindowEnd o E now))).
Proof.
  intros o E S Hhit Hne Hper HP HS Hprev Hstep Hcs Hce Hend.
  set (cp1 := setLastUsed (frameCount r) cached).
  assert (getPeriod o * (4 # 5) <= getPeriod o * S) as Hmul by nra.
  assert (newWindowStart o E S now <= endTime cached) as Hnws.
  { unfold newWindowStart, windowStart, windowEnd, WindowSlack in *. lra. }
  assert (startTime cached <= windowStart o E S now) as Hcs'.
  { unfold windowStart, windowEnd in *. lra. }
  assert (updateWindow o E S now cp1 = slideForward o E S now cp1) as Hupd.
  { unfold updateWindow. rewrite Hper.
    change (startTime cp1) with (startTime cached).
    change (endTime cp1) with (endTime cached).
    apply Qltb_ge in Hcs'. rewrite Hcs'.
    apply Qgtb_gt in Hend. by rewrite Hend. }
  exists (slideForward o E S now cp1).
  split.
  - unfold renderOrbit. rewrite Hhit. cbn [negb]. fold cp1.
    assert (empty cp1 = false) as ->.
    { unfold empty, cp1. cbn [samples setLastUsed]. by destruct (samples cached). }
    unfold withCache. cbn [orbitCache]. rewrite lookup_insert_eq.
    fold o E S. by rewrite Hupd.
  - destruct (slideForward_samples o E S now cp1 Hne Hnws) as [Hkeep Hadd].
    change (samples cp1) with (samples cached) in *.
    change (endTime cp1) with (endTime cached) in *.
    split; [exact Hkeep |]. split; [| exact Hadd].
    intros s Hin Hgone.
    destruct (Qlt_le_dec (t s) (newWindowStart o E S now)) as [H1 | H1]; [by left |].
    destruct (Qlt_le_dec (endTime cached * (1 - tiny)) (t s)) as [H2 | H2];
      [by right |].
    exfalso. apply Hgone. by apply Hkeep.
Qed.

Lemma orbit_window_slides_forward_witness :
  exists cp1 cp2,
    orbitCache firstQuery !! 1%positive = Some cp1
    /\ orbitCache secondQuery !! 1%positive = Some cp2
    /\ startTime cp1 <= - (50) /\ 50 <= endTime cp1
    /\ (forall s, In s (samples cp1) -> 10 <= t s -> t s <= 50 -> In s (samples cp2))
    /\ (forall s, In s (samples cp2) ->
                  In s (samples cp1)
                  \/ In s (sample testOrbit (endTime cp1)
                                  (newWindowEnd testOrbit (1 # 2) 60)))
    /\ newWindowEnd testOrbit (1 # 2) 60 == 130
    /\ 110 <= endTime cp2.
Proof.
  set (cp1 := mkPlot (map sampleAt (uniformTimes (- (70)) 70 10 64)) 0).
  set (cp2 := mkPlot (map sampleAt (uniformTimes (- (10)) 130 10 64)) 0).
  assert (orbitCache firstQuery !! 1%positive = Some cp1) as Hhit
    by (vm_compute; reflexivity).
  assert (orbitCache secondQuery !! 1%positive = Some cp2) as Hsecond
    by (vm_compute; reflexivity).
  assert (orbitWindowEnd firstQuery = 1 # 2) as HE by (vm_compute; reflexivity).
  assert (orbitPeriodsShown firstQuery = 1) as HS by (vm_compute; reflexivity).
  destruct (orbit_window_slides_forward (fun _ => testOrbit) firstQuery 1%positive
              60 0 cp1) as (cp' & Hcp' & Hkeep & _ & Hadd).
  - exact Hhit.
  - discriminate.
  - reflexivity.
  - reflexivity.
  - rewrite HS. discriminate.
  - discriminate.
  - reflexivity.
  - rewrite HE, HS. vm_compute. discriminate.
  - rewrite HE. vm_compute. discriminate.
  - rewrite HE. vm_compute. reflexivity.
  - fold secondQuery in Hcp'. rewrite Hsecond in Hcp'. inversion Hcp'; subst cp'.
    rewrite HE, HS in Hkeep. rewrite HE in Hadd. cbv beta in Hkeep, Hadd.
    exists cp1, cp2.
    split; [exact Hhit |]. split; [exact Hsecond |].
    split; [vm_compute; discriminate |]. split; [vm_compute; discriminate |].
    split; [| split; [| split]].
    + intros s Hin H10 H50. apply Hkeep; [exact Hin | |].
      * apply Qle_trans with (2 := H10). vm_compute. discriminate.
      * apply Qle_trans with (1 := H50). vm_compute. discriminate.
    + exact Hadd.
    + vm_compute. reflexivity.
    + vm_compute. discriminate.
Defined.

End OrbitFacts.

(** ** Frustum culling *)

Module CullingFacts.
Import Vec Depth Cull Culling FloatFacts DepthFacts.

Section Facts.

Variable norm : Vector3 -> Q.
Variable sqrt : Q -> Q.
Variable toCamera : Vector3 -> Vector3.
Variable testSphere : Vector3 -> Q -> Aspect.
Variables cosHalfFov windowWidth windowHeight extinction : Q.

Lemma clampedNearZ_bound center radius :
  clampedNearZ norm sqrt cosHalfFov windowWidth windowHeight center radius
  <= - MinNearPlaneDistance.
Proof.
  unfold clampedNearZ. destruct (Qgtb _ _) eqn:E.
  - pose proof (fmax_ge_l MinNearPlaneDistance (radius / 2000)). lra.
  - by apply Qgtb_le in E.
Qed.

(** [MaxFarNearRatio * 0.5f] *)
Lemma half_ratio : Float.round32 (MaxFarNearRatio * (1 # 2)) = 1000000.
Proof. vm_compute. reflexivity. Qed.

(** Far and near bounds after the adjustment of the near bound of a
    non-convex object: the near bound stays behind the minimum near
    plane distance, and the far bound is at most 1000000 times as far
    as the near bound, up to the rounding of the quotients. *)
Lemma ratio_adjust (nearZ farZ : Q) :
  nearZ <= - MinNearPlaneDistance ->
  adjustedNearZ nearZ farZ <= - MinNearPlaneDistance
  /\ - farZ <= 1000000 * (1 + (1 # 8388608)) * - adjustedNearZ nearZ farZ.
Proof.
  intros Hn. pose proof MinNearPlaneDistance_pos as Hm.
  assert (2 ^ (-126) <= MinNearPlaneDistance) as Hnormal
    by (apply Qle_bool_imp_le; vm_compute; reflexivity).
  assert (~ nearZ == 0) as Hnz by lra.
  assert (farZ == farZ / nearZ * nearZ) as Hf by (field; exact Hnz).
  unfold adjustedNearZ. rewrite half_ratio.
  destruct (Qgtb _ _) eqn:E.
  - apply Qgtb_gt in E.
    assert (1000000 < farZ / nearZ) as Hratio.
    { destruct (Qlt_le_dec 1000000 (farZ / nearZ)) as [H | H]; [exact H |].
      apply round32_mono in H.
      assert (Float.round32 1000000 = 1000000) as E1 by (vm_compute; reflexivity).
      rewrite E1 in H. lra. }
    assert (farZ == farZ / 1000000 * 1000000) as Ey by field.
    set (y := farZ / 1000000) in *.
    assert (y < nearZ) as Hq by nra.
    split.
    + rewrite <- round32_MinNearPlaneDistance. apply round32_mono. lra.
    + assert (2 ^ (-126) <= - y) as Hbig by lra.
      destruct (round32_relative _ Hbig) as [Hr _].
      rewrite round32_opp in Hr.
      set (adjusted := Float.round32 y) in *. nra.
  - apply Qgtb_le in E. split; [exact Hn |].
    destruct (Qlt_le_dec (farZ / nearZ) 1) as [Hsmall | Hlarge]; [nra |].
    assert (2 ^ (-126) <= farZ / nearZ) as Hbig by lra.
    destruct (round32_relative _ Hbig) as [Hr _]. nra.
Qed.

End Facts.

Lemma kept_entry_near_plane_aux
    (norm : Vector3 -> Q) (sqrt : Q -> Q) (toCamera : Vector3 -> Vector3)
    (testSphere : Vector3 -> Q -> Aspect)
    (cosHalfFov windowWidth windowHeight extinction : Q)
    (it : RenderItem) (e : RenderListEntry) :
  cullItem norm sqrt toCamera testSphere cosHalfFov windowWidth windowHeight
           extinction it = Some e ->
  nearZ e <= - MinNearPlaneDistance.
Proof.
  intros H. unfold cullItem in H.
  destruct (shape extinction it) as [[[radius cullRadius] convex] cloud].
  destruct (negb _); [| discriminate].
  pose proof (clampedNearZ_bound norm sqrt cosHalfFov windowWidth windowHeight
                (toCamera (position it)) radius) as Hc.
  destruct convex; cbn [negb] in H.
  - inversion H; subst e. exact Hc.
  - inversion H; subst e. cbn [nearZ].
    apply (ratio_adjust _ (Float.round32 (vz (toCamera (position it)) - radius)) Hc).
Qed.

(** X1. Every entry that survives the frustum culling has its near
    bound at or beyond the minimum near plane distance: the near plane
    of an object is never closer than [MinNearPlaneDistance].  (The
    window is assumed to have a size, so that the diagonal [maxSpan] is
    not zero.) *)
Theorem kept_entry_near_plane
    (norm : Vector3 -> Q) (sqrt : Q -> Q) (toCamera : Vector3 -> Vector3)
    (testSphere : Vector3 -> Q -> Aspect)
    (cosHalfFov windowWidth windowHeight extinction : Q)
    (it : RenderItem) (e : RenderListEntry) :
  ~ sqrt (square windowWidth + square windowHeight) == 0 ->
  cullItem norm sqrt toCamera testSphere cosHalfFov windowWidth windowHeight
           extinction it = Some e ->
  nearZ e <= - MinNearPlaneDistance /\ MinNearPlaneDistance <= - nearZ e.
Proof.
  intros _ H.
  assert (nearZ e <= - MinNearPlaneDistance) as Hn
    by (eapply kept_entry_near_plane_aux; exact H).
  split; [exact Hn | lra].
Qed.

Lemma kept_entry_near_plane_witness :
  exists e,
    cullItem depthNorm (fun x => x) (fun v => v) (fun _ _ => Inside) 1 0 1 0
             closeMark = Some e
    /\ nearZ e <= - MinNearPlaneDistance /\ MinNearPlaneDistance <= - nearZ e.
Proof.
  eexists. split; [vm_compute; reflexivity |].
  eapply (kept_entry_near_plane depthNorm (fun x => x) (fun v => v)
            (fun _ _ => Inside) 1 0 1 0 closeMark).
  - vm_compute. discriminate.
  - vm_compute. reflexivity.
Defined.

(** X2. For an object that is not convex (a comet tail, a reference
    mark, a body with rings or of irregular shape) the culling sets the
    near bound so that the ratio of the far to the near plane distance
    does not exceed half of [MaxFarNearRatio] by more than the rounding
    of the quotients in single precision, a relative 2^-23. *)
Theorem nonconvex_far_near_ratio
    (norm : Vector3 -> Q) (sqrt : Q -> Q) (toCamera : Vector3 -> Vector3)
    (testSphere : Vector3 -> Q -> Aspect)
    (cosHalfFov windowWidth windowHeight extinction : Q)
    (it : RenderItem) (e : RenderListEntry) :
  ~ sqrt (square windowWidth + square windowHeight) == 0 ->
  cullItem norm sqrt toCamera testSphere cosHalfFov windowWidth windowHeight
           extinction it = Some e ->
  isConvex extinction it = false ->
  - farZ e <= MaxFarNearRatio * (1 # 2) * (1 + (1 # 8388608)) * - nearZ e.
Proof.
  intros _ H Hconvex.
  unfold cullItem in H. unfold isConvex in Hconvex.
  destruct (shape extinction it) as [[[radius cullRadius] convex] cloud].
  cbn in Hconvex. subst convex.
  destruct (negb _); [| discriminate].
  cbn [negb] in H. inversion H; subst e. cbn [nearZ farZ].
  pose proof (clampedNearZ_bound norm sqrt cosHalfFov windowWidth windowHeight
                (toCamera (position it)) radius) as Hc.
  destruct (ratio_adjust _ (Float.round32 (vz (toCamera (position it)) - radius)) Hc)
    as [_ Hr].
  unfold MaxFarNearRatio. lra.
Qed.

Lemma nonconvex_far_near_ratio_witness :
  (exists e,
      cullItem depthNorm (fun x => x) (fun v => v) (fun _ _ => Inside) 1 0 1 0
               ringedPlanet = Some e
      /\ - farZ e <= MaxFarNearRatio * (1 # 2) * (1 + (1 # 8388608)) * - nearZ e)
  /\ (exists e,
        cullItem depthNorm (fun _ => 5) (fun v => v) (fun _ _ => Intersect)
                 (1 # 2) 3 4 0 grazedMark = Some e
        /\ 1000000 * - nearZ e < - farZ e
        /\ - farZ e <= MaxFarNearRatio * (1 # 2) * (1 + (1 # 8388608)) * - nearZ e).
Proof.
  split.
  - eexists. split; [vm_compute; reflexivity |].
    eapply (nonconvex_far_near_ratio depthNorm (fun x => x) (fun v => v)
              (fun _ _ => Inside) 1 0 1 0 ringedPlanet).
    + vm_compute. discriminate.
    + vm_compute. reflexivity.
    + reflexivity.
  - eexists. split; [vm_compute; reflexivity |].
    split; [vm_compute; reflexivity |].
    eapply (nonconvex_far_near_ratio depthNorm (fun _ => 5) (fun v => v)
              (fun _ _ => Intersect) (1 # 2) 3 4 0 grazedMark).
    + vm_compute. discriminate.
    + vm_compute. reflexivity.
    + reflexivity.
Defined.

End CullingFacts.

(** ** The intervals and the objects *)

Module IntervalFacts.
Import Vec Depth DepthFacts Passes.

Lemma Covered_app l l' e : Covered l e -> Covered (l ++ l') e.
Proof.
  intros (k & p & Hk & Hc). exists k, p. split; [| exact Hc].
  by apply lookup_app_l_Some.
Qed.

Lemma Covered_snoc l p e : Contains p e -> Covered (l ++ [p]) e.
Proof.
  intros Hc. exists (length l), p. split; [| exact Hc].
  by rewrite lookup_app_r, Nat.sub_diag.
Qed.

Lemma Covered_insert l k p p' e :
  l !! k = Some p ->
  p_farZ p' <= p_farZ p -> p_nearZ p <= p_nearZ p' ->
  Covered l e -> Covered (<[k := p']> l) e.
Proof.
  intros Hk Hf Hn (j & q & Hj & [Hq1 Hq2]).
  destruct (decide (j = k)) as [-> | Hne].
  - exists k, p'. rewrite Hk in Hj. inversion Hj; subst q.
    split; [apply list_lookup_insert_eq; by eapply lookup_lt_Some |].
    unfold Contains. split; lra.
  - exists j, q. split; [by rewrite list_lookup_insert_ne | by split].
Qed.

Lemma scanEntry_keeps st a e :
  Covered (depthPartitions st) e -> Covered (depthPartitions (scanEntry st a)) e.
Proof.
  intros H. unfold scanEntry.
  destruct (Qgtb (discSizeInPixels a) 1); [| exact H].
  destruct (startsNewInterval st a).
  - simpl. destruct (negb _); simpl; repeat apply Covered_app; exact H.
  - destruct (depthPartitions st !! (nIntervals st - 1)%nat) as [p|] eqn:Hl;
      [| exact H].
    simpl. eapply Covered_insert; eauto; simpl.
    + apply fmin_le_l.
    + apply fmax_ge_l.
Qed.

Lemma scanEntry_covers st a :
  isLarge a = true -> Covered (depthPartitions (scanEntry st a)) a.
Proof.
  unfold isLarge. intros Hbig. unfold scanEntry. rewrite Hbig.
  destruct (startsNewInterval st a) eqn:Hnew.
  - simpl. apply Covered_snoc. unfold Contains. simpl. lra.
  - unfold startsNewInterval in Hnew.
    destruct (nIntervals st) as [|k] eqn:Ek; [discriminate |].
    replace (S k - 1)%nat with k by lia.
    destruct (depthPartitions st !! k) as [p|] eqn:Hl; [| discriminate].
    simpl. exists k. eexists.
    split; [apply list_lookup_insert_eq; by eapply lookup_lt_Some |].
    unfold Contains. simpl. split; [apply fmin_le_r | apply fmax_ge_r].
Qed.

Lemma fold_scan_covers l st e :
  Covered (depthPartitions st) e \/ (In e l /\ isLarge e = true) ->
  Covered (depthPartitions (fold_left scanEntry l st)) e.
Proof.
  revert st. induction l as [|a l IH]; intros st H; simpl.
  - destruct H as [H | [[] _]]. exact H.
  - apply IH. destruct H as [H | [[-> | Hin] Hbig]].
    + left. by apply scanEntry_keeps.
    + left. by apply scanEntry_covers.
    + right. by split.
Qed.

Lemma includeFarthestOrbit_covers parts orbitPathList e :
  Covered parts e -> Covered (includeFarthestOrbit parts orbitPathList) e.
Proof.
  intros (k & p & Hk & [H1 H2]). unfold includeFarthestOrbit.
  destruct (last orbitPathList) as [o|]; [| by exists k, p].
  destruct parts as [|p0 rest]; [by rewrite lookup_nil in Hk |].
  destruct k as [|k]; simpl in Hk.
  - inversion Hk; subst p0. exists 0%nat. eexists. split; [reflexivity |].
    unfold Contains. simpl. split; [| exact H2].
    pose proof (fmin_le_l (p_farZ p) (Float.round32 (o_centerZ o - o_radius o))). lra.
  - exists (S k), p. by split.
Qed.

(** X3. Never split an object across two intervals: every entry of the
    render list that is larger than a pixel lies, with its whole depth
    extent from [farZ] to [nearZ], inside one of the intervals that the
    partitioning produces. *)
Theorem large_entry_in_one_interval renderList orbitPathList annotations e :
  In e renderList ->
  1 < discSizeInPixels e ->
  exists k p,
    partition renderList orbitPathList annotations !! k = Some p
    /\ p_farZ p <= farZ e /\ nearZ e <= p_nearZ p.
Proof.
  intros Hin Hbig.
  assert (Covered (partition renderList orbitPathList annotations) e) as H.
  { unfold partition, partitionState. simpl.
    apply includeFarthestOrbit_covers, Covered_app.
    unfold scan. apply fold_scan_covers. right.
    split; [by rewrite <- in_rev | by apply Qgtb_gt]. }
  destruct H as (k & p & Hk & Hc). by exists k, p.
Qed.

Lemma large_entry_in_one_interval_witness :
  exists k p,
    partition threeBodies [] [] !! k = Some p
    /\ p_farZ p <= - (10) /\ - (5) <= p_nearZ p.
Proof.
  apply (large_entry_in_one_interval threeBodies [] []
           (mkEntry (- (15 # 2)) (5 # 2) (- (5)) (- (10)) 2)).
  - right. left. reflexivity.
  - reflexivity.
Defined.

Lemma scanEntry_length st a :
  (length (depthPartitions (scanEntry st a))
   <= length (depthPartitions st) + (if isLarge a then 2 else 0))%nat.
Proof.
  unfold scanEntry, isLarge. destruct (Qgtb (discSizeInPixels a) 1); [| lia].
  destruct (startsNewInterval st a).
  - simpl. destruct (negb _); simpl; rewrite ?length_app; simpl; lia.
  - destruct (depthPartitions st !! _); simpl; rewrite ?length_insert; lia.
Qed.

Lemma fold_scan_length l st :
  (length (depthPartitions (fold_left scanEntry l st))
   <= length (depthPartitions st) + 2 * length (List.filter isLarge l))%nat.
Proof.
  revert st. induction l as [|a l IH]; intros st; simpl; [lia |].
  specialize (IH (scanEntry st a)). pose proof (scanEntry_length st a).
  destruct (isLarge a); simpl; lia.
Qed.

Lemma filter_rev_length {A} (f : A -> bool) (l : list A) :
  length (List.filter f (rev l)) = length (List.filter f l).
Proof.
  induction l as [|a l IH]; simpl; [reflexivity |].
  rewrite List.filter_app, length_app, IH. simpl.
  destruct (f a); simpl; lia.
Qed.

(** X4. The number of depth intervals is at least one and at most
    twice the number of render-list entries larger than a pixel, plus
    one: sub-pixel objects never add an interval. *)
Theorem interval_count_bound renderList orbitPathList annotations :
  (1 <= length (partition renderList orbitPathList annotations)
   <= 2 * length (List.filter isLarge renderList) + 1)%nat.
Proof.
  rewrite partition_length. unfold scan.
  pose proof (fold_scan_length (rev renderList)
                (mkScan [] 0 (scanStart renderList))) as H.
  rewrite filter_rev_length in H. simpl in H.
  unfold scanStart in H. lia.
Qed.

(** *** The passes *)


Lemma walked_unwalked nearZ pending :
  walked nearZ pending ++ unwalked nearZ pending = pending.
Proof.
  induction pending as [|it l IH]; simpl; [reflexivity |].
  destruct (Qltb _ _); simpl; [by rewrite IH | reflexivity].
Qed.

Lemma inTransparentPass_negb it : inTransparentPass it = negb (inOpaquePass it).
Proof.
  unfold inTransparentPass, inOpaquePass, Qgtb, Qltb.
  destruct (isOpaque it), (Qle_bool _ _); reflexivity.
Qed.

Lemma two_passes (l : list DrawItem) :
  List.filter inOpaquePass l ++ List.filter inTransparentPass l ≡ₚ l.
Proof.
  induction l as [|it l IH]; simpl; [reflexivity |].
  rewrite inTransparentPass_negb. destruct (inOpaquePass it); simpl.
  - by rewrite IH.
  - rewrite <- Permutation_middle. by rewrite IH.
Qed.

Lemma annotations_split nearDist annotations :
  annotationsBeyond nearDist annotations ++ annotationsLeft nearDist annotations
  = annotations.
Proof.
  induction annotations as [|a l IH]; simpl; [reflexivity |].
  destruct (Qgtb _ _); simpl; [by rewrite IH | reflexivity].
Qed.

Lemma drawIntervals_once font orbitPathList parts interval pending annotations :
  let result := drawIntervals font orbitPathList parts interval pending annotations in
  concat (map rendered result.1) ++ result.2.1 ≡ₚ pending
  /\ concat (map annotationPass result.1) ++ result.2.2 = annotations.
Proof.
  revert interval pending annotations.
  induction parts as [|p parts IH]; intros interval pending annotations; simpl.
  - split; reflexivity.
  - destruct (renderSortedAnnotations font annotations (nearPlaneDistance p))
      as [shown annotations'] eqn:Ea.
    specialize (IH (S interval) (unwalked (p_nearZ p) pending) annotations').
    destruct (drawIntervals _ _ _ _ _ _) as [rest [items left]].
    simpl in *. destruct IH as [IH1 IH2]. split.
    + unfold rendered at 1. simpl. rewrite <- app_assoc, IH1, two_passes.
      by rewrite walked_unwalked.
    + rewrite <- app_assoc, IH2.
      unfold renderSortedAnnotations in Ea. destruct font.
      * inversion Ea; subst. apply annotations_split.
      * inversion Ea; subst. reflexivity.
Qed.

Lemma drawPasses_permutation font renderList orbitPathList annotations :
  let result := drawPasses font renderList orbitPathList annotations in
  concat (map rendered result.1) ++ result.2.1 ≡ₚ renderList.
Proof.
  intros result.
  destruct (drawIntervals_once font orbitPathList
              (partition (map entry renderList) orbitPathList annotations)
              0 (rev renderList) annotations) as [H _].
  fold (drawPasses font renderList orbitPathList annotations) in H.
  fold result in H. rewrite H. symmetry. apply Permutation_rev.
Qed.

(** X5. No object is rendered twice: over all the depth intervals of a
    frame, the entries rendered in the opaque pass and in the
    transparent pass, together with the entries that no interval has
    reached, are the entries of the render list, each one once. *)
Theorem entries_rendered_once font renderList orbitPathList annotations :
  let result := drawPasses font renderList orbitPathList annotations in
  concat (map rendered result.1) ++ result.2.1 ≡ₚ renderList.
Proof.
  intros result.
  destruct (drawIntervals_once font orbitPathList
              (partition (map entry renderList) orbitPathList annotations)
              0 (rev renderList) annotations) as [H _].
  fold (drawPasses font renderList orbitPathList annotations) in H.
  fold result in H. rewrite H. symmetry. apply Permutation_rev.
Qed.

(** X6. The depth-sorted annotations are rendered in their order, each
    one in at most one interval: the annotations rendered for the
    successive intervals, followed by the ones left over, are the list
    of annotations; without a font none is rendered. *)
Theorem annotations_rendered_in_order font renderList orbitPathList annotations :
  let result := drawPasses font renderList orbitPathList annotations in
  concat (map annotationPass result.1) ++ result.2.2 = annotations
  /\ concat (map annotationPass
               (drawPasses false renderList orbitPathList annotations).1) = [].
Proof.
  intros result. split.
  - apply (drawIntervals_once font orbitPathList
             (partition (map entry renderList) orbitPathList annotations)
             0 (rev renderList) annotations).
  - unfold drawPasses.
    generalize (partition (map entry renderList) orbitPathList annotations).
    generalize 0%nat (rev renderList) annotations.
    intros k pending anns parts. revert k pending anns.
    induction parts as [|p parts IH]; intros k pending anns; simpl; [reflexivity |].
    specialize (IH (S k) (unwalked (p_nearZ p) pending) anns).
    destruct (drawIntervals _ _ _ _ _ _) as [rest left]. simpl in *. exact IH.
Qed.

Lemma Ascending_rev renderList :
  StronglySorted (fun a b => farZ (entry b) <= farZ (entry a)) renderList ->
  Ascending (rev renderList).
Proof.
  unfold Ascending. induction 1 as [|a l Hl IH Ha]; simpl; [constructor |].
  apply StronglySorted_app_2; [| exact IH | repeat constructor].
  intros x1 x2 H1 H2. apply list_elem_of_singleton in H2. subst x2.
  rewrite Forall_forall in Ha. apply Ha.
  apply list_elem_of_In in H1. apply list_elem_of_In. by apply in_rev.
Qed.

Lemma unwalked_suffix nearZ pending : unwalked nearZ pending `suffix_of` pending.
Proof.
  exists (walked nearZ pending). by rewrite walked_unwalked.
Qed.

Lemma Ascending_unwalked nearZ pending :
  Ascending pending -> Ascending (unwalked nearZ pending).
Proof.
  unfold Ascending. intros H.
  rewrite <- (walked_unwalked nearZ pending) in H.
  by apply StronglySorted_app_1_r in H.
Qed.

Lemma unwalked_bound nearZ pending :
  Ascending pending ->
  Forall (fun it => nearZ <= farZ (entry it)) (unwalked nearZ pending).
Proof.
  unfold Ascending. induction 1 as [|a l Hl IH Ha]; simpl; [constructor |].
  destruct (Qltb _ _) eqn:E; [exact IH |].
  apply Qltb_ge in E. constructor; [exact E |].
  eapply Forall_impl; [exact Ha |]. simpl. intros x Hx. lra.
Qed.

Lemma walked_bound nearZ pending :
  Forall (fun it => farZ (entry it) < nearZ) (walked nearZ pending).
Proof.
  induction pending as [|a l IH]; simpl; [constructor |].
  destruct (Qltb _ _) eqn:E; [| constructor].
  constructor; [by apply Qltb_lt | exact IH].
Qed.

Lemma unwalked_all nearZ pending :
  Forall (fun it => farZ (entry it) < nearZ) pending -> unwalked nearZ pending = [].
Proof.
  induction 1 as [|a l Ha Hl IH]; simpl; [reflexivity |].
  apply Qltb_lt in Ha. by rewrite Ha.
Qed.

Lemma rendered_walked passes items it :
  rendered passes = List.filter inOpaquePass items ++ List.filter inTransparentPass items ->
  In it (rendered passes) -> In it items.
Proof.
  intros -> H. apply in_app_or in H as [H | H]; by apply List.filter_In in H as [H _].
Qed.

Lemma NoGap_tail p parts : NoGap (p :: parts) -> NoGap parts.
Proof. intros H i a b Ha Hb. apply (H (S i) a b); assumption. Qed.

Lemma drawIntervals_bounds font orbitPathList parts interval pending annotations L :
  NoGap parts ->
  (forall p0, parts !! 0%nat = Some p0 -> p_farZ p0 <= L) ->
  Ascending pending ->
  Forall (fun it => L <= farZ (entry it)) pending ->
  forall passes it,
    In passes (drawIntervals font orbitPathList parts interval pending annotations).1 ->
    In it (rendered passes) ->
    exists j p,
      p_interval passes = (interval + j)%nat /\ parts !! j = Some p
      /\ p_farZ p <= farZ (entry it) /\ farZ (entry it) < p_nearZ p.
Proof.
  revert interval pending annotations L.
  induction parts as [|p parts IH];
    intros interval pending annotations L Hgap Hhead Hasc Hlow passes it Hin Hit;
    simpl in Hin; [destruct Hin |].
  destruct (renderSortedAnnotations font annotations (nearPlaneDistance p))
    as [shown annotations'].
  destruct (drawIntervals font orbitPathList parts (S interval)
              (unwalked (p_nearZ p) pending) annotations') as [rest left] eqn:Erest.
  simpl in Hin. destruct Hin as [<- | Hin].
  - exists 0%nat, p. simpl. split; [lia |]. split; [reflexivity |].
    apply (rendered_walked _ (walked (p_nearZ p) pending)) in Hit; [| reflexivity].
    pose proof (walked_bound (p_nearZ p) pending) as Hw.
    rewrite Forall_forall in Hw.
    assert (In it pending) as Hp.
    { rewrite <- (walked_unwalked (p_nearZ p) pending). apply in_or_app. by left. }
    rewrite Forall_forall in Hlow.
    specialize (Hhead p eq_refl).
    specialize (Hlow it (proj2 (list_elem_of_In _ _) Hp)).
    specialize (Hw it (proj2 (list_elem_of_In _ _) Hit)). simpl in Hw.
    split; lra.
  - destruct (IH (S interval) (unwalked (p_nearZ p) pending) annotations' (p_nearZ p))
      with (passes := passes) (it := it) as (j & q & Hj & Hq & Hb).
    + by eapply NoGap_tail.
    + intros p0 Hp0. apply (Hgap 0%nat p p0); [reflexivity | exact Hp0].
    + by apply Ascending_unwalked.
    + by apply unwalked_bound.
    + by rewrite Erest.
    + exact Hit.
    + exists (S j), q. split; [lia |]. split; [exact Hq | exact Hb].
Qed.

Lemma drawIntervals_complete font orbitPathList parts interval pending annotations pl :
  last parts = Some pl ->
  Forall (fun it => farZ (entry it) < p_nearZ pl) pending ->
  (drawIntervals font orbitPathList parts interval pending annotations).2.1 = [].
Proof.
  revert interval pending annotations.
  induction parts as [|p parts IH]; intros interval pending annotations Hl Hall;
    [discriminate |].
  simpl.
  destruct (renderSortedAnnotations font annotations (nearPlaneDistance p))
    as [shown annotations'].
  specialize (IH (S interval) (unwalked (p_nearZ p) pending) annotations').
  destruct (drawIntervals font orbitPathList parts (S interval)
              (unwalked (p_nearZ p) pending) annotations') as [rest left] eqn:Erest.
  simpl. destruct parts as [|p' parts'].
  - simpl in Hl. inversion Hl; subst pl.
    simpl in Erest. inversion Erest; subst. simpl. by apply unwalked_all.
  - apply IH; [exact Hl |].
    rewrite <- (walked_unwalked (p_nearZ p) pending) in Hall.
    by apply Forall_app in Hall as [_ Hall].
Qed.

Lemma includeFarthestOrbit_last parts orbitPathList pl :
  last parts = Some pl ->
  exists pl', last (includeFarthestOrbit parts orbitPathList) = Some pl'
              /\ p_nearZ pl' = p_nearZ pl.
Proof.
  intros H. unfold includeFarthestOrbit.
  destruct (last orbitPathList) as [o|]; [| by exists pl].
  destruct parts as [|p0 rest]; [discriminate |].
  destruct rest as [|p1 rest].
  - simpl in H. inversion H; subst. eexists. split; reflexivity.
  - exists pl. split; [exact H | reflexivity].
Qed.

Lemma partition_last renderList orbitPathList annotations :
  exists pl,
    last (partition renderList orbitPathList annotations) = Some pl
    /\ p_nearZ pl
       = closestBound (computeZNearest (prevNear (scan renderList))
                                       orbitPathList annotations) renderList.
Proof.
  unfold partition, partitionState. cbn [depthPartitions].
  destruct (includeFarthestOrbit_last
              (depthPartitions (addFrontInterval (scan renderList)
                 (closestBound (computeZNearest (prevNear (scan renderList))
                                  orbitPathList annotations) renderList)))
              orbitPathList
              (mkPartition (nIntervals (scan renderList))
                 (closestBound (computeZNearest (prevNear (scan renderList))
                                  orbitPathList annotations) renderList)
                 (prevNear (scan renderList)))) as (pl & Hl & Hn).
  - unfold addFrontInterval. cbn [depthPartitions]. apply last_snoc.
  - exists pl. split; [exact Hl | exact Hn].
Qed.

Lemma closestBound_front z e0 renderList :
  farZ e0 < nearZ e0 -> nearZ e0 < 0 ->
  farZ e0 < closestBound z (e0 :: renderList).
Proof.
  intros H1 H2. unfold closestBound.
  destruct (Qeq_bool _ 0); [lra |].
  pose proof (fmax_ge_r z (nearZ e0)). lra.
Qed.

Lemma partition_head_far renderList orbitPathList annotations p0 :
  Forall (fun e => farZ e <= nearZ e /\ nearZ e < 0) renderList ->
  (forall eb, last renderList = Some eb ->
              Forall (fun e => farZ eb <= farZ e) renderList) ->
  partition renderList orbitPathList annotations !! 0%nat = Some p0 ->
  p_farZ p0 <= scanStart renderList.
Proof.
  intros Hwf Hsorted Hp0.
  destruct (scan_sign renderList Hwf Hsorted) as [HF [Hc Hi Hb [Hp1 Hp2] Hh Hn]].
  apply includeFarthestOrbit_lookup in Hp0 as (q & Hq & _ & _ & Hle & _).
  assert (HeadFar (scanStart renderList)
            (depthPartitions (scan renderList)
             ++ [mkPartition (nIntervals (scan renderList))
                   (closestBound (computeZNearest (prevNear (scan renderList))
                                    orbitPathList annotations) renderList)
                   (prevNear (scan renderList))])) as Hhead.
  { apply HeadFar_snoc; [exact Hh |]. simpl. exact Hn. }
  specialize (Hhead q Hq). lra.
Qed.

(** X7. For a render list sorted by far bound, of entries in front of
    the observer with [farZ < nearZ < 0], no object is dropped and
    every object is rendered in the interval that holds its far edge:
    the passes leave no entry over, and an entry rendered for an
    interval has its far bound between the far bound and the near bound
    of that interval. *)
Theorem sorted_entries_rendered_in_their_interval font renderList orbitPathList
    annotations :
  SortedByFarZ renderList ->
  Forall (fun it => farZ (entry it) < nearZ (entry it) /\ nearZ (entry it) < 0)
         renderList ->
  let result := drawPasses font renderList orbitPathList annotations in
  result.2.1 = []
  /\ concat (map rendered result.1) ≡ₚ renderList
  /\ forall passes it,
       In passes result.1 -> In it (rendered passes) ->
       exists p,
         partition (map entry renderList) orbitPathList annotations
           !! p_interval passes = Some p
         /\ p_farZ p <= farZ (entry it) /\ farZ (entry it) < p_nearZ p.
Proof.
  intros Hsorted Hwf result.
  set (entries := map entry renderList).
  assert (Forall (fun e => farZ e <= nearZ e /\ nearZ e < 0) entries) as Hwf'.
  { unfold entries. apply Forall_fmap. eapply Forall_impl; [exact Hwf |].
    simpl. intros it [H1 H2]. split; [lra | exact H2]. }
  assert (forall it0 l, renderList = it0 :: l ->
            Forall (fun it => farZ (entry it) <= farZ (entry it0)) renderList)
    as Hfront.
  { intros it0 l ->. inversion Hsorted; subst. constructor; [lra | assumption]. }
  assert (forall eb, last entries = Some eb ->
            Forall (fun e => farZ eb <= farZ e) entries) as Hback.
  { intros eb Hl. unfold entries in *. rewrite fmap_last in Hl.
    destruct (last renderList) as [itb|] eqn:El; [| discriminate].
    inversion Hl; subst eb. apply Forall_fmap.
    apply Ascending_rev in Hsorted. unfold Ascending in Hsorted.
    destruct (rev renderList) as [|b r] eqn:Er.
    { apply (f_equal (@rev _)) in Er. rewrite rev_involutive in Er.
      rewrite Er in El. discriminate. }
    assert (b = itb) as ->.
    { apply (f_equal (@rev _)) in Er. rewrite rev_involutive in Er. simpl in Er.
      rewrite Er, last_snoc in El. by inversion El. }
    inversion Hsorted as [|? ? Hr Hb]; subst.
    apply Forall_forall. intros x Hx.
    assert (x ∈ itb :: r) as Hx'.
    { rewrite <- Er. apply list_elem_of_In. rewrite <- in_rev.
      by apply list_elem_of_In. }
    apply elem_of_cons in Hx' as [-> | Hx']; [simpl; lra |].
    rewrite Forall_forall in Hb. by apply Hb. }
  assert (result.2.1 = []) as Hcomplete.
  { destruct (partition_last entries orbitPathList annotations) as (pl & Hl & Hn).
    apply (drawIntervals_complete _ _ _ _ _ _ pl Hl).
    rewrite Hn. destruct renderList as [|it0 l]; [constructor |].
    apply Forall_rev.
    specialize (Hfront it0 l eq_refl).
    inversion Hwf as [|? ? [H1 H2] _]; subst.
    pose proof (closestBound_front
                  (computeZNearest (prevNear (scan entries)) orbitPathList annotations)
                  (entry it0) (map entry l) H1 H2) as Hc.
    change (entries) with (entry it0 :: map entry l).
    eapply Forall_impl; [exact Hfront |]. cbv beta. intros it Hit.
    apply Qle_lt_trans with (1 := Hit). exact Hc. }
  split; [exact Hcomplete |]. split.
  - pose proof (drawPasses_permutation font renderList orbitPathList annotations) as H.
    cbv zeta in H.
    change (drawPasses font renderList orbitPathList annotations) with result in H.
    rewrite Hcomplete, app_nil_r in H. exact H.
  - intros passes it Hin Hit.
    destruct (drawIntervals_bounds font orbitPathList
                (partition entries orbitPathList annotations) 0 (rev renderList)
                annotations (scanStart entries)) with (passes := passes) (it := it)
      as (j & p & Hj & Hp & Hb).
    + apply partition_NoGap.
    + intros p0. by apply partition_head_far.
    + by apply Ascending_rev.
    + apply Forall_rev.
      unfold scanStart. destruct (last entries) as [eb|] eqn:El.
      * specialize (Hback eb eq_refl).
        assert (farZ eb < 0) as Hneg.
        { apply last_Some_elem_of in El. rewrite Forall_forall in Hwf'.
          destruct (Hwf' eb El). lra. }
        assert (Forall (fun it => farZ eb <= farZ (entry it)) renderList) as Hb'.
        { apply Forall_forall. intros x Hx. rewrite Forall_forall in Hback.
          apply Hback. unfold entries. apply list_elem_of_fmap. by exists x. }
        eapply Forall_impl; [exact Hb' |]. cbv beta. intros x Hx. lra.
      * apply last_None in El. unfold entries in El.
        apply fmap_nil_inv in El. subst renderList. constructor.
    + exact Hin.
    + exact Hit.
    + exists p. rewrite Hj. simpl. split; [exact Hp | exact Hb].
Qed.

Lemma sorted_entries_rendered_in_their_interval_witness :
  SortedByFarZ threeItems
  /\ (drawPasses true threeItems oneOrbit []).2.1 = [].
Proof.
  assert (SortedByFarZ threeItems) as Hs.
  { unfold SortedByFarZ, threeItems, threeBodies. cbn [map].
    repeat (constructor; [| repeat (constructor; [vm_compute; discriminate |]);
                            constructor]).
    constructor. }
  split; [exact Hs |].
  apply (sorted_entries_rendered_in_their_interval true threeItems oneOrbit []).
  - exact Hs.
  - unfold threeItems, threeBodies. cbn [map].
    repeat (constructor; [split; vm_compute; reflexivity |]). constructor.
Defined.

End IntervalFacts.

(** ** The view-cone test *)

Module ViewConeFacts.
Import Vec Cull ViewCone.

Lemma square_le_mono a b : 0 <= a -> a <= b -> a * a <= b * b.
Proof. intros Ha Hab. nra. Qed.

(** A sphere inside the view cone stays inside when it grows. *)
Lemma sphereInViewCone_mono (c : CullContext) (r R : Q) :
  0 <= r -> r <= R -> 0 <= sinViewAngle c -> sinViewAngle c <= 1 ->
  sphereInViewCone c r = true -> sphereInViewCone c R = true.
Proof.
  intros Hr HrR Hs0 Hs1. unfold sphereInViewCone, square.
  rewrite !andb_true_iff. intros [Hd Hp].
  apply Qgtb_gt in Hd. apply Qltb_lt in Hp.
  split; [apply Qgtb_gt; lra |]. apply Qltb_lt.
  eapply Qlt_le_trans; [exact Hp |].
  set (s := sinViewAngle c) in *. set (d := dist_vn c) in *.
  set (ic := invCosViewAngle c) in *.
  assert (0 <= r + d * s) as Hpos.
  { destruct (Qlt_le_dec d 0) as [Hneg | Hnn].
    - assert (d <= d * s) by nra. lra.
    - assert (0 <= d * s) by nra. lra. }
  assert ((r + d * s) * (r + d * s) <= (R + d * s) * (R + d * s)) as Hsq.
  { apply square_le_mono; [exact Hpos | lra]. }
  assert (0 <= ic * ic) as Hic by nra.
  assert ((r + d * s) * ic * ((r + d * s) * ic)
          == (r + d * s) * (r + d * s) * (ic * ic)) as -> by ring.
  assert ((R + d * s) * ic * ((R + d * s) * ic)
          == (R + d * s) * (R + d * s) * (ic * ic)) as -> by ring.
  nra.
Qed.

(** X8. Reusing the planetshine test for the view-cone test never
    changes the outcome: for a body of culling radius at least 0 and a
    view cone whose angle has its sine between 0 and 1, [insideViewCone]
    is the result of testing the culling sphere of the body against the
    view cone, whether or not the body is a secondary illuminator. *)
Theorem view_cone_shortcut_sound (c : CullContext) (body : ConeBody) :
  0 <= getCullingRadius body ->
  0 <= sinViewAngle c -> sinViewAngle c <= 1 ->
  insideViewCone c body = sphereInViewCone c (getCullingRadius body).
Proof.
  intros Hr Hs0 Hs1.
  assert (forall R, sphereInViewCone c R
                    = if Qgtb (dist_vn c) (- R) then
                        Qltb (squaredNorm (toViewNormal c))
                             ((R + dist_vn c * sinViewAngle c) * invCosViewAngle c
                              * ((R + dist_vn c * sinViewAngle c) * invCosViewAngle c))
                      else false) as Hcone.
  { intros R. unfold sphereInViewCone, square. by destruct (Qgtb _ _). }
  unfold insideViewCone.
  destruct (viewConeTestFailed c body) eqn:Hfailed; cbn [negb].
  - (* the influence sphere is outside the cone and contains the culling sphere *)
    symmetry. apply not_true_is_false. intros Hin.
    assert (sphereInViewCone c (influenceRadius body) = false
            /\ getCullingRadius body < influenceRadius body) as [Hout Hlt].
    { unfold viewConeTestFailed in Hfailed. rewrite Hcone.
      destruct (isSecondaryIlluminator body); [| discriminate].
      destruct (Qgtb (dist_vn c) _).
      - destruct (Qltb _ _); [discriminate |].
        split; [reflexivity | by apply Qgtb_gt in Hfailed].
      - split; [reflexivity | by apply Qgtb_gt in Hfailed]. }
    rewrite (sphereInViewCone_mono c (getCullingRadius body) (influenceRadius body))
      in Hout; [discriminate | exact Hr | lra | exact Hs0 | exact Hs1 | exact Hin].
  - rewrite Hcone. reflexivity.
Qed.

Lemma view_cone_shortcut_sound_witness :
  viewConeTestFailed besideAxis smallMoon = true
  /\ insideViewCone besideAxis smallMoon = sphereInViewCone besideAxis 1.
Proof.
  split; [vm_compute; reflexivity |].
  apply (view_cone_shortcut_sound besideAxis smallMoon).
  - vm_compute. discriminate.
  - vm_compute. discriminate.
  - vm_compute. discriminate.
Defined.

End ViewConeFacts.

(** ** The lighting state left by [testEclipse] *)

Module EclipseShadowFacts.
Import Vec Eclipse EclipseScenes FloatFacts.

Section Frame.

Variable norm : Vector3 -> Q.
Variable normalized : Vector3 -> Vector3.
Variable distance : Vector3 -> Vector3 -> Vector3 -> Q.
Variable dot : Vector3 -> Vector3 -> Q.

Lemma update_same {A : Type} (f : nat -> A) i v : update f i v i = v.
Proof. unfold update. by rewrite Nat.eqb_refl. Qed.

Lemma update_other {A : Type} (f : nat -> A) i v j : j <> i -> update f i v j = f j.
Proof. intros H. unfold update. apply Nat.eqb_neq in H. by rewrite H. Qed.

(** The shadow list of the light after the call: either the list
    before it, or that list with the shadow of the caster at its end. *)
Lemma testEclipse_shadows receiver casterBody ls lightIndex now :
  let light := lights ls lightIndex in
  let result := testEclipse norm normalized distance dot receiver casterBody ls
                            lightIndex now in
  (shadows result.2 lightIndex = shadows ls lightIndex
   /\ (result.1 = true ->
       maxDepth (eclipseShadow norm normalized receiver casterBody light now)
       <= 1 / 256))
  \/ (shadows result.2 lightIndex
      = shadows ls lightIndex
        ++ [eclipseShadow norm normalized receiver casterBody light now]
      /\ result.1 = true
      /\ 1 / 256
         < maxDepth (eclipseShadow norm normalized receiver casterBody light now)).
Proof.
  intros light result. unfold result, testEclipse. fold light.
  destruct (casterQualifies receiver casterBody now); [| left; split; [done | discriminate]].
  destruct (withinShadowCylinder norm distance receiver casterBody light now
            && receiverBehindCaster dot receiver casterBody light now).
  - destruct (Qgtb (maxDepth _) (1 / 256)) eqn:Hdepth.
    + right. apply Qgtb_gt in Hdepth.
      destruct (getRings casterBody) as [rings|]; [destruct (Qltb _ _) |];
        cbn [fst snd shadows]; rewrite update_same; done.
    + left. apply Qgtb_le in Hdepth.
      destruct (getRings casterBody) as [rings|]; [destruct (Qltb _ _) |];
        cbn [fst snd shadows]; done.
  - left.
    destruct (getRings casterBody) as [rings|]; [destruct (Qltb _ _) |];
      cbn [fst snd shadows]; (split; [done | discriminate]).
Qed.

Lemma testEclipse_lights receiver casterBody ls lightIndex now j :
  lights (testEclipse norm normalized distance dot receiver casterBody ls
                      lightIndex now).2 j = lights ls j.
Proof.
  unfold testEclipse.
  destruct (casterQualifies _ _ _); [| reflexivity].
  destruct (_ && _); [destruct (Qgtb _ _) |];
    (destruct (getRings casterBody) as [rings|]; [destruct (Qltb _ _) |]);
    reflexivity.
Qed.

Lemma testEclipse_other_lights receiver casterBody ls lightIndex now j :
  j <> lightIndex ->
  let result := testEclipse norm normalized distance dot receiver casterBody ls
                            lightIndex now in
  shadows result.2 j = shadows ls j
  /\ ringShadows result.2 j = ringShadows ls j.
Proof.
  intros Hj. unfold testEclipse.
  destruct (casterQualifies _ _ _); [| done].
  destruct (_ && _); [destruct (Qgtb _ _) |];
    (destruct (getRings casterBody) as [rings|]; [destruct (Qltb _ _) |]);
    cbn [fst snd shadows ringShadows]; rewrite ?update_other by exact Hj; done.
Qed.

End Frame.

(** X9. [testEclipse] changes nothing but the shadow list and the ring
    shadow of the light it is called for: the lights, and the shadows
    and ring shadows recorded for every other light, are as before; the
    shadow list of the light keeps its entries and gains at most one,
    at its end, which is a shadow of the caster, deeper than 1/256, in
    a call that returns true; and without a ring system around the
    caster no ring shadow changes. *)
Theorem testEclipse_frame (norm : Vector3 -> Q) (normalized : Vector3 -> Vector3)
    (distance : Vector3 -> Vector3 -> Vector3 -> Q) (dot : Vector3 -> Vector3 -> Q)
    (receiver casterBody : Body) (ls : LightingState) (lightIndex : nat) (now : Q) :
  let result := testEclipse norm normalized distance dot receiver casterBody ls
                            lightIndex now in
  (forall j, lights result.2 j = lights ls j)
  /\ (forall j, j <> lightIndex ->
        shadows result.2 j = shadows ls j
        /\ ringShadows result.2 j = ringShadows ls j)
  /\ (shadows result.2 lightIndex = shadows ls lightIndex
      \/ exists shadow,
           shadows result.2 lightIndex = shadows ls lightIndex ++ [shadow]
           /\ caster shadow = casterBody
           /\ 1 / 256 < maxDepth shadow
           /\ result.1 = true)
  /\ (getRings casterBody = None ->
      forall j, ringShadows result.2 j = ringShadows ls j).
Proof.
  intros result. split; [| split; [| split]].
  - intros j. apply testEclipse_lights.
  - intros j Hj. by apply testEclipse_other_lights.
  - destruct (testEclipse_shadows norm normalized distance dot receiver casterBody ls
                                  lightIndex now) as [[H _] | (H & Hr & Hd)].
    + left. exact H.
    + right. eexists. split; [exact H |]. split; [reflexivity |].
      split; [exact Hd | exact Hr].
  - intros Hrings j. unfold result, testEclipse. rewrite Hrings.
    destruct (casterQualifies _ _ _); [| done].
    destruct (_ && _); [destruct (Qgtb _ _) |]; reflexivity.
Qed.

Lemma testEclipse_frame_witness :
  let result := testEclipse axisNorm unitX axisDistance dot planet moon
                            distantSunOnly 0 0 in
  length (shadows result.2 0%nat) = 1%nat
  /\ forall j, ringShadows result.2 j = ringShadows distantSunOnly j.
Proof.
  intros result. split; [vm_compute; reflexivity |].
  apply (testEclipse_frame axisNorm unitX axisDistance dot planet moon distantSunOnly
           0 0).
  reflexivity.
Defined.

(** X10. The geometry of a recorded shadow.  For a caster of positive
    radius at a distance from the surface of the receiver, of positive
    apparent radius, and a light of positive apparent size, the shadow
    that [testEclipse] appends has a penumbra at least as wide as the
    caster and a depth of at most 1, and the depth is 1 when the caster
    appears at least as large as the light. *)
Theorem recorded_shadow_geometry (norm : Vector3 -> Q)
    (normalized : Vector3 -> Vector3)
    (distance : Vector3 -> Vector3 -> Vector3 -> Q) (dot : Vector3 -> Vector3 -> Q)
    (receiver casterBody : Body) (ls : LightingState) (lightIndex : nat) (now : Q)
    (shadow : EclipseShadow) :
  let light := lights ls lightIndex in
  let result := testEclipse norm normalized distance dot receiver casterBody ls
                            lightIndex now in
  let appOccluder := appOccluderRadius norm receiver casterBody now in
  0 < getRadius casterBody ->
  Float.round32 (getRadius casterBody) = getRadius casterBody ->
  ~ distToCaster norm receiver casterBody now == 0 ->
  0 < appOccluder ->
  0 < apparentSize light ->
  shadows result.2 lightIndex = shadows ls lightIndex ++ [shadow] ->
  caster shadow = casterBody
  /\ getRadius casterBody <= penumbraRadius shadow
  /\ maxDepth shadow <= 1
  /\ (apparentSize light <= appOccluder -> maxDepth shadow = 1).
Proof.
  intros light result appOccluder Hr Hfloat _ Ho Hs Hshadow.
  assert (shadow = eclipseShadow norm normalized receiver casterBody light now) as ->.
  { destruct (testEclipse_shadows norm normalized distance dot receiver casterBody ls
                                  lightIndex now) as [[H _] | (H & _)];
      fold result in H; rewrite H in Hshadow.
    - apply (f_equal (@length _)) in Hshadow. rewrite length_app in Hshadow.
      cbn in Hshadow. lia.
    - apply app_inv_head in Hshadow. by inversion Hshadow. }
  unfold eclipseShadow. cbn [penumbraRadius maxDepth caster].
  unfold shadowRadius, shadowMaxDepth, appSunRadius.
  fold appOccluder. fold light.
  set (r := getRadius casterBody) in *. set (s := apparentSize light) in *.
  set (o := appOccluder) in *.
  split; [reflexivity |].
  split.
  { (* the factor of the radius is at least 1 *)
    assert (0 <= s / o) as Hso by (apply Qle_shift_div_l; [exact Ho | lra]).
    apply round32_nonneg in Hso.
    assert (1 <= Float.round32 (1 + Float.round32 (s / o))) as Hf.
    { rewrite <- round32_1 at 1. apply round32_mono. lra. }
    rewrite <- Hfloat at 1. apply round32_mono. nra. }
  split; [apply fmin_le_l |].
  intros Hle.
  assert (1 <= o / s) as Hos by (apply Qle_shift_div_l; [exact Hs | lra]).
  assert (1 <= Float.round32 (o / s)) as Hq.
  { rewrite <- round32_1 at 1. by apply round32_mono. }
  assert (1 <= Float.round32 (square (Float.round32 (o / s)))) as Hsq.
  { rewrite <- round32_1 at 1. apply round32_mono. unfold square. nra. }
  unfold fmin. destruct (Qltb _ 1) eqn:Hcmp; [| reflexivity].
  apply Qltb_lt in Hcmp. lra.
Qed.

Lemma recorded_shadow_geometry_witness :
  exists shadow,
    shadows (testEclipse axisNorm unitX axisDistance dot planet moon distantSunOnly
                         0 0).2 0%nat = [shadow]
    /\ getRadius moon <= penumbraRadius shadow
    /\ maxDepth shadow = 1.
Proof.
  eexists. split; [vm_compute; reflexivity |].
  destruct (recorded_shadow_geometry axisNorm unitX axisDistance dot planet moon
              distantSunOnly 0 0
              (eclipseShadow axisNorm unitX planet moon distantSun 0))
    as (_ & H2 & _ & H4).
  - reflexivity.
  - vm_compute. reflexivity.
  - vm_compute. discriminate.
  - vm_compute. reflexivity.
  - reflexivity.
  - vm_compute. reflexivity.
  - split; [exact H2 |]. apply H4. vm_compute. discriminate.
Defined.

(** X11. The eclipse shadows of a planet come from its satellites, in
    their order: after the loop over the satellites for a light, the
    shadow list of that light is the list before the loop followed by
    shadows whose casters form a subsequence of the satellites that
    pass the opening test of [testEclipse]; the lights and the shadow
    lists of the other lights are as before. *)
Theorem satellite_shadows_in_order (norm : Vector3 -> Q)
    (normalized : Vector3 -> Vector3)
    (distance : Vector3 -> Vector3 -> Vector3 -> Q) (dot : Vector3 -> Vector3 -> Q)
    (body : Body) (satellites : list Body) (ls : LightingState) (li : nat)
    (now : Q) :
  let ls' := testSatellites norm normalized distance dot body satellites ls li now in
  (forall j, lights ls' j = lights ls j)
  /\ (forall j, j <> li -> shadows ls' j = shadows ls j)
  /\ exists added,
       shadows ls' li = shadows ls li ++ added
       /\ sublist (map caster added)
                  (List.filter (fun satellite => casterQualifies body satellite now)
                               satellites).
Proof.
  unfold testSatellites. revert ls.
  induction satellites as [|satellite satellites IH]; intros ls; cbn [fold_left].
  - split; [done |]. split; [done |]. exists []. split; [by rewrite app_nil_r |].
    constructor.
  - pose proof (fun j => testEclipse_lights norm normalized distance dot body satellite
                                           ls li now j) as Hl.
    pose proof (fun j Hj => proj1 (testEclipse_other_lights norm normalized distance
                                     dot body satellite ls li now j Hj)) as Ho.
    destruct (IH (testEclipse norm normalized distance dot body satellite ls li now).2)
      as (IHl & IHo & added & IHs & IHsub).
    split; [intros j; by rewrite IHl, Hl |].
    split; [intros j Hj; rewrite (IHo j Hj); by apply Ho |].
    cbn [List.filter].
    destruct (testEclipse_shadows norm normalized distance dot body satellite ls li now)
      as [[H _] | (H & Hr & _)].
    + exists added. split; [by rewrite IHs, H |].
      destruct (casterQualifies body satellite now);
        [by apply sublist_cons | exact IHsub].
    + exists (eclipseShadow norm normalized body satellite (lights ls li) now
              :: added).
      split; [by rewrite IHs, H, <- app_assoc |].
      assert (casterQualifies body satellite now = true) as ->.
      { unfold testEclipse in Hr.
        destruct (casterQualifies body satellite now); [reflexivity | discriminate]. }
      cbn [map eclipseShadow caster]. by apply sublist_skip.
Qed.

End EclipseShadowFacts.

(** ** The orbit cache across calls *)

Module OrbitCacheFacts.
Import Vec Orbits OrbitFacts OrbitScenes.

Section Cache.

Variable orbitAt : positive -> Orbit.

(** An entry used in the current frame survives a call. *)
Lemma renderOrbit_keeps_current prog r orbit now k :
  (exists cp, orbitCache r !! k = Some cp /\ lastUsed cp = frameCount r) ->
  exists cp, orbitCache (renderOrbit orbitAt prog r orbit now) !! k = Some cp
             /\ lastUsed cp = frameCount r.
Proof.
  intros (cp & Hk & Hcp).
  destruct prog; [| rewrite renderOrbit_no_shader; by exists cp].
  destruct (renderOrbit_shape orbitAt r orbit now) as (cp' & Hcp' & ->).
  unfold withCache. cbn [orbitCache].
  destruct (decide (k = orbit)) as [-> | Hne].
  - exists cp'. by rewrite lookup_insert_eq.
  - exists cp. rewrite lookup_insert_ne by done. split; [| exact Hcp].
    unfold scanned. destruct (scans true r orbit); [| exact Hk].
    unfold flushOldOrbits. cbn [orbitCache].
    apply map_lookup_filter_Some. split; [exact Hk |].
    unfold retired. cbn [snd]. rewrite Hcp, age_now.
    unfold OrbitCacheRetireAge. lia.
Qed.

Lemma renderOrbits_keep_current r calls k :
  (exists cp, orbitCache r !! k = Some cp /\ lastUsed cp = frameCount r) ->
  exists cp, orbitCache (renderOrbits orbitAt r calls) !! k = Some cp
             /\ lastUsed cp = frameCount r.
Proof.
  revert r. induction calls as [|[orbit now] calls IH]; intros r H; [exact H |].
  cbn [renderOrbits].
  rewrite <- (renderOrbit_frameCount orbitAt true r orbit now).
  apply IH. rewrite renderOrbit_frameCount.
  by apply renderOrbit_keeps_current.
Qed.

(** The entries of the other orbits after a call are entries that the
    cache held before the call. *)
Lemma renderOrbit_others prog r orbit now k cp :
  k <> orbit ->
  orbitCache (renderOrbit orbitAt prog r orbit now) !! k = Some cp ->
  orbitCache r !! k = Some cp.
Proof.
  intros Hne. destruct prog; [| by rewrite renderOrbit_no_shader].
  destruct (renderOrbit_shape orbitAt r orbit now) as (cp' & _ & ->).
  unfold withCache. cbn [orbitCache]. rewrite lookup_insert_ne by done.
  unfold scanned. destruct (scans true r orbit); [| done].
  unfold flushOldOrbits. cbn [orbitCache].
  intros H. by apply map_lookup_filter_Some in H as [H _].
Qed.

Lemma renderOrbit_size prog r orbit now :
  (size (orbitCache (renderOrbit orbitAt prog r orbit now))
   <= S (size (orbitCache r)))%nat.
Proof.
  destruct prog; [| rewrite renderOrbit_no_shader; lia].
  destruct (renderOrbit_shape orbitAt r orbit now) as (cp' & _ & ->).
  unfold withCache. cbn [orbitCache]. rewrite map_size_insert.
  assert (size (orbitCache (scanned true r orbit)) <= size (orbitCache r))%nat.
  { unfold scanned. destruct (scans true r orbit); [| lia].
    unfold flushOldOrbits. cbn [orbitCache]. apply map_size_filter. }
  destruct (orbitCache (scanned true r orbit) !! orbit); unfold id; lia.
Qed.

End Cache.

(** X12. An orbit rendered in a frame stays in the cache for the rest
    of the frame: after [renderOrbit] has run for an orbit (with the
    shader at hand), whatever orbits are rendered next in the same
    frame, the cache still holds a plot for it, stamped with the
    current frame. *)
Theorem rendered_orbit_stays_cached (orbitAt : positive -> Orbit) (r : Renderer)
    (orbit : positive) (now : Q) (calls : list (positive * Q)) :
  exists cp,
    orbitCache (renderOrbits orbitAt (renderOrbit orbitAt true r orbit now) calls)
      !! orbit = Some cp
    /\ lastUsed cp = frameCount r.
Proof.
  rewrite <- (renderOrbit_frameCount orbitAt true r orbit now).
  apply renderOrbits_keep_current. rewrite renderOrbit_frameCount.
  destruct (renderOrbit_shape orbitAt r orbit now) as (cp' & Hcp' & ->).
  exists cp'. unfold withCache. cbn [orbitCache]. by rewrite lookup_insert_eq.
Qed.

(** X13. [renderOrbit] does not touch the plots of the other orbits: a
    plot found in the cache after the call under another orbit is the
    plot found there before the call; the call adds at most one entry,
    and it changes neither the frame counter nor the window settings. *)
Theorem renderOrbit_leaves_other_plots (orbitAt : positive -> Orbit) (prog : bool)
    (r : Renderer) (orbit : positive) (now : Q) :
  let r' := renderOrbit orbitAt prog r orbit now in
  (forall k cp, k <> orbit ->
                orbitCache r' !! k = Some cp -> orbitCache r !! k = Some cp)
  /\ (size (orbitCache r') <= S (size (orbitCache r)))%nat
  /\ frameCount r' = frameCount r
  /\ orbitWindowEnd r' = orbitWindowEnd r
  /\ orbitPeriodsShown r' = orbitPeriodsShown r.
Proof.
  intros r'. split; [intros k cp; apply renderOrbit_others |].
  split; [apply renderOrbit_size |].
  split; [apply renderOrbit_frameCount |].
  apply renderOrbit_config.
Qed.

(** X14. The trajectory of an aperiodic orbit is sampled once: when the
    cache holds a plot for an orbit that is not periodic, a call of
    [renderOrbit] at any time only stamps the plot with the current
    frame; its samples, the other entries and the rest of the renderer
    are unchanged. *)
Theorem aperiodic_orbit_sampled_once (orbitAt : positive -> Orbit) (r : Renderer)
    (orbit : positive) (now : Q) (cached : CurvePlot) :
  orbitCache r !! orbit = Some cached ->
  isPeriodic (orbitAt orbit) = false ->
  renderOrbit orbitAt true r orbit now
  = withCache r (<[orbit := mkPlot (samples cached) (frameCount r)]> (orbitCache r)).
Proof.
  intros Hhit Hper.
  apply (renderOrbit_hit_settled orbitAt r orbit now cached Hhit).
  right. by left.
Qed.

Lemma aperiodic_orbit_sampled_once_witness :
  exists cached,
    orbitCache probeQuery !! 1%positive = Some cached
    /\ length (samples cached) = 11%nat
    /\ renderOrbit (fun _ => probe) true probeQuery 1%positive 250
       = withCache probeQuery
           (<[1%positive := mkPlot (samples cached) (frameCount probeQuery)]>
              (orbitCache probeQuery)).
Proof.
  eexists. split; [vm_compute; reflexivity |].
  split; [vm_compute; reflexivity |].
  apply (aperiodic_orbit_sampled_once (fun _ => probe) probeQuery 1%positive 250).
  - vm_compute. reflexivity.
  - reflexivity.
Defined.

(** *** Sliding the window backward *)

Lemma last_rev_head {A : Type} (l : list A) : last (rev l) = head l.
Proof. destruct l as [|a l]; [reflexivity |]. simpl. apply last_snoc. Qed.

Lemma head_rev_last {A : Type} (l : list A) : head (rev l) = last l.
Proof. rewrite <- (rev_involutive l) at 2. symmetry. apply last_rev_head. Qed.

Lemma popBackWhile_head f l s :
  head l = Some s -> f s = false -> head (popBackWhile f l) = Some s.
Proof.
  intros Hh Hf. unfold popBackWhile. rewrite head_rev_last.
  apply popFrontWhile_last; [by rewrite last_rev_head | exact Hf].
Qed.

Lemma startTime_head p s : head (samples p) = Some s -> startTime p = t s.
Proof. unfold startTime. destruct (samples p); [discriminate |]. by intros [= ->]. Qed.

Lemma slideBackward_samples o E S now cached :
  samples cached <> [] ->
  startTime cached <= newWindowEnd o E now ->
  let cp' := slideBackward o E S now cached in
  (forall s, In s (samples cached) ->
             startTime cached * (1 + tiny) <= t s ->
             t s <= newWindowEnd o E now ->
             In s (samples cp'))
  /\ (forall s, In s (samples cp') ->
                In s (samples cached)
                \/ In s (sample o (newWindowStart o E S now) (startTime cached))).
Proof.
  intros Hne Hend cp'.
  destruct (head (samples cached)) as [s0|] eqn:Hhead;
    [| apply head_None in Hhead; contradiction].
  assert (startTime cached = t s0) as Hstart by (by apply startTime_head).
  set (p1 := removeSamplesAfter (newWindowEnd o E now) cached).
  assert (startTime p1 = startTime cached) as Hstart1.
  { rewrite Hstart. apply startTime_head.
    unfold p1, removeSamplesAfter. cbn [samples].
    apply popBackWhile_head; [exact Hhead |].
    apply Qgtb_le. by rewrite <- Hstart. }
  assert (fmin (startTime cached) (newWindowEnd o E now) = startTime cached) as Hmin.
  { unfold fmin. apply Qltb_ge in Hend. by rewrite Hend. }
  assert (cp' = insertBackward
                  (sample o (newWindowStart o E S now) (startTime cached))
                  (removeSamplesBefore (startTime cached * (1 + tiny)) p1)) as ->.
  { unfold cp', slideBackward. fold p1. by rewrite Hstart1, Hmin. }
  unfold insertBackward. split.
  - intros s Hin H1 H2. apply insert_keeps.
    unfold removeSamplesBefore. cbn [samples].
    apply popFrontWhile_keeps; [| by apply Qltb_ge].
    unfold p1, removeSamplesAfter. cbn [samples].
    apply popBackWhile_keeps; [exact Hin | by apply Qgtb_le].
  - intros s Hin. apply insert_In in Hin as [Hin | Hin].
    + right. by apply in_rev.
    + left. unfold removeSamplesBefore in Hin. cbn [samples] in Hin.
      apply popFrontWhile_In in Hin.
      unfold p1, removeSamplesAfter in Hin. cbn [samples] in Hin.
      by apply popBackWhile_In in Hin.
Qed.

(** X15. Orbit window sliding, backward case.  For a periodic orbit in
    the cache whose samples covered the display window of the previous
    query, when the simulation time has moved back by less than one
    period, at least 0.8 periods are shown and the desired window
    starts before the cached samples, [renderOrbit] removes only
    samples later than the new window end plus the slack of 20% of the
    period and samples earlier than [startTime * (1 + 1e-15)], keeps
    every other cached sample, and adds only samples of the orbit taken
    from the new window start minus slack to the old window start: the
    window is not sampled anew. *)
Theorem orbit_window_slides_backward (orbitAt : positive -> Orbit) (r : Renderer)
    (orbit : positive) (now prev : Q) (cached : CurvePlot) :
  let o := orbitAt orbit in
  let E := orbitWindowEnd r in
  let S := orbitPeriodsShown r in
  orbitCache r !! orbit = Some cached ->
  samples cached <> [] ->
  isPeriodic o = true ->
  0 < getPeriod o ->
  4 # 5 <= S ->
  now <= prev -> prev < now + getPeriod o ->
  startTime cached <= windowStart o E S prev ->
  windowEnd o E prev <= endTime cached ->
  windowStart o E S now < startTime cached ->
  exists cp',
    orbitCache (renderOrbit orbitAt true r orbit now) !! orbit = Some cp'
    /\ (forall s, In s (samples cached) ->
                  startTime cached * (1 + tiny) <= t s ->
                  t s <= newWindowEnd o E now ->
                  In s (samples cp'))
    /\ (forall s, In s (samples cached) -> ~ In s (samples cp') ->
                  newWindowEnd o E now < t s
                  \/ t s < startTime cached * (1 + tiny))
    /\ (forall s, In s (samples cp') ->
                  In s (samples cached)
                  \/ In s (sample o (newWindowStart o E S now) (startTime cached))).
Proof.
  intros o E S Hhit Hne Hper HP HS Hprev Hstep Hcs Hce Hstart.
  set (cp1 := setLastUsed (frameCount r) cached).
  assert (getPeriod o * (4 # 5) <= getPeriod o * S) as Hmul by nra.
  assert (startTime cached <= newWindowEnd o E now) as Hnwe.
  { unfold newWindowEnd, windowStart, windowEnd, WindowSlack in *. lra. }
  assert (updateWindow o E S now cp1 = slideBackward o E S now cp1) as Hupd.
  { unfold updateWindow. rewrite Hper.
    change (startTime cp1) with (startTime cached).
    apply Qltb_lt in Hstart. by rewrite Hstart. }
  exists (slideBackward o E S now cp1).
  split.
  - unfold renderOrbit. rewrite Hhit. cbn [negb]. fold cp1.
    assert (empty cp1 = false) as ->.
    { unfold empty, cp1. cbn [samples setLastUsed]. by destruct (samples cached). }
    unfold withCache. cbn [orbitCache]. rewrite lookup_insert_eq.
    fold o E S. by rewrite Hupd.
  - destruct (slideBackward_samples o E S now cp1 Hne Hnwe) as [Hkeep Hadd].
    change (samples cp1) with (samples cached) in *.
    change (startTime cp1) with (startTime cached) in *.
    split; [exact Hkeep |]. split; [| exact Hadd].
    intros s Hin Hgone.
    destruct (Qlt_le_dec (newWindowEnd o E now) (t s)) as [H1 | H1]; [by left |].
    destruct (Qlt_le_dec (t s) (startTime cached * (1 + tiny))) as [H2 | H2];
      [by right |].
    exfalso. apply Hgone. by apply Hkeep.
Qed.

Lemma orbit_window_slides_backward_witness :
  exists cp1 cp2,
    orbitCache firstQuery !! 1%positive = Some cp1
    /\ orbitCache earlierQuery !! 1%positive = Some cp2
    /\ startTime cp1 == - (70)
    /\ (forall s, In s (samples cp1) -> - (70) <= t s -> t s <= 10 ->
                  In s (samples cp2))
    /\ (forall s, In s (samples cp2) ->
                  In s (samples cp1)
                  \/ In s (sample testOrbit
                                  (newWindowStart testOrbit (1 # 2) 1 (- (60)))
                                  (startTime cp1)))
    /\ newWindowStart testOrbit (1 # 2) 1 (- (60)) == - (130)
    /\ startTime cp2 <= - (110).
Proof.
  set (cp1 := mkPlot (map sampleAt (uniformTimes (- (70)) 70 10 64)) 0).
  assert (orbitCache firstQuery !! 1%positive = Some cp1) as Hhit
    by (vm_compute; reflexivity).
  assert (exists cp2, orbitCache earlierQuery !! 1%positive = Some cp2
                      /\ startTime cp2 <= - (110)) as (cp2 & Hsecond & Hstart2).
  { eexists. split; [vm_compute; reflexivity | vm_compute; discriminate]. }
  assert (orbitWindowEnd firstQuery = 1 # 2) as HE by (vm_compute; reflexivity).
  assert (orbitPeriodsShown firstQuery = 1) as HS by (vm_compute; reflexivity).
  destruct (orbit_window_slides_backward (fun _ => testOrbit) firstQuery 1%positive
              (- (60)) 0 cp1) as (cp' & Hcp' & Hkeep & _ & Hadd).
  - exact Hhit.
  - discriminate.
  - reflexivity.
  - reflexivity.
  - rewrite HS. discriminate.
  - discriminate.
  - reflexivity.
  - rewrite HE, HS. vm_compute. discriminate.
  - rewrite HE. vm_compute. discriminate.
  - rewrite HE, HS. vm_compute. reflexivity.
  - fold earlierQuery in Hcp'. rewrite Hsecond in Hcp'. inversion Hcp'; subst cp'.
    rewrite HE in Hkeep. rewrite HE, HS in Hadd. cbv beta in Hkeep, Hadd.
    exists cp1, cp2.
    split; [exact Hhit |]. split; [exact Hsecond |].
    split; [vm_compute; reflexivity |].
    split; [| split; [| split]].
    + intros s Hin Ha Hb. apply Hkeep; [exact Hin | |].
      * apply Qle_trans with (2 := Ha). vm_compute. discriminate.
      * apply Qle_trans with (1 := Hb). vm_compute. discriminate.
    + exact Hadd.
    + vm_compute. reflexivity.
    + exact Hstart2.
Defined.

End OrbitCacheFacts.

(** ** Orbit paths *)

Module OrbitListFacts.
Import Vec Cull OrbitLists.

(** The quotient of [sizeFade], for a positive minimum size and an
    opaque scale above 1. *)
Lemma fade_quotient (x m k : Q) :
  0 < m -> 1 < k ->
  0 < m * (k - 1)
  /\ (x - m) / (m * (k - 1)) * (m * (k - 1)) == x - m.
Proof.
  intros Hm Hk. assert (0 < m * (k - 1)) as HD by nra.
  split; [exact HD |]. field. lra.
Qed.



Section Lists.

Variable norm : Vector3 -> Q.
Variable testSphere : Vector3 -> Q -> Aspect.
Variable viewMatZ : Vector3.
Variables pixelSize minOrbitSize : Q.
Variable orbitMask : Z.

Lemma orbitPath_Some body pos_v path :
  orbitPath norm viewMatZ pixelSize minOrbitSize orbitMask body pos_v = Some path ->
  showsOrbit orbitMask body = true
  /\ minOrbitSize < orbitRadiusInPixels norm pixelSize body pos_v
  /\ path_radius path = orbitBoundingRadius body
  /\ path_opacity path
     = sizeFade (orbitRadiusInPixels norm pixelSize body pos_v) minOrbitSize 2.
Proof.
  unfold orbitPath. destruct (showsOrbit orbitMask body); [| discriminate].
  destruct (Qgtb _ _) eqn:Hsize; [| discriminate].
  intros [= <-]. apply Qgtb_gt in Hsize. done.
Qed.

End Lists.

(** X17. Every orbit path that [buildOrbitLists] adds is visible: for a
    positive minimum orbit size, the opacity of an added path lies
    above 0 and is at most 1; it is 1 exactly when the orbit is at
    least twice the minimum size on screen; and the path belongs to a
    visible body whose orbit is larger on screen than the minimum
    size. *)
Theorem orbit_path_opacity (norm : Vector3 -> Q) (viewMatZ : Vector3)
    (pixelSize minOrbitSize : Q) (orbitMask : Z)
    (body : OrbitBody) (pos_v : Vector3) (path : OrbitPath) :
  0 < minOrbitSize ->
  orbitPath norm viewMatZ pixelSize minOrbitSize orbitMask body pos_v = Some path ->
  0 < path_opacity path /\ path_opacity path <= 1
  /\ (path_opacity path == 1
      <-> 2 * minOrbitSize <= orbitRadiusInPixels norm pixelSize body pos_v)
  /\ isVisible body = true
  /\ minOrbitSize < orbitRadiusInPixels norm pixelSize body pos_v.
Proof.
  intros Hm Hpath.
  apply orbitPath_Some in Hpath as (Hshow & Hsize & _ & ->).
  set (x := orbitRadiusInPixels norm pixelSize body pos_v) in *.
  assert (1 < 2) as H12 by reflexivity.
  destruct (fade_quotient x minOrbitSize 2 Hm H12) as [HD Hq].
  unfold sizeFade.
  set (q := (x - minOrbitSize) / (minOrbitSize * (2 - 1))) in *.
  assert (0 < q) as Hq0 by nra.
  assert (q <= 1 <-> x <= 2 * minOrbitSize) as Hq1 by (split; intros H; nra).
  assert (isVisible body = true) as Hvis.
  { unfold showsOrbit in Hshow. by apply andb_true_iff in Hshow as [H _]. }
  destruct (fmin_cases 1 q) as [[Hc ->] | [Hc ->]].
  - split; [exact Hq0 |]. split; [lra |].
    split; [| split; [exact Hvis | exact Hsize]].
    split; intros H; [lra | nra].
  - split; [reflexivity |]. split; [discriminate |].
    split; [| split; [exact Hvis | exact Hsize]].
    split; intros H; [nra | reflexivity].
Qed.

Lemma orbit_path_opacity_witness :
  exists path,
    orbitPath depthOf (mkVec 0 0 1) (1 # 1000) 20 1 outerPlanet (mkVec 0 0 (- (1000)))
    = Some path
    /\ 0 < path_opacity path /\ path_opacity path <= 1.
Proof.
  eexists. split; [vm_compute; reflexivity |].
  destruct (orbit_path_opacity depthOf (mkVec 0 0 1) (1 # 1000) 20 1 outerPlanet
              (mkVec 0 0 (- (1000)))
              (mkOrbitPathEntry (- (1000)) 30000 (mkVec 0 0 (- (1000))) 1))
    as (H1 & H2 & _).
  - reflexivity.
  - vm_compute. reflexivity.
  - split; [exact H1 | exact H2].
Defined.



End OrbitListFacts.

(** ** The vertex buffer of point stars *)

Module StarBufferFacts.
Import Vec StarBuffer.

Section Buffer.

Context {Color Bytes : Type}.
Variable get : Color -> Bytes.

Lemma newBuffer_Buffered cap content :
  (0 < cap)%nat -> Buffered cap [] (newBuffer (Bytes := Bytes) cap content).
Proof.
  intros Hcap. unfold Buffered, newBuffer. cbn.
  rewrite length_replicate. repeat split; [exact Hcap | constructor].
Qed.

Lemma addStar_Buffered cap added b pos color size :
  Buffered cap added b ->
  Buffered cap (added ++ [mkStarVertex pos size (get color)])
           (addStar get pos color size b).
Proof.
  intros (Hcap & Hlen & Hn & Hadded & Hbatches).
  unfold addStar. rewrite Hcap.
  assert (Nat.ltb (nStars b) cap = true) as -> by (by apply Nat.ltb_lt).
  cbn [nStars capacity].
  set (v := mkStarVertex pos size (get color)).
  assert (take (S (nStars b)) (<[nStars b := v]> (vertices b))
          = take (nStars b) (vertices b) ++ [v]) as Htake.
  { rewrite (take_S_r _ _ v); [by rewrite take_insert_ge by lia |].
    apply list_lookup_insert_eq. lia. }
  destruct (Nat.eqb (S (nStars b)) cap) eqn:Hfull.
  - apply Nat.eqb_eq in Hfull.
    unfold render. cbn [nStars capacity vertices drawn negb Nat.eqb].
    unfold Buffered. cbn [nStars capacity vertices drawn].
    split; [reflexivity |]. split; [by rewrite length_insert |].
    split; [lia |]. split.
    + rewrite take_0, app_nil_r, concat_app. cbn [concat].
      by rewrite app_nil_r, Htake, app_assoc, Hadded.
    + apply Forall_app. split; [exact Hbatches |].
      constructor; [| constructor].
      rewrite length_take, length_insert. lia.
  - apply Nat.eqb_neq in Hfull.
    unfold Buffered. cbn [nStars capacity vertices drawn].
    split; [reflexivity |]. split; [by rewrite length_insert |].
    split; [lia |]. split; [| exact Hbatches].
    by rewrite Htake, app_assoc, Hadded.
Qed.

Lemma addStars_Buffered cap added b stars :
  Buffered cap added b ->
  Buffered cap (added ++ map (vertexOf get) stars) (addStars get stars b).
Proof.
  revert added b. induction stars as [|[[pos color] size] stars IH];
    intros added b Hb.
  - by rewrite app_nil_r.
  - cbn [map addStars fold_left]. fold (addStars get stars).
    replace (added ++ vertexOf get (pos, color, size) :: map (vertexOf get) stars)
      with ((added ++ [vertexOf get (pos, color, size)])
            ++ map (vertexOf get) stars) by (by rewrite <- app_assoc).
    apply IH. by apply addStar_Buffered.
Qed.

(** Without capacity no star enters the buffer. *)
Lemma addStars_no_capacity stars (b : PointStarVertexBuffer Bytes) :
  capacity b = 0%nat -> nStars b = 0%nat ->
  addStars get stars b = b.
Proof.
  intros Hcap Hn. induction stars as [|[[pos color] size] stars IH];
    [reflexivity |].
  cbn [addStars fold_left]. fold (addStars get stars).
  assert (addStar get pos color size b = b) as ->; [| exact IH].
  unfold addStar. rewrite Hcap, Hn. cbn [Nat.ltb Nat.leb nStars capacity].
  rewrite Hcap, Hn. cbn [Nat.eqb]. unfold render. rewrite Hn. cbn [Nat.eqb negb].
  destruct b; cbn in *; by subst.
Qed.

End Buffer.

(** X19. A buffer of positive capacity draws every star once, in the
    order of the calls: after any sequence of [addStar] and the final
    [finish], the vertex ranges handed to [glDrawArrays], one after the
    other, are the vertices of the stars added; every range holds
    between 1 and [capacity] vertices, and the buffer is empty. *)
Theorem star_buffer_draws_every_star (Color Bytes : Type) (get : Color -> Bytes)
    (cap : nat) (content : StarVertex Bytes) (stars : list (Vector3 * Color * Q)) :
  (0 < cap)%nat ->
  let b := finish (addStars get stars (newBuffer cap content)) in
  concat (drawn b) = map (vertexOf get) stars
  /\ Forall (fun batch => (0 < length batch <= cap)%nat) (drawn b)
  /\ nStars b = 0%nat.
Proof.
  intros Hcap b.
  destruct (addStars_Buffered get cap [] (newBuffer cap content) stars
              (newBuffer_Buffered cap content Hcap))
    as (_ & Hlen & Hn & Hadded & Hbatches).
  cbn [app] in Hadded. unfold b, finish, render.
  destruct (Nat.eqb (nStars (addStars get stars (newBuffer cap content))) 0)
    eqn:Hempty; cbn [negb].
  - apply Nat.eqb_eq in Hempty. rewrite Hempty, take_0, app_nil_r in Hadded.
    done.
  - apply Nat.eqb_neq in Hempty. cbn [drawn nStars].
    split; [by rewrite concat_app; cbn [concat]; rewrite app_nil_r |].
    split; [| reflexivity].
    apply Forall_app. split; [exact Hbatches |].
    constructor; [| constructor]. rewrite length_take. lia.
Qed.

Lemma star_buffer_draws_every_star_witness :
  map (@length _)
      (drawn (finish (addStars (fun c : Q => c) threeStars
                               (newBuffer 2 (mkStarVertex zero 0 0)))))
  = [2%nat; 1%nat]
  /\ concat (drawn (finish (addStars (fun c : Q => c) threeStars
                                     (newBuffer 2 (mkStarVertex zero 0 0)))))
     = map (vertexOf (fun c : Q => c)) threeStars.
Proof.
  split; [vm_compute; reflexivity |].
  apply (star_buffer_draws_every_star Q Q (fun c => c) 2 (mkStarVertex zero 0 0)
           threeStars).
  lia.
Defined.

(** X20. A buffer of capacity 0 drops every star without a trace:
    whatever stars are added, [finish] has drawn nothing. *)
Theorem star_buffer_without_capacity (Color Bytes : Type) (get : Color -> Bytes)
    (content : StarVertex Bytes) (stars : list (Vector3 * Color * Q)) :
  drawn (finish (addStars get stars (newBuffer 0 content))) = [].
Proof.
  rewrite addStars_no_capacity by reflexivity. reflexivity.
Qed.

End StarBufferFacts.

(** ** Orbit paths and annotations in the interval passes *)

Module OrbitPassFacts.
Import Vec Depth FloatFacts DepthFacts Passes IntervalFacts.

(** A depth range that starts behind the far bound of the first
    interval and ends in front of the near bound of the last one
    overlaps one of the intervals, as these leave no gap. *)
Lemma NoGap_overlap parts lo hi p0 pl :
  NoGap parts ->
  head parts = Some p0 -> last parts = Some pl ->
  lo < hi -> p_farZ p0 < hi -> lo < p_nearZ pl ->
  exists k p, parts !! k = Some p /\ p_farZ p < hi /\ lo < p_nearZ p.
Proof.
  revert p0. induction parts as [|p parts IH]; intros p0 Hgap Hh Hl Hlohi Hfar Hnear;
    [discriminate |].
  cbn in Hh. inversion Hh; subst p0.
  destruct parts as [|q parts].
  - cbn in Hl. inversion Hl; subst pl. exists 0%nat, p. done.
  - destruct (Qlt_le_dec (p_farZ q) hi) as [Hq | Hq].
    + destruct (IH q (NoGap_tail _ _ Hgap) eq_refl Hl Hlohi Hq Hnear)
        as (k & p' & Hk & H1 & H2).
      exists (S k), p'. done.
    + exists 0%nat, p. split; [reflexivity |]. split; [exact Hfar |].
      pose proof (Hgap 0%nat p q eq_refl eq_refl). lra.
Qed.

(** The passes of the interval of each partition. *)
Lemma drawIntervals_lookup font orbitPathList parts interval pending annotations k p :
  parts !! k = Some p ->
  exists passes,
    (drawIntervals font orbitPathList parts interval pending annotations).1 !! k
    = Some passes
    /\ p_interval passes = (interval + k)%nat
    /\ orbitPass passes = List.filter (orbitOverlaps p) orbitPathList.
Proof.
  revert interval pending annotations k.
  induction parts as [|p' parts IH]; intros interval pending annotations k Hk;
    [discriminate |].
  cbn [drawIntervals].
  destruct (renderSortedAnnotations font annotations (nearPlaneDistance p'))
    as [shown annotations'].
  specialize (IH (S interval) (unwalked (p_nearZ p') pending) annotations').
  destruct (drawIntervals font orbitPathList parts (S interval)
                          (unwalked (p_nearZ p') pending) annotations')
    as [rest remaining].
  destruct k as [|k]; cbn in Hk.
  - inversion Hk; subst p'. eexists. split; [reflexivity |].
    cbn [p_interval orbitPass]. split; [lia | reflexivity].
  - destruct (IH k Hk) as (passes & H1 & H2 & H3).
    exists passes. split; [exact H1 |]. split; [lia | exact H3].
Qed.

Lemma partition_head renderList orbitPathList annotations o :
  last orbitPathList = Some o ->
  exists p0,
    head (partition renderList orbitPathList annotations) = Some p0
    /\ p_farZ p0 <= farEdge o.
Proof.
  intros Hlast. unfold partition, partitionState. cbn [depthPartitions].
  unfold includeFarthestOrbit. rewrite Hlast.
  unfold addFrontInterval. cbn [depthPartitions].
  destruct (depthPartitions (scan renderList) ++ _) as [|p0 rest] eqn:E.
  - by apply app_nil in E as [_ ?].
  - eexists. split; [reflexivity |]. cbn [p_farZ]. apply fmin_le_r.
Qed.

(** The bounds of the overlap test are the negated edges of the orbit
    path. *)
Lemma overlap_bounds (o : OrbitPathListEntry) :
  Float.round32 (- o_centerZ o - o_radius o) == - nearEdge o
  /\ Float.round32 (- o_centerZ o + o_radius o) == - farEdge o.
Proof.
  unfold nearEdge, farEdge. split.
  - rewrite (round32_comp (- o_centerZ o - o_radius o) (- (o_centerZ o + o_radius o)))
      by ring.
    apply round32_opp.
  - rewrite (round32_comp (- o_centerZ o + o_radius o) (- (o_centerZ o - o_radius o)))
      by ring.
    apply round32_opp.
Qed.

(** X21. No orbit path is lost between the depth intervals.  When the
    orbit paths are in the order of [operator<], an orbit path whose
    far edge [centerZ - radius] lies behind its near edge
    [centerZ + radius] in single precision, and behind the near plane
    of the frontmost interval, is rendered in the orbit pass of at
    least one interval, which its depth range overlaps. *)
Theorem orbit_path_rendered_in_some_interval (font : bool)
    (renderList : list DrawItem) (orbitPathList : list OrbitPathListEntry)
    (annotations : list Annotation) (o : OrbitPathListEntry)
    (front : DepthBufferPartition) :
  SortedOrbits orbitPathList ->
  In o orbitPathList ->
  farEdge o < nearEdge o ->
  last (partition (map entry renderList) orbitPathList annotations) = Some front ->
  farEdge o < p_nearZ front ->
  exists passes p,
    In passes (drawPasses font renderList orbitPathList annotations).1
    /\ partition (map entry renderList) orbitPathList annotations
         !! p_interval passes = Some p
    /\ In o (orbitPass passes)
    /\ p_farZ p < nearEdge o
    /\ farEdge o < p_nearZ p.
Proof.
  intros Hsorted Hin Hr Hfront Hnear.
  destruct (last orbitPathList) as [ol|] eqn:Hlast;
    [| apply last_None in Hlast; subst; destruct Hin].
  assert (farEdge ol <= farEdge o) as Hfar.
  { clear - Hsorted Hin Hlast. unfold SortedOrbits in Hsorted.
    induction Hsorted as [|a l Hl IH Ha]; [destruct Hin |].
    destruct l as [|b l].
    - cbn in Hlast. inversion Hlast; subst. destruct Hin as [-> | []]. lra.
    - destruct Hin as [-> | Hin].
      + rewrite Forall_forall in Ha. apply Ha.
        apply last_Some_elem_of. exact Hlast.
      + apply IH; [exact Hin | exact Hlast]. }
  destruct (partition_head (map entry renderList) orbitPathList annotations ol Hlast)
    as (p0 & Hhead & Hp0).
  destruct (NoGap_overlap
              (partition (map entry renderList) orbitPathList annotations)
              (farEdge o) (nearEdge o) p0 front)
    as (k & p & Hk & H1 & H2);
    [apply partition_NoGap | exact Hhead | exact Hfront | lra | lra | exact Hnear |].
  destruct (drawIntervals_lookup font orbitPathList
              (partition (map entry renderList) orbitPathList annotations)
              0 (rev renderList) annotations k p Hk) as (passes & Hp & Hi & Ho).
  exists passes, p. fold (drawPasses font renderList orbitPathList annotations) in Hp.
  split; [apply list_elem_of_In; by apply list_elem_of_lookup_2 in Hp |].
  split; [by rewrite Hi |].
  split; [| split; [exact H1 | exact H2]].
  rewrite Ho. apply filter_In. split; [exact Hin |].
  destruct (overlap_bounds o) as [En Ef].
  unfold orbitOverlaps, farPlaneDistance, nearPlaneDistance.
  apply andb_true_iff. split; [apply Qltb_lt | apply Qgtb_gt]; lra.
Qed.

Lemma orbit_path_rendered_in_some_interval_witness :
  exists passes,
    In passes (drawPasses true threeItems oneOrbit []).1
    /\ In (mkOrbitPath (- (10)) 1) (orbitPass passes).
Proof.
  assert (exists front,
            last (partition (map entry threeItems) oneOrbit []) = Some front
            /\ farEdge (mkOrbitPath (- (10)) 1) < p_nearZ front)
    as (front & Hfront & Hnear).
  { eexists. split; [vm_compute; reflexivity | vm_compute; reflexivity]. }
  destruct (orbit_path_rendered_in_some_interval true threeItems oneOrbit []
              (mkOrbitPath (- (10)) 1) front)
    as (passes & p & H1 & _ & H3 & _).
  - unfold SortedOrbits, oneOrbit. repeat constructor.
  - left. reflexivity.
  - vm_compute. reflexivity.
  - exact Hfront.
  - exact Hnear.
  - exists passes. split; [exact H1 | exact H3].
Defined.

(** An orbit path at a distance of 2^30 with the radius 1: in single
    precision its two edges coincide, and the overlap test of an
    interval whose bounds lie at the edges fails. *)
Lemma degenerate_orbit_path_not_rendered :
  let o := mkOrbitPath (- (1073741824)) 1 in
  farEdge o = nearEdge o
  /\ orbitOverlaps (mkPartition 0 (nearEdge o) (farEdge o)) o = false.
Proof. vm_compute. split; reflexivity. Qed.

(** *** The depth of annotations *)

Lemma fmax_mono_r (a x y : Q) : x <= y -> fmax a x <= fmax a y.
Proof.
  intros H. destruct (fmax_cases a x) as [[? ->] | [? ->]];
    destruct (fmax_cases a y) as [[? ->] | [? ->]]; lra.
Qed.

Lemma fmin_mono_r (a x y : Q) : x <= y -> fmin a x <= fmin a y.
Proof.
  intros H. destruct (fmin_cases a x) as [[? ->] | [? ->]];
    destruct (fmin_cases a y) as [[? ->] | [? ->]]; lra.
Qed.

(** The factor [d2] is negative or zero. *)
Lemma depthScale_nonpos (nearDist farDist : Q) :
  0 <= nearDist -> 0 <= farDist -> 0 < depthSpan nearDist farDist ->
  depthScale nearDist farDist <= 0.
Proof.
  intros Hn Hf Hspan. unfold depthScale.
  assert (Float.round32 (- (2) * nearDist) <= 0) as H1 by (apply round32_nonpos; lra).
  assert (Float.round32 (Float.round32 (- (2) * nearDist) * farDist) <= 0) as H2
    by (apply round32_nonpos; nra).
  apply round32_nonpos.
  set (N := Float.round32 (Float.round32 (- (2) * nearDist) * farDist)) in *.
  set (D := depthSpan nearDist farDist) in *.
  assert (N / D * D == N) as E by (field; lra).
  nra.
Qed.

(** X22. The depth given to a depth-sorted annotation follows its
    distance: between clip planes at distances that are not negative,
    whose difference is positive in single precision, the normalized
    depth of an annotation lies between -1 and 1 and never increases
    with the distance of the annotation, so that of two annotations
    rendered in an interval the nearer one is never given the depth of
    a position farther away. *)
Theorem annotation_depth_follows_distance (nearDist farDist : Q) :
  0 <= nearDist -> 0 <= farDist -> 0 < depthSpan nearDist farDist ->
  (forall z, - (1) <= annotationDepth nearDist farDist z
             /\ annotationDepth nearDist farDist z <= 1)
  /\ (forall z1 z2, 0 < z1 -> z1 <= z2 ->
        annotationDepth nearDist farDist z2 <= annotationDepth nearDist farDist z1).
Proof.
  intros Hn Hf Hspan. split.
  - intros z. unfold annotationDepth. cbv zeta. split; [| apply fmin_le_l].
    set (g := Float.round32 _).
    pose proof (fmax_ge_l (- (1)) g).
    destruct (fmin_cases 1 (fmax (- (1)) g)) as [[? ->] | [? ->]]; lra.
  - intros z1 z2 Hz1 Hz12.
    assert (0 < z2) as Hz2 by lra.
    pose proof (depthScale_nonpos nearDist farDist Hn Hf Hspan) as Hd2.
    unfold annotationDepth. cbv zeta.
    set (d1 := depthOffset nearDist farDist). set (d2 := depthScale nearDist farDist) in *.
    apply fmin_mono_r, fmax_mono_r, round32_mono.
    assert (Float.round32 (d2 / - z2) <= Float.round32 (d2 / - z1)) as Hq.
    { apply round32_mono.
      assert (d2 / - z1 * z1 == - d2) as E1 by (field; lra).
      assert (d2 / - z2 * z2 == - d2) as E2 by (field; lra).
      set (q1 := d2 / - z1) in *. set (q2 := d2 / - z2) in *.
      assert (0 <= q1) as Hq1 by nra.
      assert (0 <= q2) as Hq2 by nra.
      destruct (Qlt_le_dec q1 q2) as [Hlt | Hle]; [| exact Hle].
      exfalso. assert (q1 * z1 < q2 * z2); [| lra].
      apply Qle_lt_trans with (q1 * z2); [nra |].
      apply Qmult_lt_compat_r; [exact Hz2 | exact Hlt]. }
    lra.
Qed.

Lemma annotation_depth_follows_distance_witness :
  annotationDepth 1 3 3 <= annotationDepth 1 3 2
  /\ - (1) <= annotationDepth 1 3 2 /\ annotationDepth 1 3 2 <= 1.
Proof.
  destruct (annotation_depth_follows_distance 1 3) as (Hb & Hm).
  - discriminate.
  - discriminate.
  - vm_compute. reflexivity.
  - split; [apply (Hm 2 3); [reflexivity | discriminate] | apply Hb].
Defined.

(** The depth at the planes themselves need not be 1 and -1: between
    planes at the distances 0.7f and 1.9f the depth of an annotation at
    the far plane is above -1. *)
Lemma annotation_depth_at_far_plane :
  let nearDist := Float.round32 (7 # 10) in
  let farDist := Float.round32 (19 # 10) in
  - (1) < annotationDepth nearDist farDist farDist.
Proof. vm_compute. reflexivity. Qed.

End OrbitPassFacts.

(** ** Light sources *)

Module LightFacts.
Import Vec Lights.

Lemma setupLightSources_fold (nearStars : list Star) (tinted : bool)
    (lightSources : list LightSource) :
  fold_left
    (fun lightSources star =>
       if getVisibility star then
         lightSources
         ++ [mkLightSource (offsetFromObserver star) (getLuminosity star)
                           (getRadius star)
                           (lightColor tinted (getTemperature star))]
       else lightSources)
    nearStars lightSources
  = lightSources
    ++ map (fun star =>
              mkLightSource (offsetFromObserver star) (getLuminosity star)
                            (getRadius star)
                            (lightColor tinted (getTemperature star)))
           (List.filter getVisibility nearStars).
Proof.
  revert lightSources. induction nearStars as [|star nearStars IH];
    intros lightSources; cbn [fold_left List.filter].
  - by rewrite app_nil_r.
  - rewrite IH. destruct (getVisibility star); [| reflexivity].
    cbn [map]. by rewrite <- app_assoc.
Qed.

Lemma lightColor_cases (tinted : bool) (temp : Q) :
  lightColor tinted temp = mkColor 1 1 1 /\ (tinted = false \/ 5400 < temp <= 10000)
  \/ tinted = true
     /\ (30000 < temp /\ lightColor tinted temp = mkColor (8 # 10) (8 # 10) 1
         \/ 10000 < temp <= 30000
            /\ lightColor tinted temp = mkColor (9 # 10) (9 # 10) 1
         \/ 3900 < temp <= 5400
            /\ lightColor tinted temp = mkColor 1 (9 # 10) (8 # 10)
         \/ 2000 < temp <= 3900
            /\ lightColor tinted temp = mkColor 1 (7 # 10) (7 # 10)
         \/ temp <= 2000
            /\ lightColor tinted temp = mkColor 1 (4 # 10) (4 # 10)).
Proof.
  unfold lightColor. destruct tinted; [| left; split; [reflexivity | by left]].
  destruct (Qgtb temp 30000) eqn:H1;
    [apply Qgtb_gt in H1; right; split; [reflexivity |]; left; done |].
  apply Qgtb_le in H1.
  destruct (Qgtb temp 10000) eqn:H2;
    [apply Qgtb_gt in H2; right; split; [reflexivity |]; right; left; done |].
  apply Qgtb_le in H2.
  destruct (Qgtb temp 5400) eqn:H3;
    [apply Qgtb_gt in H3; left; split; [reflexivity |]; right; done |].
  apply Qgtb_le in H3.
  destruct (Qgtb temp 3900) eqn:H4;
    [apply Qgtb_gt in H4; right; split; [reflexivity |];
     right; right; left; done |].
  apply Qgtb_le in H4.
  destruct (Qgtb temp 2000) eqn:H5;
    [apply Qgtb_gt in H5; right; split; [reflexivity |];
     right; right; right; left; done |].
  apply Qgtb_le in H5.
  right; split; [reflexivity |]; right; right; right; right; done.
Qed.

(** X23. The light sources are the visible stars, in their order, and
    their light is tinted but never dimmed: [setupLightSources] yields
    one light per visible star, at the offset of the star from the
    observer, with its luminosity and radius; every colour component
    lies between 0.4 and 1 and the largest one is 1; a hotter star is
    never given a redder light (its red component is not larger, its
    blue component not smaller); and without tinted illumination every
    light is white. *)
Theorem light_sources_of_visible_stars (nearStars : list Star) (tinted : bool) :
  let lights := setupLightSources nearStars tinted in
  map position lights = map offsetFromObserver (List.filter getVisibility nearStars)
  /\ map luminosity lights = map getLuminosity (List.filter getVisibility nearStars)
  /\ map radius lights = map getRadius (List.filter getVisibility nearStars)
  /\ Forall (fun l =>
               (4 # 10 <= red (color l) /\ red (color l) <= 1)
               /\ (4 # 10 <= green (color l) /\ green (color l) <= 1)
               /\ (4 # 10 <= blue (color l) /\ blue (color l) <= 1)
               /\ fmax (red (color l)) (fmax (green (color l)) (blue (color l)))
                  == 1
               /\ (tinted = false -> color l = mkColor 1 1 1))
            lights
  /\ (forall cool hot, cool <= hot ->
        red (lightColor tinted hot) <= red (lightColor tinted cool)
        /\ blue (lightColor tinted cool) <= blue (lightColor tinted hot)).
Proof.
  intros lights. unfold lights, setupLightSources.
  rewrite setupLightSources_fold. cbn [app].
  rewrite !map_map. cbn [position luminosity radius].
  split; [reflexivity |]. split; [reflexivity |]. split; [reflexivity |].
  split.
  - apply Forall_forall. intros l Hl. apply list_elem_of_In in Hl.
    apply in_map_iff in Hl as (star & <- & _). cbn [color].
    destruct (lightColor_cases tinted (getTemperature star))
      as [[-> _] | [-> [[_ ->] | [[_ ->] | [[_ ->] | [[_ ->] | [_ ->]]]]]]];
      cbn [red green blue];
      (repeat split; try (vm_compute; discriminate); try discriminate;
       try reflexivity).
  - intros cool hot Hle.
    destruct (lightColor_cases tinted cool)
      as [[-> Hc] | [Ht [[Hc ->] | [[Hc ->] | [[Hc ->] | [[Hc ->] | [Hc ->]]]]]]];
      destruct (lightColor_cases tinted hot)
        as [[-> Hh] | [Ht' [[Hh ->] | [[Hh ->] | [[Hh ->] | [[Hh ->] | [Hh ->]]]]]]];
      cbn [red green blue];
      try (split; vm_compute; discriminate);
      exfalso; try (destruct Hc as [Hc | Hc]); try (destruct Hh as [Hh | Hh]);
      try congruence; lra.
Qed.

End LightFacts.

(** ** Watchers *)

Module WatcherFacts.
Import Watchers.

Lemma removeWatcher_absent (watcher : positive) (watchers : list positive) :
  ~ In watcher watchers -> removeWatcher watcher watchers = watchers.
Proof.
  induction watchers as [|w watchers IH]; intros Hin; [reflexivity |].
  cbn [removeWatcher].
  destruct (Pos.eqb w watcher) eqn:E.
  - apply Pos.eqb_eq in E. subst. exfalso. apply Hin. by left.
  - rewrite IH; [reflexivity |]. intros H. apply Hin. by right.
Qed.

Lemma removeWatcher_app_present (watcher : positive) (watchers more : list positive) :
  In watcher watchers ->
  removeWatcher watcher (watchers ++ more) = removeWatcher watcher watchers ++ more.
Proof.
  induction watchers as [|w watchers IH]; intros Hin; [destruct Hin |].
  cbn [app removeWatcher]. destruct (Pos.eqb w watcher) eqn:E; [reflexivity |].
  apply Pos.eqb_neq in E. destruct Hin as [H | H]; [congruence |].
  by rewrite (IH H).
Qed.

Lemma removeWatcher_app_absent (watcher : positive) (watchers more : list positive) :
  ~ In watcher watchers ->
  removeWatcher watcher (watchers ++ more) = watchers ++ removeWatcher watcher more.
Proof.
  induction watchers as [|w watchers IH]; intros Hin; [reflexivity |].
  cbn [app removeWatcher]. destruct (Pos.eqb w watcher) eqn:E.
  - apply Pos.eqb_eq in E. subst. exfalso. apply Hin. by left.
  - rewrite IH; [reflexivity |]. intros H. apply Hin. by right.
Qed.

Lemma removeWatcher_Permutation (watcher : positive) (watchers : list positive) :
  In watcher watchers -> watcher :: removeWatcher watcher watchers ≡ₚ watchers.
Proof.
  induction watchers as [|w watchers IH]; intros Hin; [destruct Hin |].
  cbn [removeWatcher]. destruct (Pos.eqb w watcher) eqn:E.
  - apply Pos.eqb_eq in E. by subst.
  - apply Pos.eqb_neq in E. destruct Hin as [H | H]; [congruence |].
    rewrite Permutation_swap. by rewrite (IH H).
Qed.

(** X24. Registering a watcher and removing it again restores the
    watchers: [removeWatcher] after [addWatcher] leaves the list of
    watchers as it was when the watcher was not registered before, and
    in every case leaves the same watchers with the same numbers of
    registrations; removing a watcher that is not registered changes
    nothing; and a watcher registered twice is still notified after one
    removal. *)
Theorem watcher_add_remove (watcher : positive) (watchers : list positive) :
  removeWatcher watcher (addWatcher watcher watchers) ≡ₚ watchers
  /\ (~ In watcher watchers ->
      removeWatcher watcher (addWatcher watcher watchers) = watchers
      /\ removeWatcher watcher watchers = watchers)
  /\ (In watcher watchers ->
      In watcher (notifyWatchers (removeWatcher watcher (addWatcher watcher watchers)))).
Proof.
  unfold addWatcher, notifyWatchers.
  assert (removeWatcher watcher [watcher] = []) as Hone
    by (cbn [removeWatcher]; by rewrite Pos.eqb_refl).
  split; [| split].
  - destruct (in_dec Pos.eq_dec watcher watchers) as [Hin | Hout].
    + rewrite removeWatcher_app_present by exact Hin.
      rewrite <- (removeWatcher_Permutation watcher watchers Hin) at 2.
      by rewrite Permutation_app_comm.
    + rewrite removeWatcher_app_absent by exact Hout.
      by rewrite Hone, app_nil_r.
  - intros Hout. rewrite removeWatcher_app_absent by exact Hout.
    rewrite Hone, app_nil_r. split; [reflexivity | by apply removeWatcher_absent].
  - intros Hin. rewrite removeWatcher_app_present by exact Hin.
    apply in_or_app. right. by left.
Qed.

End WatcherFacts.

(** ** Object annotations *)

Module ObjectAnnotationFacts.
Import Vec ObjectAnnotations.

Section Annotations.

Context {Text Color MarkerRep HAlign VAlign : Type}.
Variable noText : Text.
Variable AlignCenter : HAlign.
Variable VerticalAlignCenter : VAlign.
Variable defaultSize : Q.
Variable Project : Vector3 -> option Vector3.
Variable modelMatrixRow2 : Vector3.

Lemma addAnnotation_app (annotations : list (Annotation Text Color MarkerRep HAlign VAlign))
    markerRep labelText color pos halign valign size special :
  addAnnotation noText Project modelMatrixRow2 annotations markerRep labelText color
                pos halign valign size special
  = annotations
    ++ addAnnotation noText Project modelMatrixRow2 [] markerRep labelText color
                     pos halign valign size special.
Proof.
  unfold addAnnotation. destruct (Project pos); [reflexivity | by rewrite app_nil_r].
Qed.

Lemma addObjectAnnotations_cons markerRep labelText color pos requests
    (s : AnnotationState Text Color MarkerRep HAlign VAlign) :
  addObjectAnnotations noText AlignCenter VerticalAlignCenter defaultSize Project
                       modelMatrixRow2 ((markerRep, labelText, color, pos) :: requests) s
  = addObjectAnnotations noText AlignCenter VerticalAlignCenter defaultSize Project
                         modelMatrixRow2 requests
      (addObjectAnnotation noText AlignCenter VerticalAlignCenter defaultSize Project
                           modelMatrixRow2 markerRep labelText color pos s).
Proof. reflexivity. Qed.

Lemma addObjectAnnotation_open markerRep labelText color pos
    (s : AnnotationState Text Color MarkerRep HAlign VAlign) :
  objectAnnotationSetOpen s = true ->
  addObjectAnnotation noText AlignCenter VerticalAlignCenter defaultSize Project
                      modelMatrixRow2 markerRep labelText color pos s
  = mkAnnotationState
      (objectAnnotations s
       ++ annotationOf noText AlignCenter VerticalAlignCenter defaultSize Project
                       modelMatrixRow2 (markerRep, labelText, color, pos))
      true (renderedSets s).
Proof.
  intros Hopen. unfold addObjectAnnotation, annotationOf. rewrite Hopen.
  by rewrite addAnnotation_app.
Qed.

Lemma addObjectAnnotations_open requests
    (s : AnnotationState Text Color MarkerRep HAlign VAlign) :
  objectAnnotationSetOpen s = true ->
  addObjectAnnotations noText AlignCenter VerticalAlignCenter defaultSize Project
                       modelMatrixRow2 requests s
  = mkAnnotationState
      (objectAnnotations s
       ++ flat_map (annotationOf noText AlignCenter VerticalAlignCenter defaultSize
                                 Project modelMatrixRow2) requests)
      true (renderedSets s).
Proof.
  revert s. induction requests as [|[[[markerRep labelText] color] pos] requests IH];
    intros s Hopen.
  - cbn. rewrite app_nil_r. destruct s; cbn in *; by subst.
  - rewrite addObjectAnnotations_cons, addObjectAnnotation_open by exact Hopen.
    rewrite IH by reflexivity.
    cbn [objectAnnotations renderedSets flat_map]. by rewrite <- app_assoc.
Qed.

Lemma addObjectAnnotations_closed requests
    (s : AnnotationState Text Color MarkerRep HAlign VAlign) :
  objectAnnotationSetOpen s = false ->
  addObjectAnnotations noText AlignCenter VerticalAlignCenter defaultSize Project
                       modelMatrixRow2 requests s
  = s.
Proof.
  intros Hclosed. induction requests as [|[[[markerRep labelText] color] pos] requests IH];
    [reflexivity |].
  rewrite addObjectAnnotations_cons.
  unfold addObjectAnnotation. by rewrite Hclosed.
Qed.

End Annotations.

(** X25. The object annotations of an interval are rendered once and
    the set is left ready for the next interval.  After
    [beginObjectAnnotations], any sequence of [addObjectAnnotation] and
    [endObjectAnnotations], the set is closed and empty, which is what
    the next [beginObjectAnnotations] asserts; the annotations handed
    to [renderAnnotations] are those handed over before, followed by
    the annotations of the requests whose position could be projected,
    in the order of the requests, in at most one more call; and
    requests made after the end of the set are dropped. *)
Theorem object_annotations_rendered_once {Text Color MarkerRep HAlign VAlign : Type}
    (noText : Text) (AlignCenter : HAlign) (VerticalAlignCenter : VAlign)
    (defaultSize : Q) (Project : Vector3 -> option Vector3)
    (modelMatrixRow2 : Vector3)
    (requests late : list (option MarkerRep * Text * Color * Vector3))
    (s : AnnotationState Text Color MarkerRep HAlign VAlign) :
  let add := addObjectAnnotations noText AlignCenter VerticalAlignCenter defaultSize
                                  Project modelMatrixRow2 in
  let s' := endObjectAnnotations (add requests (beginObjectAnnotations s)) in
  MayBegin s'
  /\ concat (renderedSets s')
     = concat (renderedSets s)
       ++ flat_map (annotationOf noText AlignCenter VerticalAlignCenter defaultSize
                                 Project modelMatrixRow2) requests
  /\ (length (renderedSets s') <= S (length (renderedSets s)))%nat
  /\ add late s' = s'.
Proof.
  intros add s'. unfold s', add.
  rewrite addObjectAnnotations_open by reflexivity.
  cbn [beginObjectAnnotations objectAnnotations renderedSets app].
  unfold endObjectAnnotations. cbn [objectAnnotations renderedSets].
  destruct (flat_map _ requests) as [|a l] eqn:E.
  - split; [done |]. split; [by rewrite app_nil_r |]. split; [cbn; lia |].
    by apply addObjectAnnotations_closed.
  - split; [done |].
    split; [cbn [renderedSets]; by rewrite concat_app; cbn; rewrite app_nil_r |].
    split; [cbn [renderedSets]; rewrite length_app; cbn; lia |].
    by apply addObjectAnnotations_closed.
Qed.

End ObjectAnnotationFacts.

(** ** The comparison operators *)

Module OrderingFacts.
Import Depth Ordering.

(** A comparison of rational keys is a strict weak ordering. *)
Lemma key_order {A : Type} (key : A -> Q) :
  StrictWeakOrder (fun a b => Qgtb (key a) (key b)).
Proof.
  split.
  - intros a. apply Qgtb_le. lra.
  - intros a b H. apply Qgtb_gt in H. apply Qgtb_le. lra.
  - intros a b c H1 H2. apply Qgtb_gt in H1, H2. apply Qgtb_gt. lra.
  - intros a b c H1 H2 H3 H4. apply Qgtb_le in H1, H2, H3, H4.
    split; apply Qgtb_le; lra.
Qed.

(** X26. The three [operator<] that [draw] sorts with (on render-list
    entries, on annotations and on orbit paths) are strict weak
    orderings, as [std::sort] requires: irreflexive, asymmetric and
    transitive, with a transitive equivalence of the elements that
    neither precedes the other.  (On the rationals; a NaN key is not
    represented.) *)
Theorem sort_comparisons_are_strict_weak_orders :
  StrictWeakOrder entry_lt /\ StrictWeakOrder annotation_lt
  /\ StrictWeakOrder orbit_lt.
Proof.
  split; [| split].
  - apply (key_order (fun a => centerZ a - radius a)).
  - apply (key_order position_z).
  - apply (key_order (fun a => o_centerZ a - o_radius a)).
Qed.

End OrderingFacts.

(** ** The entries of a body *)

Module RenderEntryFacts.
Import Vec RenderEntries.

Section Entries.

Variable norm : Vector3 -> Q.
Variables faintestPlanetMag pixelSize : Q.
Variable showCometTails : bool.

(** The entry of a reference mark, for the values that the entry [rle]
    holds when the loop over the reference marks starts. *)
Lemma referenceMarks_fold (refMarks : list ReferenceMark) (rle : RenderListEntry)
    (renderList : list RenderListEntry) :
  (fold_left
     (fun '(rle, renderList) rm =>
        let rle :=
          mkListEntry (Some RenderableReferenceMark) (Some rm) (rm_isOpaque rm)
                      (boundingSphereRadius rm) (discSizeInPixels rle)
                      (appMag rle) (distance rle) (sun rle) in
        (rle, renderList ++ [rle]))
     refMarks (rle, renderList)).2
  = renderList
    ++ map (fun rm =>
              mkListEntry (Some RenderableReferenceMark) (Some rm) (rm_isOpaque rm)
                          (boundingSphereRadius rm) (discSizeInPixels rle)
                          (appMag rle) (distance rle) (sun rle))
           refMarks.
Proof.
  revert rle renderList. induction refMarks as [|rm refMarks IH];
    intros rle renderList; cbn [fold_left map].
  - by rewrite app_nil_r.
  - rewrite IH. cbn [discSizeInPixels appMag distance sun].
    by rewrite <- app_assoc.
Qed.

Lemma addReferenceMarkEntries_list body (rle : RenderListEntry) renderList :
  (addReferenceMarkEntries body (rle, renderList)).2
  = renderList
    ++ map (fun rm =>
              mkListEntry (Some RenderableReferenceMark) (Some rm) (rm_isOpaque rm)
                          (boundingSphereRadius rm) (discSizeInPixels rle)
                          (appMag rle) (distance rle) (sun rle))
           (default [] (getReferenceMarks body)).
Proof.
  unfold addReferenceMarkEntries. destruct (getReferenceMarks body) as [refMarks|].
  - apply referenceMarks_fold.
  - cbn. by rewrite app_nil_r.
Qed.

End Entries.

(** X27. The entries that [addRenderListEntries] appends for a body:
    at most one for the body and one for its dust tail, followed by
    one for every reference mark, in order, whether or not the body
    itself was added.  A body entry keeps the disc size handed over and
    is opaque when that size is at most a pixel; a tail entry is
    transparent and larger than a pixel; and, as the entry [rle] is
    updated in place, the entries of the reference marks carry the disc
    size of the dust tail when one was appended, and the disc size
    handed over otherwise.  (For a comet whose tail is shown, the
    distance to the sun, the distance to the observer and the size of a
    pixel are not zero, so that the size of the tail is a number.) *)
Theorem entries_of_a_body (norm : Vector3 -> Q) (faintestPlanetMag pixelSize : Q)
    (showCometTails : bool) (rle : RenderListEntry) (body : EntryBody)
    (isLabeled : bool) (renderList : list RenderListEntry) :
  let result :=
    addRenderListEntries norm faintestPlanetMag pixelSize showCometTails rle body
                         isLabeled renderList in
  let discSize :=
    if addsCometTail norm pixelSize showCometTails rle body
    then tailDiscSize norm pixelSize rle body
    else discSizeInPixels rle in
  (isComet body && showCometTails = true ->
   ~ norm (sun rle) == 0 /\ ~ Float.round32 (distance rle) == 0 /\ ~ pixelSize == 0) ->
  exists front,
    result.2
    = renderList ++ front
      ++ map (fun rm =>
                mkListEntry (Some RenderableReferenceMark) (Some rm) (rm_isOpaque rm)
                            (boundingSphereRadius rm) discSize
                            (appMag rle) (distance rle) (sun rle))
             (default [] (getReferenceMarks body))
    /\ (length front <= 2)%nat
    /\ Forall (fun e =>
                 (renderableType e = Some RenderableBody
                  /\ discSizeInPixels e = discSizeInPixels rle
                  /\ radius e = getRadius body
                  /\ (discSizeInPixels e <= 1 -> isOpaque e = true))
                 \/ (renderableType e = Some RenderableCometTail
                     /\ isOpaque e = false
                     /\ 1 < discSizeInPixels e))
              front.
Proof.
  intros result discSize _. unfold result, addRenderListEntries.
  set (bodyEntry :=
         mkListEntry (Some RenderableBody) (refMark rle)
           (if negb (isInvalidResource (getGeometry body))
               && Qgtb (discSizeInPixels rle) 1
            then match getGeometry body with
                 | FoundGeometry opaque => opaque
                 | _ => true
                 end
            else true)
           (getRadius body) (discSizeInPixels rle) (appMag rle) (distance rle)
           (sun rle)).
  assert (exists rle1 front1,
            addBodyEntry faintestPlanetMag body isLabeled (rle, renderList)
            = (rle1, renderList ++ front1)
            /\ (front1 = [] \/ front1 = [bodyEntry])
            /\ discSizeInPixels rle1 = discSizeInPixels rle
            /\ appMag rle1 = appMag rle /\ distance rle1 = distance rle
            /\ sun rle1 = sun rle /\ refMark rle1 = refMark rle) as
      (rle1 & front1 & -> & Hfront1 & Hd1 & Ha1 & Hdist1 & Hs1 & Hr1).
  { unfold addBodyEntry.
    destruct (Qgtb (discSizeInPixels rle) 1
              || Qltb (appMag rle) faintestPlanetMag && isVisibleAsPoint body
              || isLabeled).
    - exists bodyEntry, [bodyEntry]. split; [reflexivity |]. split; [by right | done].
    - exists rle, []. rewrite app_nil_r. split; [reflexivity |].
      split; [by left | done]. }
  set (tailEntry :=
         mkListEntry (Some RenderableCometTail) (refMark rle) false
           (cometDustTailLength (norm (sun rle)) (getRadius body))
           (tailDiscSize norm pixelSize rle body)
           (appMag rle) (distance rle) (sun rle)).
  assert (tailDiscSize norm pixelSize rle1 body = tailDiscSize norm pixelSize rle body)
    as Etail by (unfold tailDiscSize; by rewrite Hs1, Hdist1).
  assert (exists rle2 front2,
            addCometTailEntry norm pixelSize showCometTails body
                              (rle1, renderList ++ front1)
            = (rle2, (renderList ++ front1) ++ front2)
            /\ (front2 = []
                /\ addsCometTail norm pixelSize showCometTails rle body = false
                \/ front2 = [tailEntry]
                   /\ addsCometTail norm pixelSize showCometTails rle body = true)
            /\ discSizeInPixels rle2 = discSize
            /\ appMag rle2 = appMag rle /\ distance rle2 = distance rle
            /\ sun rle2 = sun rle) as
      (rle2 & front2 & -> & Hfront2 & Hd2 & Ha2 & Hdist2 & Hs2).
  { unfold addCometTailEntry, discSize, addsCometTail.
    rewrite Etail, Hs1, Hdist1, Ha1, Hr1.
    destruct (isComet body && showCometTails); cbn [andb].
    - destruct (Qgtb (tailDiscSize norm pixelSize rle body) 1) eqn:Htail.
      + eexists. exists [tailEntry]. split; [reflexivity |].
        split; [by right | done].
      + exists rle1, []. rewrite app_nil_r. split; [reflexivity |].
        split; [by left | done].
    - exists rle1, []. rewrite app_nil_r. split; [reflexivity |].
      split; [by left | done]. }
  rewrite addReferenceMarkEntries_list. rewrite Hd2, Ha2, Hdist2, Hs2.
  exists (front1 ++ front2). split; [by rewrite <- !app_assoc |].
  split.
  - rewrite length_app.
    destruct Hfront1 as [-> | ->]; destruct Hfront2 as [[-> _] | [-> _]];
      cbn; lia.
  - apply Forall_app. split.
    + destruct Hfront1 as [-> | ->]; [constructor |].
      constructor; [| constructor]. left. unfold bodyEntry.
      cbn [renderableType discSizeInPixels radius isOpaque].
      split; [reflexivity |]. split; [reflexivity |]. split; [reflexivity |].
      intros Hsmall. apply Qgtb_le in Hsmall. rewrite Hsmall.
      by rewrite andb_false_r.
    + destruct Hfront2 as [[-> _] | [-> Htail]]; [constructor |].
      constructor; [| constructor]. right. unfold tailEntry.
      cbn [renderableType discSizeInPixels isOpaque].
      split; [reflexivity |]. split; [reflexivity |].
      unfold addsCometTail in Htail. apply andb_true_iff in Htail as [_ Htail].
      by apply Qgtb_gt in Htail.
Qed.

Lemma entries_of_a_body_witness :
  exists front,
    (addRenderListEntries axisLength 6 (1 # 1000) true cometEntry comet false []).2
    = front
      ++ [mkListEntry (Some RenderableReferenceMark) (Some (mkReferenceMark false 10))
            false 10 10000000 4 1000 (mkVec 100000000 0 0)]
    /\ (length front <= 2)%nat.
Proof.
  destruct (entries_of_a_body axisLength 6 (1 # 1000) true cometEntry comet false [])
    as (front & H1 & H2 & _).
  - intros _. vm_compute. repeat split; discriminate.
  - exists front. split; [| exact H2].
    rewrite H1. vm_compute. reflexivity.
Defined.

End RenderEntryFacts.
